(** * Carousel navigation, gestures, autoplay and audit logging

    A shallow embedding of the two carousel implementations of the
    repository and of their helpers:

    - [Audit]    : the console audit helpers ([logUIEvent] of utils/audit.ts,
                   [createAuditEvent], [logAuditEvent], [logSlideChange] of
                   utils/audit.js), first over a console that works, then
                   over a console whose methods may raise;
    - [Slides]   : the slide sanitizer [validateSlides] of data/slides.js;
    - [Tsx]      : the autoplay carousel (components/Carousel/Carousel.tsx):
                   validation, [clampIndex], [goTo], [next], [prev], the
                   pause handlers, the image error handler, the touch swipe
                   recogniser [useSwipe] and the autoplay timer effect, run
                   as an event-driven machine;
    - [Jsx]      : the pixel-drag carousel (components/Carousel.jsx) and its
                   slide component (components/CarouselSlide.jsx).

    Indices and pixel coordinates are integers ([Z]).  The wall-clock
    timestamp that both loggers put into an event is left out of the event
    records: no property below reads it. *)

From Stdlib Require Import Ascii String.
From stdpp Require Import base numbers strings list gmap pretty.

Open Scope string_scope.
Open Scope list_scope.
Open Scope Z_scope.

(* ===================================================================== *)
(** ** Audit helpers                                                      *)
(* ===================================================================== *)

Module Audit.

(** utils/audit.ts: [AuditAction]. *)
Inductive AuditAction := CREATE | READ | UPDATE | DELETE | NAVIGATE | ERROR | INFO.

(** A metadata value: the loggers receive plain objects whose fields are
    numbers, strings or booleans. *)
Inductive MetaValue :=
| MNum (z : Z)
| MStr (s : string)
| MBool (b : bool).

(** [Record<string, unknown>] literals, in the order the fields are written. *)
Definition Metadata := list (string * MetaValue).

(** utils/audit.ts: [AuditEvent] (without the timestamp). *)
Record AuditEvent := {
  eventName : string;
  action : AuditAction;
  userId : string;
  metadata : Metadata
}.

(** utils/audit.ts: the event object [logUIEvent] builds. *)
Definition mkUIEvent (name : string) (act : AuditAction) (md : Metadata) : AuditEvent :=
  {| eventName := name; action := act; userId := "anonymous"; metadata := md |}.

(** utils/audit.ts: [logUIEvent] over a console that works: the event is
    appended to the console output. *)
Definition logUIEvent (name : string) (act : AuditAction) (md : Metadata)
    (console : list AuditEvent) : list AuditEvent :=
  console ++ [mkUIEvent name act md].

(** utils/audit.js: the payload of [createAuditEvent] (without the
    timestamp); [action] and [component] are strings there. *)
Record JsAuditEvent := {
  js_action : string;
  js_component : string;
  js_metadata : Metadata;
  js_userId : string
}.

Definition createAuditEvent (act component : string) (md : Metadata) (uid : string)
    : JsAuditEvent :=
  {| js_action := act; js_component := component; js_metadata := md; js_userId := uid |}.

(** utils/audit.js: [logAuditEvent] over a console that works: the
    serialised event goes to [console.info]. *)
Definition logAuditEvent (event : JsAuditEvent) (console : list JsAuditEvent)
    : list JsAuditEvent :=
  console ++ [event].

(** utils/audit.js: [logSlideChange].  The three indices are integers
    here, so the [Number.isFinite] tests keep them and the null they
    would put in place of another value never appears. *)
Definition slideChangeEvent (fromIndex toIndex total : Z) (uid : string) : JsAuditEvent :=
  createAuditEvent "INTERACT" "Carousel"
    [("interaction", MStr "slide_change");
     ("beforeIndex", MNum fromIndex);
     ("afterIndex", MNum toIndex);
     ("totalSlides", MNum total)]
    uid.

Definition logSlideChange (fromIndex toIndex total : Z) (uid : string)
    (console : list JsAuditEvent) : list JsAuditEvent :=
  logAuditEvent (slideChangeEvent fromIndex toIndex total uid) console.

(** *** Consoles that may raise *)

(** The result of running a JavaScript statement: it returns, or it raises
    and the exception travels to the caller.  [Raised] keeps the message
    only: what matters below is whether the exception reaches the caller. *)
Inductive outcome (A : Type) :=
| Returned (a : A)
| Raised (msg : string).
Arguments Returned {A} a.
Arguments Raised {A} msg.

Definition bind {A B : Type} (m : outcome A) (k : A -> outcome B) : outcome B :=
  match m with
  | Returned a => k a
  | Raised msg => Raised msg
  end.

(** [try { body } catch (e) { handler e }]. *)
Definition try_catch {A : Type} (body : outcome A) (handler : string -> outcome A)
    : outcome A :=
  match body with
  | Returned a => Returned a
  | Raised msg => handler msg
  end.

(** A console: each method either writes (returns) or raises.  [stringify]
    stands for [JSON.stringify], which raises on values it cannot
    serialise. *)
Record Console := {
  console_log : AuditEvent -> outcome unit;
  console_info : JsAuditEvent -> outcome unit;
  console_error : string -> outcome unit;
  stringify : JsAuditEvent -> outcome JsAuditEvent
}.

(** utils/audit.ts: [logUIEvent] has no guard: it builds the event, calls
    [console.log] and returns the event. *)
Definition logUIEvent_on (c : Console) (name : string) (act : AuditAction)
    (md : Metadata) : outcome AuditEvent :=
  let evt := mkUIEvent name act md in
  bind (console_log c evt) (fun _ => Returned evt).

(** utils/audit.js: [logAuditEvent] wraps the console call in try/catch
    and reports the exception with [console.error].  It returns the
    output of [console.info]: [out] with the event when the call went
    through, [out] alone when the exception was caught. *)
Definition logAuditEvent_on (c : Console) (event : JsAuditEvent)
    (out : list JsAuditEvent) : outcome (list JsAuditEvent) :=
  try_catch
    (bind (stringify c event) (fun s =>
     bind (console_info c s) (fun _ => Returned (out ++ [s]))))
    (fun e => bind (console_error c e) (fun _ => Returned out)).

Definition logSlideChange_on (c : Console) (fromIndex toIndex total : Z) (uid : string)
    (out : list JsAuditEvent) : outcome (list JsAuditEvent) :=
  logAuditEvent_on c (slideChangeEvent fromIndex toIndex total uid) out.

(** A console on which nothing raises. *)
Definition working_console : Console :=
  {| console_log := fun _ => Returned tt;
     console_info := fun _ => Returned tt;
     console_error := fun _ => Returned tt;
     stringify := fun e => Returned e |}.

(** A console whose [log] method raises. *)
Definition broken_log_console : Console :=
  {| console_log := fun _ => Raised "console.log failed";
     console_info := fun _ => Returned tt;
     console_error := fun _ => Returned tt;
     stringify := fun e => Returned e |}.

(** A console on which serialising and [info] raise, [error] works. *)
Definition broken_info_console : Console :=
  {| console_log := fun _ => Returned tt;
     console_info := fun _ => Raised "console.info failed";
     console_error := fun _ => Returned tt;
     stringify := fun _ => Raised "cannot serialise" |}.

End Audit.

(* ===================================================================== *)
(** ** The slide sanitizer (data/slides.js)                               *)
(* ===================================================================== *)

Module Slides.

(** The values [validateSlides] may be handed: its parameter is typed
    [unknown]. *)
#[warnings="-register-all"]
Inductive JsValue :=
| JUndefined
| JNull
| JBool (b : bool)
| JNum (z : Z)
| JStr (s : string)
| JFun
| JArr (items : list JsValue)
| JObj (fields : list (string * JsValue)).

(** JavaScript truthiness. *)
Definition truthy (v : JsValue) : bool :=
  match v with
  | JUndefined | JNull => false
  | JBool b => b
  | JNum z => negb (z =? 0)
  | JStr s => negb (String.eqb s "")
  | JFun | JArr _ | JObj _ => true
  end.

(** [typeof v]. *)
Definition typeof (v : JsValue) : string :=
  match v with
  | JUndefined => "undefined"
  | JNull => "object"
  | JBool _ => "boolean"
  | JNum _ => "number"
  | JStr _ => "string"
  | JFun => "function"
  | JArr _ | JObj _ => "object"
  end.

(** [Array.isArray v]. *)
Definition isArray (v : JsValue) : bool :=
  match v with JArr _ => true | _ => false end.

Fixpoint assoc (k : string) (fields : list (string * JsValue)) : JsValue :=
  match fields with
  | [] => JUndefined
  | (k', v) :: rest => if String.eqb k k' then v else assoc k rest
  end.

(** Property read [s.k] for the names the sanitizer reads; an array has
    none of them. *)
Definition get (s : JsValue) (k : string) : JsValue :=
  match s with
  | JObj fields => assoc k fields
  | _ => JUndefined
  end.

(** Strings are sequences of bytes: the UTF-8 form of the JavaScript
    string.  [code] is the value of a byte. *)
Definition code (a : ascii) : N := N_of_ascii a.

(** The number of bytes of the white space character a string starts
    with, 0 when it starts with none.  [String.prototype.trim] removes
    the WhiteSpace and LineTerminator characters of ECMAScript: U+0009 to
    U+000D and U+0020 (one byte each), U+00A0 (C2 A0), U+1680 (E1 9A 80),
    U+2000 to U+200A, U+2028, U+2029 and U+202F (E2 80 ..), U+205F
    (E2 81 9F), U+3000 (E3 80 80) and U+FEFF (EF BB BF). *)
Definition ws_prefix (s : string) : nat :=
  match s with
  | String a rest =>
      let c := code a in
      if (((9 <=? c) && (c <=? 13)) || (c =? 32))%N then 1%nat
      else
        match rest with
        | String a2 rest2 =>
            let c2 := code a2 in
            if ((c =? 194) && (c2 =? 160))%N then 2%nat
            else
              match rest2 with
              | String a3 _ =>
                  let c3 := code a3 in
                  if ((c =? 225) && (c2 =? 154) && (c3 =? 128))%N then 3%nat
                  else if ((c =? 226) && (c2 =? 128)
                           && (((128 <=? c3) && (c3 <=? 138))
                               || (c3 =? 168) || (c3 =? 169) || (c3 =? 175)))%N
                  then 3%nat
                  else if ((c =? 226) && (c2 =? 129) && (c3 =? 159))%N then 3%nat
                  else if ((c =? 227) && (c2 =? 128) && (c3 =? 128))%N then 3%nat
                  else if ((c =? 239) && (c2 =? 187) && (c3 =? 191))%N then 3%nat
                  else 0%nat
              | EmptyString => 0%nat
              end
        | EmptyString => 0%nat
        end
  | EmptyString => 0%nat
  end.

(** The string without the white space it starts with. *)
Fixpoint trim_start (s : string) : string :=
  match s with
  | EmptyString => EmptyString
  | String _ rest =>
      match ws_prefix s with
      | 0%nat => s
      | 1%nat => trim_start rest
      | 2%nat => match rest with
                 | String _ rest2 => trim_start rest2
                 | EmptyString => s
                 end
      | _ => match rest with
             | String _ (String _ rest3) => trim_start rest3
             | _ => s
             end
      end
  end.

(** The string is white space from its first byte to its last. *)
Definition all_ws (s : string) : bool := String.eqb (trim_start s) "".

(** The string without the white space it ends with: everything up to
    the first position from which only white space follows. *)
Fixpoint trim_end (s : string) : string :=
  match s with
  | EmptyString => EmptyString
  | String a rest => if all_ws s then EmptyString else String a (trim_end rest)
  end.

(** [String.prototype.trim]. *)
Definition trim (s : string) : string := trim_end (trim_start s).

(** A sanitized slide: [{ id, title, description, image, alt }]. *)
Record CarouselSlide := {
  id : string;
  title : string;
  description : string;
  image : string;
  alt : string
}.

Definition fallback : CarouselSlide :=
  {| id := "fallback";
     title := "Unavailable";
     description := "Content could not be loaded.";
     image := "/images/placeholder.jpg";
     alt := "Placeholder image" |}.

(** [typeof v === 'string' && v.trim()]: the string when [v] is a string
    that is not blank. *)
Definition nonblank (v : JsValue) : option string :=
  match v with
  | JStr s => if String.eqb (trim s) "" then None else Some s
  | _ => None
  end.

(** The filter predicate [s && typeof s === 'object']. *)
Definition keep (s : JsValue) : bool :=
  truthy s && String.eqb (typeof s) "object".

(** The body of the [map] callback. *)
Definition sanitize (idx : nat) (s : JsValue) : CarouselSlide :=
  let id :=
    match nonblank (get s "id") with
    | Some x => x
    | None => "slide-" +:+ pretty idx
    end in
  let title :=
    match nonblank (get s "title") with
    | Some x => trim x
    | None => "Untitled"
    end in
  let description :=
    match nonblank (get s "description") with
    | Some x => trim x
    | None => "No description provided."
    end in
  let image :=
    match nonblank (get s "image") with
    | Some x => trim x
    | None => "/images/placeholder.jpg"
    end in
  let alt :=
    match nonblank (get s "alt") with
    | Some x => trim x
    | None => title +:+ " image"
    end in
  {| id := id; title := title; description := description; image := image; alt := alt |}.

Definition validateSlides (items : JsValue) : list CarouselSlide :=
  match items with
  | JArr l => imap sanitize (List.filter keep l)
  | _ => [fallback]
  end.

(** The literal of [getDefaultSlides]. *)
Definition slide_literal (i t d im a : string) : JsValue :=
  JObj [("id", JStr i); ("title", JStr t); ("description", JStr d);
        ("image", JStr im); ("alt", JStr a)].

Definition getDefaultSlides : list CarouselSlide :=
  validateSlides (JArr [
    slide_literal "desktop" "Desktop Solutions"
      "High-performance workstations tailored for business."
      "/images/desktop.jpg" "Desktop workstation";
    slide_literal "laptop" "Laptop Fleet"
      "Lightweight, powerful laptops for mobility and productivity."
      "/images/laptop.jpg" "Modern laptop";
    slide_literal "security" "Security Services"
      "Protect your assets with proactive monitoring and response."
      "/images/security.jpg" "Cybersecurity concept";
    slide_literal "networking" "Networking"
      "Reliable, scalable networks for seamless connectivity."
      "/images/networking.jpg" "Network cables and switches" ]).

(** Every field of a slide is a string that is not empty. *)
Definition wellFormed (s : CarouselSlide) : Prop :=
  id s <> "" /\ title s <> "" /\ description s <> "" /\ image s <> "" /\ alt s <> "".

(** *** What trimming and defaulting mean *)

(** The bytes of a string, given by their values. *)
Definition utf8 (codes : list N) : string :=
  fold_right (fun c s => String (ascii_of_N c) s) EmptyString codes.

(** The white space characters of ECMAScript, each in UTF-8. *)
Definition white_space : list string :=
  List.map utf8
    [ [9]; [10]; [11]; [12]; [13]; [32]; [194; 160]; [225; 154; 128];
      [226; 128; 128]; [226; 128; 129]; [226; 128; 130]; [226; 128; 131];
      [226; 128; 132]; [226; 128; 133]; [226; 128; 134]; [226; 128; 135];
      [226; 128; 136]; [226; 128; 137]; [226; 128; 138];
      [226; 128; 168]; [226; 128; 169]; [226; 128; 175];
      [226; 129; 159]; [227; 128; 128]; [239; 187; 191] ]%N.

(** A blank string: white space characters and nothing else. *)
Inductive blank : string -> Prop :=
| blank_empty : blank ""
| blank_more (c s : string) : In c white_space -> blank s -> blank (c +:+ s).

(** A string that is not empty and neither starts nor ends with a white
    space character. *)
Definition tight (m : string) : Prop :=
  m <> "" /\
  (forall c rest, In c white_space -> m <> c +:+ rest) /\
  (forall c rest, In c white_space -> m <> rest +:+ c).

(** [m] is [x] without a blank head and a blank tail. *)
Definition trimmedFrom (x m : string) : Prop :=
  exists l r, x = l +:+ m +:+ r /\ blank l /\ blank r.

(** What a field of a sanitized slide must be, from the value the input
    has for it: a string that is not blank is kept, without the white
    space at its two ends; anything else (no value, a value that is not
    a string, a blank string) gives the default. *)
Definition fieldSpec (given : JsValue) (dflt out : string) : Prop :=
  match given with
  | JStr x => (blank x /\ out = dflt) \/ (~ blank x /\ trimmedFrom x out /\ tight out)
  | _ => out = dflt
  end.

(** The same for the id, which is kept as it is given. *)
Definition idSpec (given : JsValue) (dflt out : string) : Prop :=
  match given with
  | JStr x => (blank x /\ out = dflt) \/ (~ blank x /\ out = x)
  | _ => out = dflt
  end.

(** What the slide made from element [o], the one at position [idx]
    among the elements kept, must be. *)
Definition slideSpec (idx : nat) (o : JsValue) (s : CarouselSlide) : Prop :=
  idSpec (get o "id") ("slide-" +:+ pretty idx) (id s) /\
  fieldSpec (get o "title") "Untitled" (title s) /\
  fieldSpec (get o "description") "No description provided." (description s) /\
  fieldSpec (get o "image") "/images/placeholder.jpg" (image s) /\
  fieldSpec (get o "alt") (title s +:+ " image") (alt s).

(** *** Sanitized slides as input *)

(** A slide as a JavaScript object, with its five fields. *)
Definition toJs (s : CarouselSlide) : JsValue :=
  slide_literal (id s) (title s) (description s) (image s) (alt s).

(** A slide in normal form: its id is not blank, and its other fields
    are not empty and have no white space at either end. *)
Definition clean (s : CarouselSlide) : Prop :=
  ~ blank (id s) /\ tight (title s) /\ tight (description s) /\
  tight (image s) /\ tight (alt s).

(** The last byte of a string. *)
Fixpoint last_byte (s : string) : option ascii :=
  match s with
  | EmptyString => None
  | String a rest =>
      match last_byte rest with
      | Some b => Some b
      | None => Some a
      end
  end.

End Slides.

(* ===================================================================== *)
(** ** The autoplay carousel (components/Carousel/Carousel.tsx)           *)
(* ===================================================================== *)

Module Tsx.
Import Audit.

(** [Slide]. *)
Record Slide := {
  id : string;
  title : string;
  caption : option string;
  imageSrc : string;
  alt : string
}.

(** [AutoplayConfig]: both fields are optional. *)
Record AutoplayConfig := {
  enabled : option bool;
  intervalMs : option Z
}.

(** The default of the [autoplay] prop. *)
Definition default_autoplay : AutoplayConfig :=
  {| enabled := Some true; intervalMs := Some 4000 |}.

(** The two errors the validation at the top of [Carousel] throws: the
    slides are missing or empty; the autoplay interval is not positive
    while autoplay is enabled. *)
Inductive InvalidConfiguration :=
| SlidesRequired
| IntervalNotPositive.

(** The validation at the top of [Carousel]. *)
Definition validate (slides : list Slide) (autoplay : AutoplayConfig)
    : option InvalidConfiguration :=
  if (length slides =? 0)%nat then Some SlidesRequired
  else
    match enabled autoplay, intervalMs autoplay with
    | Some true, Some ms => if ms <=? 0 then Some IntervalNotPositive else None
    | _, _ => None
    end.

(** The cause of a slide change. *)
Inductive Cause := Auto | Arrow | Dot | Swipe | Kbd.

Definition cause_name (c : Cause) : string :=
  match c with
  | Auto => "auto"
  | Arrow => "arrow"
  | Dot => "dot"
  | Swipe => "swipe"
  | Kbd => "kbd"
  end.

(** The variables the [useSwipe] effect closes over. *)
Record SwipeState := {
  startX : Z;
  startY : Z;
  tracking : bool
}.

Definition fresh_swipe : SwipeState :=
  {| startX := 0; startY := 0; tracking := false |}.

(** One mounted carousel and the part of the browser it talks to, as a
    production build runs it (the double invocation of updaters and
    effects that Strict Mode adds in development builds is left out). *)
Record World := {
  (* props; [autoplay] after its default *)
  slides : list Slide;
  autoplay : AutoplayConfig;
  (* React state *)
  activeIndex : Z;
  isPaused : bool;
  imageErrors : gmap string bool;
  reduced : bool;
  (* refs and effect bookkeeping *)
  timerRef : option Z;
  (** The cleanup function the autoplay effect returned last, with the
      [activeIndex] it closed over; [None] when it returned early. *)
  cleanup : option Z;
  swipe : SwipeState;
  (* browser *)
  (** The [imageErrors] the slides of the document were rendered from:
      those of the last render that took them up. *)
  shown : gmap string bool;
  (** Pending timeouts: timer id to the [activeIndex] its callback
      [() => next('auto')] closed over. *)
  timers : gmap Z Z;
  nextTimerId : Z;
  mounted : bool;
  console : list AuditEvent
}.

Definition set_autoplay (v : AutoplayConfig) (w : World) : World :=
  {| slides := slides w; autoplay := v; activeIndex := activeIndex w;
     isPaused := isPaused w; imageErrors := imageErrors w;
     reduced := reduced w; timerRef := timerRef w; cleanup := cleanup w;
     swipe := swipe w; shown := shown w; timers := timers w; nextTimerId := nextTimerId w;
     mounted := mounted w; console := console w |}.

Definition set_activeIndex (v : Z) (w : World) : World :=
  {| slides := slides w; autoplay := autoplay w; activeIndex := v;
     isPaused := isPaused w; imageErrors := imageErrors w;
     reduced := reduced w; timerRef := timerRef w; cleanup := cleanup w;
     swipe := swipe w; shown := shown w; timers := timers w; nextTimerId := nextTimerId w;
     mounted := mounted w; console := console w |}.

Definition set_isPaused (v : bool) (w : World) : World :=
  {| slides := slides w; autoplay := autoplay w;
     activeIndex := activeIndex w; isPaused := v;
     imageErrors := imageErrors w; reduced := reduced w;
     timerRef := timerRef w; cleanup := cleanup w; swipe := swipe w;
     shown := shown w; timers := timers w; nextTimerId := nextTimerId w; mounted := mounted w;
     console := console w |}.

Definition set_imageErrors (v : gmap string bool) (w : World) : World :=
  {| slides := slides w; autoplay := autoplay w;
     activeIndex := activeIndex w; isPaused := isPaused w; imageErrors := v;
     reduced := reduced w; timerRef := timerRef w; cleanup := cleanup w;
     swipe := swipe w; shown := shown w; timers := timers w; nextTimerId := nextTimerId w;
     mounted := mounted w; console := console w |}.

Definition set_reduced (v : bool) (w : World) : World :=
  {| slides := slides w; autoplay := autoplay w;
     activeIndex := activeIndex w; isPaused := isPaused w;
     imageErrors := imageErrors w; reduced := v; timerRef := timerRef w;
     cleanup := cleanup w; swipe := swipe w; shown := shown w; timers := timers w;
     nextTimerId := nextTimerId w; mounted := mounted w;
     console := console w |}.

Definition set_timerRef (v : option Z) (w : World) : World :=
  {| slides := slides w; autoplay := autoplay w;
     activeIndex := activeIndex w; isPaused := isPaused w;
     imageErrors := imageErrors w; reduced := reduced w; timerRef := v;
     cleanup := cleanup w; swipe := swipe w; shown := shown w; timers := timers w;
     nextTimerId := nextTimerId w; mounted := mounted w;
     console := console w |}.

Definition set_cleanup (v : option Z) (w : World) : World :=
  {| slides := slides w; autoplay := autoplay w;
     activeIndex := activeIndex w; isPaused := isPaused w;
     imageErrors := imageErrors w; reduced := reduced w;
     timerRef := timerRef w; cleanup := v; swipe := swipe w;
     shown := shown w; timers := timers w; nextTimerId := nextTimerId w; mounted := mounted w;
     console := console w |}.

Definition set_swipe (v : SwipeState) (w : World) : World :=
  {| slides := slides w; autoplay := autoplay w;
     activeIndex := activeIndex w; isPaused := isPaused w;
     imageErrors := imageErrors w; reduced := reduced w;
     timerRef := timerRef w; cleanup := cleanup w; swipe := v;
     shown := shown w; timers := timers w; nextTimerId := nextTimerId w; mounted := mounted w;
     console := console w |}.

Definition set_shown (v : gmap string bool) (w : World) : World :=
  {| slides := slides w; autoplay := autoplay w;
     activeIndex := activeIndex w; isPaused := isPaused w;
     imageErrors := imageErrors w; reduced := reduced w;
     timerRef := timerRef w; cleanup := cleanup w; swipe := swipe w;
     shown := v; timers := timers w; nextTimerId := nextTimerId w;
     mounted := mounted w; console := console w |}.

Definition set_timers (v : gmap Z Z) (w : World) : World :=
  {| slides := slides w; autoplay := autoplay w;
     activeIndex := activeIndex w; isPaused := isPaused w;
     imageErrors := imageErrors w; reduced := reduced w;
     timerRef := timerRef w; cleanup := cleanup w; swipe := swipe w;
     shown := shown w; timers := v; nextTimerId := nextTimerId w; mounted := mounted w;
     console := console w |}.

Definition set_nextTimerId (v : Z) (w : World) : World :=
  {| slides := slides w; autoplay := autoplay w;
     activeIndex := activeIndex w; isPaused := isPaused w;
     imageErrors := imageErrors w; reduced := reduced w;
     timerRef := timerRef w; cleanup := cleanup w; swipe := swipe w;
     shown := shown w; timers := timers w; nextTimerId := v; mounted := mounted w;
     console := console w |}.

Definition set_mounted (v : bool) (w : World) : World :=
  {| slides := slides w; autoplay := autoplay w;
     activeIndex := activeIndex w; isPaused := isPaused w;
     imageErrors := imageErrors w; reduced := reduced w;
     timerRef := timerRef w; cleanup := cleanup w; swipe := swipe w;
     shown := shown w; timers := timers w; nextTimerId := nextTimerId w; mounted := v;
     console := console w |}.

Definition set_console (v : list AuditEvent) (w : World) : World :=
  {| slides := slides w; autoplay := autoplay w;
     activeIndex := activeIndex w; isPaused := isPaused w;
     imageErrors := imageErrors w; reduced := reduced w;
     timerRef := timerRef w; cleanup := cleanup w; swipe := swipe w;
     shown := shown w; timers := timers w; nextTimerId := nextTimerId w; mounted := mounted w;
     console := v |}.

Definition total (w : World) : Z := Z.of_nat (length (slides w)).

Definition logUI (name : string) (act : AuditAction) (md : Metadata) (w : World) : World :=
  set_console (logUIEvent name act md (console w)) w.

(** [cfg.enabled]: [!!autoplay?.enabled && !prefersReducedMotion]. *)
Definition cfg_enabled (w : World) : bool :=
  match enabled (autoplay w) with
  | Some true => negb (reduced w)
  | _ => false
  end.

(** [cfg.interval]: [Math.max(1, autoplay?.intervalMs ?? 4000)]. *)
Definition cfg_interval (w : World) : Z :=
  Z.max 1 (default 4000 (intervalMs (autoplay w))).

(** [clampIndex]. *)
Definition clampIndex (total index : Z) : Z :=
  if index <? 0 then total - 1
  else if index >=? total then 0
  else index.

(** [goTo]: the updater passed to [setActiveIndex] logs the change when
    the previous index differs and returns the new index. *)
Definition goTo (index : Z) (cause : Cause) (w : World) : World :=
  let next := clampIndex (total w) index in
  let prev := activeIndex w in
  let w1 :=
    if negb (prev =? next)
    then logUI "carousel_slide_change" NAVIGATE
           [("from", MNum prev); ("to", MNum next); ("cause", MStr (cause_name cause))] w
    else w in
  set_activeIndex next w1.

Definition next (cause : Cause) (w : World) : World :=
  goTo (activeIndex w + 1) cause w.

Definition prev (cause : Cause) (w : World) : World :=
  goTo (activeIndex w - 1) cause w.

(** [handleHover] and [handleFocus]. *)
Definition handleHover (pause : bool) (w : World) : World :=
  logUI (if pause then "carousel_hover_pause" else "carousel_hover_resume") READ
    [("pause", MBool pause)] (set_isPaused pause w).

Definition handleFocus (pause : bool) (w : World) : World :=
  logUI (if pause then "carousel_focus_pause" else "carousel_focus_resume") READ
    [("pause", MBool pause)] (set_isPaused pause w).

(** [onKeyDown]. *)
Definition onKeyDown (key : string) (w : World) : World :=
  if String.eqb key "ArrowRight" then next Kbd w
  else if String.eqb key "ArrowLeft" then prev Kbd w
  else w.

(** The click handlers of the two arrow buttons and of indicator [i]. *)
Definition onPrevClick (w : World) : World :=
  logUI "carousel_prev_click" READ [("index", MNum (activeIndex w))] (prev Arrow w).

Definition onNextClick (w : World) : World :=
  logUI "carousel_next_click" READ [("index", MNum (activeIndex w))] (next Arrow w).

Definition onDotClick (i : Z) (w : World) : World :=
  logUI "carousel_indicator_click" READ [("to", MNum i)] (goTo i Dot w).

(** [onImageError]. *)
Definition onImageError (slideId : string) (w : World) : World :=
  logUI "carousel_image_error" ERROR [("slideId", MStr slideId)]
    (set_imageErrors (<[slideId := true]> (imageErrors w)) w).

(** [imageErrors] is a plain object: [{}] at first, then copies with
    one more property of its own set to true.  A name it has no property
    for is looked up in [Object.prototype], whose members are functions
    (an object for [__proto__]), all truthy. *)
Definition object_prototype_names : list string :=
  [ "constructor"; "hasOwnProperty"; "isPrototypeOf"; "propertyIsEnumerable";
    "toLocaleString"; "toString"; "valueOf"; "__proto__";
    "__defineGetter__"; "__defineSetter__"; "__lookupGetter__"; "__lookupSetter__" ].

Definition inherited (name : string) : bool :=
  existsb (String.eqb name) object_prototype_names.

(** [errors[slideId]], as a condition. *)
Definition marked (errors : gmap string bool) (slideId : string) : bool :=
  match errors !! slideId with
  | Some b => b
  | None => inherited slideId
  end.

(** [imageErrors[slide.id]], as a condition. *)
Definition hasError (w : World) (s : Slide) : bool :=
  marked (imageErrors w) (id s).

(** What a slide shows: the image element, which carries the [onError]
    handler, or the fallback block, which carries none. *)
Inductive Media :=
| Img (src alt : string)
| FallbackBlock (label : string).

Definition renderMedia (w : World) (s : Slide) : Media :=
  if hasError w s then FallbackBlock (title s) else Img (imageSrc s) (alt s).

(** What the document shows for a slide: what the last render that took
    up [imageErrors] made of it. *)
Definition shownMedia (w : World) (s : Slide) : Media :=
  renderMedia (set_imageErrors (shown w) w) s.

(** *** The touch swipe recogniser ([useSwipe]) *)

(** The default of the [threshold] parameter; [Carousel] passes none. *)
Definition swipe_threshold : Z := 30.

Inductive SwipeAction := SwipeLeft | SwipeRight | NoSwipe.

(** The test of [onTouchEnd] on the two deltas. *)
Definition swipeAction (threshold dx dy : Z) : SwipeAction :=
  if (Z.abs dx >? Z.abs dy) && (Z.abs dx >? threshold)
  then if dx <? 0 then SwipeLeft else SwipeRight
  else NoSwipe.

(** [handlers.onTouchStart] and [handlers.onTouchEnd] as [Carousel]
    passes them. *)
Definition touchPause (w : World) : World :=
  if cfg_enabled w
  then logUI "carousel_touch_pause" READ [] (set_isPaused true w)
  else w.

Definition touchResume (w : World) : World :=
  if cfg_enabled w
  then logUI "carousel_touch_resume" READ [] (set_isPaused false w)
  else w.

Definition stop_tracking (s : SwipeState) : SwipeState :=
  {| startX := startX s; startY := startY s; tracking := false |}.

(** The [touchstart] listener, for a touch at [(x, y)]. *)
Definition onTouchStart (x y : Z) (w : World) : World :=
  set_swipe {| startX := x; startY := y; tracking := true |} (touchPause w).

(** The [touchend] listener, for a touch released at [(x, y)]; the
    [finally] block clears [tracking] on every path. *)
Definition onTouchEnd (x y : Z) (w : World) : World :=
  let w' :=
    if tracking (swipe w) then
      let dx := x - startX (swipe w) in
      let dy := y - startY (swipe w) in
      let w1 :=
        match swipeAction swipe_threshold dx dy with
        | SwipeLeft => next Swipe w
        | SwipeRight => prev Swipe w
        | NoSwipe => w
        end in
      touchResume w1
    else w in
  set_swipe (stop_tracking (swipe w')) w'.

(** *** Effects *)

(** The audit effect on the initial autoplay state. *)
Definition initEffect (w : World) : World :=
  if cfg_enabled w
  then logUI "carousel_autoplay_init" INFO
         [("enabled", MBool true); ("intervalMs", MNum (cfg_interval w))] w
  else logUI "carousel_autoplay_init" INFO
         [("enabled", MBool false);
          ("reason", MStr (if reduced w then "prefers-reduced-motion"
                           else "disabled-config"))] w.

(** The body of the autoplay effect.  It returns early, without a
    cleanup function, when autoplay is off or paused; otherwise it arms a
    one-shot timer whose callback is [() => next('auto')], stores its id
    in [timerRef] and returns the cleanup function.  [window.setTimeout]
    hands out the next id of the browser. *)
Definition autoplayEffect (w : World) : World :=
  if negb (cfg_enabled w) || isPaused w then set_cleanup None w
  else
    let tid := nextTimerId w in
    let w1 := set_nextTimerId (tid + 1) (set_timers (<[tid := activeIndex w]> (timers w)) w) in
    let w2 := set_timerRef (Some tid) w1 in
    let w3 := logUI "carousel_autoplay_start" READ
                [("index", MNum (activeIndex w)); ("intervalMs", MNum (cfg_interval w))] w2 in
    set_cleanup (Some (activeIndex w)) w3.

(** The cleanup function of the autoplay effect, when there is one:
    [if (timerRef.current) { clearTimeout; timerRef.current = null; log }]. *)
Definition autoplayCleanup (w : World) : World :=
  match cleanup w with
  | None => w
  | Some index =>
      let w1 :=
        match timerRef w with
        | Some tid =>
            if tid =? 0 then w
            else
              logUI "carousel_autoplay_stop" READ
                [("index", MNum index); ("reason", MStr "cleanup")]
                (set_timerRef None (set_timers (delete tid (timers w)) w))
        | None => w
        end in
      set_cleanup None w1
  end.

(** The dependencies of the autoplay effect changed between two renders:
    [cfg.enabled], [cfg.interval], [isPaused], [activeIndex] (and [next],
    which changes with [activeIndex]). *)
Definition autoplayDepsChanged (old new : World) : bool :=
  negb (Bool.eqb (cfg_enabled old) (cfg_enabled new))
  || negb (cfg_interval old =? cfg_interval new)
  || negb (Bool.eqb (isPaused old) (isPaused new))
  || negb (activeIndex old =? activeIndex new).

(** The dependencies of the audit effect changed. *)
Definition initDepsChanged (old new : World) : bool :=
  negb (Bool.eqb (cfg_enabled old) (cfg_enabled new))
  || negb (cfg_interval old =? cfg_interval new)
  || negb (Bool.eqb (reduced old) (reduced new)).

(** A render followed by its effects: [old] is the world the previous
    render saw, [new] the world after the state updates.  The cleanup
    functions of the effects whose dependencies changed run first, then
    the effects themselves in the order of the component.  The [useSwipe]
    effect depends on the [handlers] object, which is new in every
    render: it runs again each time, with fresh closure variables. *)
Definition commit (old new : World) : World :=
  let w1 := if autoplayDepsChanged old new then autoplayCleanup new else new in
  let w2 := if initDepsChanged old new then initEffect w1 else w1 in
  let w3 := if autoplayDepsChanged old new then autoplayEffect w2 else w2 in
  set_swipe fresh_swipe w3.

(** A state update with an equal value does not render again. *)
Definition stateChanged (old new : World) : bool :=
  negb (activeIndex old =? activeIndex new)
  || negb (Bool.eqb (isPaused old) (isPaused new))
  || negb (Bool.eqb (reduced old) (reduced new)).

Definition settle (old new : World) : World :=
  if stateChanged old new then commit old new else new.

(** *** The widget as a machine *)

(** What can happen to a carousel: the DOM events it listens to, a
    change of the reduced-motion media query, a render caused by the
    parent, which passes the [autoplay] prop again, the firing of timer
    [tid] once its delay has elapsed, the unmount, and the render React
    scheduled for a new [imageErrors].  The [error] event of an image is
    not among the events whose state updates React renders before it
    returns to the browser: the render comes later, as a step of its
    own, and other events can come before it. *)
Inductive Event :=
| Hover (pause : bool)
| Focus (pause : bool)
| KeyDown (key : string)
| ClickPrev
| ClickNext
| ClickDot (i : nat)
| TouchStart (x y : Z)
| TouchEnd (x y : Z)
| ImageError (pos : nat)
| MotionChange (matches : bool)
| ParentRender (autoplayProp : option AutoplayConfig)
| TimerFire (tid : Z)
| Unmount
| Render.

(** Unmounting runs the cleanup functions of the effects. *)
Definition unmount (w : World) : World :=
  set_mounted false (autoplayCleanup w).

(** The render of a new [imageErrors]: no dependency of the audit and
    autoplay effects changes with it; the slides of the document are
    made again. *)
Definition render (w : World) : World :=
  set_shown (imageErrors w) (commit w w).

(** An event on a mounted carousel.  Indicator [i] exists only when it
    is rendered, and the image of the slide at [pos] only while the
    document shows it: its [error] event runs [onImageError], which
    builds a new [imageErrors] object for a later render.  A render
    whose validation throws takes the carousel down: React unmounts a
    tree whose render raised. *)
Definition handle (ev : Event) (w : World) : World :=
  match ev with
  | Hover p => settle w (handleHover p w)
  | Focus p => settle w (handleFocus p w)
  | KeyDown key => settle w (onKeyDown key w)
  | ClickPrev => settle w (onPrevClick w)
  | ClickNext => settle w (onNextClick w)
  | ClickDot i =>
      if (i <? length (slides w))%nat then settle w (onDotClick (Z.of_nat i) w) else w
  | TouchStart x y => settle w (onTouchStart x y w)
  | TouchEnd x y => settle w (onTouchEnd x y w)
  | ImageError pos =>
      match slides w !! pos with
      | Some s =>
          match shownMedia w s with
          | Img _ _ => onImageError (id s) w
          | FallbackBlock _ => w
          end
      | None => w
      end
  | MotionChange b => settle w (set_reduced b w)
  | ParentRender a =>
      let autoplay := default default_autoplay a in
      match validate (slides w) autoplay with
      | Some _ => unmount w
      | None => commit w (set_autoplay autoplay w)
      end
  | TimerFire _ => w
  | Unmount => unmount w
  | Render => if decide (shown w = imageErrors w) then w else render w
  end.

(** One step.  A timer that is still pending fires whether or not the
    carousel is mounted: its callback runs [next('auto')] with the
    [activeIndex] it closed over.  Every other event reaches a mounted
    carousel only.  Apart from the image error, an event, the render of
    the state it changed and the effects of that render are one step:
    the next event finds them done. *)
Definition step (ev : Event) (w : World) : World :=
  match ev with
  | TimerFire tid =>
      match timers w !! tid with
      | Some captured =>
          let w1 := set_timers (delete tid (timers w)) w in
          let w2 := goTo (captured + 1) Auto w1 in
          if mounted w then settle w1 w2 else w2
      | None => w
      end
  | _ => if mounted w then handle ev w else w
  end.

Definition run (evs : list Event) (w : World) : World :=
  foldl (fun acc ev => step ev acc) w evs.

(** The world of a first render, before its effects. *)
Definition initial (slides : list Slide) (autoplay : AutoplayConfig) : World :=
  {| slides := slides; autoplay := autoplay;
     activeIndex := 0; isPaused := false; imageErrors := ∅; reduced := false;
     timerRef := None; cleanup := None; swipe := fresh_swipe;
     shown := ∅; timers := ∅; nextTimerId := 1; mounted := true;
     console := [] |}.

(** Mounting: the default of the [autoplay] prop, the validation, the
    first render, then the effects in order.  The effect of
    [usePrefersReducedMotion] reads the media query ([matches]) and sets
    [reduced], which renders again when it is set: with the preference
    set, the timer the first render armed is cleared by that second
    render.  The two renders are one step here: no event comes between
    them. *)
Definition mount (slides : list Slide) (autoplayProp : option AutoplayConfig)
    (matches : bool) : InvalidConfiguration + World :=
  let autoplay := default default_autoplay autoplayProp in
  match validate slides autoplay with
  | Some e => inl e
  | None =>
      let w0 := initial slides autoplay in
      let w1 := autoplayEffect (initEffect w0) in
      inr (settle w1 (set_reduced matches w1))
  end.

(** The worlds a run of the widget can be in. *)
Definition reachable (w : World) : Prop :=
  exists slides autoplayProp matches w0 evs,
    mount slides autoplayProp matches = inr w0 /\ w = run evs w0.

(** The events of a given name in a console output. *)
Definition eventsNamed (name : string) (out : list AuditEvent) : list AuditEvent :=
  List.filter (fun e => String.eqb (eventName e) name) out.

(** *** Invariants of the machine *)

(** What every pending timer satisfies between two events: it is the
    timer [timerRef] names, the autoplay effect left a cleanup function,
    the carousel is mounted, autoplay is on and not paused, and the
    callback closed over the current [activeIndex]. *)
Definition timerInv (w : World) : Prop :=
  0 < nextTimerId w /\
  forall (tid c : Z), timers w !! tid = Some c ->
    timerRef w = Some tid /\ is_Some (cleanup w) /\ 0 < tid /\
    mounted w = true /\ c = activeIndex w /\
    cfg_enabled w = true /\ isPaused w = false.

(** The part of [timerInv] that survives the state updates of a handler,
    before the next render. *)
Definition timerShape (w : World) : Prop :=
  0 < nextTimerId w /\
  forall (tid c : Z), timers w !! tid = Some c ->
    timerRef w = Some tid /\ is_Some (cleanup w) /\ 0 < tid.

(** [w'] has the [autoplay] prop, the timers, the refs and the effect
    bookkeeping of [w]. *)
Definition sameTimers (w w' : World) : Prop :=
  autoplay w' = autoplay w /\
  timers w' = timers w /\ timerRef w' = timerRef w /\
  cleanup w' = cleanup w /\ nextTimerId w' = nextTimerId w /\
  mounted w' = mounted w.

(** The event [onImageError] writes for slide id [slideId]. *)
Definition isImageErrorFor (slideId : string) (e : AuditEvent) : bool :=
  String.eqb (eventName e) "carousel_image_error"
  && match metadata e with
     | [(_, MStr s)] => String.eqb s slideId
     | _ => false
     end.

(** The image error events for [slideId] in a console output. *)
Definition imageErrorsFor (slideId : string) (out : list AuditEvent) : list AuditEvent :=
  List.filter (isImageErrorFor slideId) out.

(** [w'] has the [imageErrors] of [w], shows the same slides and has no
    further image error event. *)
Definition quiet (w w' : World) : Prop :=
  imageErrors w' = imageErrors w /\ shown w' = shown w /\
  forall slideId, imageErrorsFor slideId (console w') = imageErrorsFor slideId (console w).

(** An image error event is written only for an id that [imageErrors]
    marks, and the document shows the fallback block only for a slide
    that [imageErrors] marks. *)
Definition errorInv (w : World) : Prop :=
  forall slideId,
    (imageErrorsFor slideId (console w) <> [] -> imageErrors w !! slideId = Some true) /\
    (marked (shown w) slideId = true -> marked (imageErrors w) slideId = true).

(** *** The handlers over a console that may raise *)

Definition logUI_on (c : Console) (name : string) (act : AuditAction) (md : Metadata)
    (w : World) : outcome World :=
  bind (logUIEvent_on c name act md)
       (fun evt => Returned (set_console (console w ++ [evt]) w)).

(** A state update [goTo] has queued: [setActiveIndex] was handed an
    updater that closes over the clamped index and the cause.  React
    calls the updater when it computes the state; the call of [goTo] is
    over by then. *)
Record Queued := {
  q_next : Z;
  q_cause : Cause
}.

(** The updater of [goTo], as React runs it on the current state: it
    calls [logUIEvent] with no guard around it, then returns the index. *)
Definition goToUpdater_on (c : Console) (q : Queued) (w : World) : outcome World :=
  let next := q_next q in
  let prev := activeIndex w in
  bind
    (if negb (prev =? next)
     then logUI_on c "carousel_slide_change" NAVIGATE
            [("from", MNum prev); ("to", MNum next);
             ("cause", MStr (cause_name (q_cause q)))] w
     else Returned w)
    (fun w1 => Returned (set_activeIndex next w1)).

(** [goTo] itself: it clamps the index and hands the updater to
    [setActiveIndex]; nothing in its own body touches the console. *)
Definition goTo_on (c : Console) (index : Z) (cause : Cause) (w : World)
    : outcome Queued :=
  Returned {| q_next := clampIndex (total w) index; q_cause := cause |}.

Definition next_on (c : Console) (cause : Cause) (w : World) : outcome Queued :=
  goTo_on c (activeIndex w + 1) cause w.

Definition prev_on (c : Console) (cause : Cause) (w : World) : outcome Queued :=
  goTo_on c (activeIndex w - 1) cause w.

(** [handleHover], [handleFocus] and [onImageError] have no try/catch:
    they set the state, then call [logUIEvent]. *)
Definition handleHover_on (c : Console) (pause : bool) (w : World) : outcome World :=
  logUI_on c (if pause then "carousel_hover_pause" else "carousel_hover_resume") READ
    [("pause", MBool pause)] (set_isPaused pause w).

Definition handleFocus_on (c : Console) (pause : bool) (w : World) : outcome World :=
  logUI_on c (if pause then "carousel_focus_pause" else "carousel_focus_resume") READ
    [("pause", MBool pause)] (set_isPaused pause w).

Definition onImageError_on (c : Console) (slideId : string) (w : World) : outcome World :=
  logUI_on c "carousel_image_error" ERROR [("slideId", MStr slideId)]
    (set_imageErrors (<[slideId := true]> (imageErrors w)) w).

(** [onKeyDown] has a try/catch around [next] and [prev], and its catch
    block reports through [logUIEvent].  It returns the world as the
    handler leaves it and the update it queued, if any. *)
Definition onKeyDown_on (c : Console) (key : string) (w : World)
    : outcome (World * option Queued) :=
  try_catch
    (if String.eqb key "ArrowRight"
     then bind (next_on c Kbd w) (fun q => Returned (w, Some q))
     else if String.eqb key "ArrowLeft"
     then bind (prev_on c Kbd w) (fun q => Returned (w, Some q))
     else Returned (w, None))
    (fun msg =>
       bind (logUI_on c "carousel_kbd_error" ERROR [("message", MStr msg)] w)
            (fun w' => Returned (w', None))).

(** What React does once a handler has returned: it runs the updater
    the handler queued. *)
Definition flush_on (c : Console) (r : World * option Queued) : outcome World :=
  match snd r with
  | Some q => goToUpdater_on c q (fst r)
  | None => Returned (fst r)
  end.

(** *** What the carousel renders besides the slides *)


(** *** Reading the audit trail back *)

(** Following the slide change events of a console output from index
    [index]: each must start at the index reached so far and end at
    another one; the result is the index reached at the end. *)
Fixpoint replay (index : Z) (out : list AuditEvent) : option Z :=
  match out with
  | [] => Some index
  | e :: rest =>
      if String.eqb (eventName e) "carousel_slide_change" then
        match metadata e with
        | [(_, MNum a); (_, MNum b); _] =>
            if (a =? index) && negb (b =? a) then replay b rest else None
        | _ => None
        end
      else replay index rest
  end.

(** [w'] has the slides of [w], an index that is the one of [w] or one
    [clampIndex] returned, and the console of [w] followed by events
    that lead from the index of [w] to its own. *)
Definition advances (w w' : World) : Prop :=
  slides w' = slides w /\
  (activeIndex w' = activeIndex w \/
   exists i, activeIndex w' = clampIndex (total w) i) /\
  exists l, console w' = console w ++ l /\
            replay (activeIndex w) l = Some (activeIndex w').

(** [w'] has the autoplay start and stop events of [w] and no other. *)
Definition calm (w w' : World) : Prop :=
  eventsNamed "carousel_autoplay_start" (console w')
  = eventsNamed "carousel_autoplay_start" (console w) /\
  eventsNamed "carousel_autoplay_stop" (console w')
  = eventsNamed "carousel_autoplay_stop" (console w).

(** What every handler of the carousel does to the world: it leaves the
    autoplay prop, the timers and the effect bookkeeping alone, writes no
    autoplay event and extends the audit trail consistently. *)
Definition handlerOK (w w' : World) : Prop :=
  sameTimers w w' /\ calm w w' /\ advances w w'.

(** [w'] differs from [w] in what neither the effects nor the timers
    read (the image error marks, the slides of the document, the swipe
    state) and in further events that are neither slide changes nor
    autoplay events. *)
Definition inert (w w' : World) : Prop :=
  handlerOK w w' /\ activeIndex w' = activeIndex w /\
  isPaused w' = isPaused w /\ reduced w' = reduced w.

(** The configuration is valid and the index is one of the collection. *)
Definition validInv (w : World) : Prop :=
  validate (slides w) (autoplay w) = None /\
  0 <= activeIndex w < total w.

(** The slide change events lead from slide 0 to the active slide. *)
Definition replayInv (w : World) : Prop :=
  replay 0 (console w) = Some (activeIndex w).

(** With two slides or more, a mounted carousel whose autoplay is on
    and not paused has a timer pending. *)
Definition liveInv (w : World) : Prop :=
  2 <= total w -> mounted w = true -> cfg_enabled w = true -> isPaused w = false ->
  exists tid, timers w !! tid = Some (activeIndex w).

(** Autoplay starts and stops pair up: there is one start more than
    stops exactly while [timerRef] names a timer, which it does not once
    the carousel is unmounted. *)
Definition balanceInv (w : World) : Prop :=
  (timerRef w = None <-> cleanup w = None) /\
  (forall tid, timerRef w = Some tid -> 0 < tid) /\
  (mounted w = false -> timerRef w = None) /\
  length (eventsNamed "carousel_autoplay_start" (console w))
  = (length (eventsNamed "carousel_autoplay_stop" (console w))
     + match timerRef w with Some _ => 1 | None => 0 end)%nat.

End Tsx.

(* ===================================================================== *)
(** ** The pixel-drag carousel (components/Carousel.jsx)                  *)
(* ===================================================================== *)

Module Jsx.
Import Audit.

(** A [startIndex] prop: a finite number, or a value on which
    [Number.isFinite] is false (NaN, an infinity). *)
Inductive JsNumber :=
| Finite (z : Z)
| NotFinite.

(** The initial value of the [activeIndex] state. *)
Definition initialIndex (len : nat) (startIndex : JsNumber) : Z :=
  match startIndex with
  | Finite z => if (z >=? 0) && (z <? Z.of_nat len) then z else 0
  | NotFinite => 0
  end.

(** [posRef.current]. *)
Record PosRef := {
  startX : Z;
  currentX : Z;
  isDragging : bool;
  startTranslate : Z
}.

(** One mounted carousel.  [slideWidth] is what [getSlideWidth] measures
    in the layout, [trackX] the horizontal translation last applied to
    the track, [frame] the translation that the animation frame callback
    requested last will apply, when it has not run yet ([animRef]),
    [slideError] the [error] state of each [CarouselSlide]. *)
Record World := {
  slides : list Slides.CarouselSlide;
  userId : string;
  activeIndex : Z;
  pos : PosRef;
  slideWidth : Z;
  trackX : Z;
  frame : option Z;
  slideError : list bool;
  console : list JsAuditEvent
}.

Definition set_activeIndex (v : Z) (w : World) : World :=
  {| slides := slides w; userId := userId w; activeIndex := v; pos := pos w;
     slideWidth := slideWidth w; trackX := trackX w;
     frame := frame w;
     slideError := slideError w; console := console w |}.

Definition set_pos (v : PosRef) (w : World) : World :=
  {| slides := slides w; userId := userId w; activeIndex := activeIndex w;
     pos := v; slideWidth := slideWidth w; trackX := trackX w;
     frame := frame w;
     slideError := slideError w; console := console w |}.

Definition set_trackX (v : Z) (w : World) : World :=
  {| slides := slides w; userId := userId w; activeIndex := activeIndex w;
     pos := pos w; slideWidth := slideWidth w; trackX := v;
     frame := frame w;
     slideError := slideError w; console := console w |}.

Definition set_frame (v : option Z) (w : World) : World :=
  {| slides := slides w; userId := userId w; activeIndex := activeIndex w;
     pos := pos w; slideWidth := slideWidth w; trackX := trackX w;
     frame := v; slideError := slideError w; console := console w |}.

Definition set_slideError (v : list bool) (w : World) : World :=
  {| slides := slides w; userId := userId w; activeIndex := activeIndex w;
     pos := pos w; slideWidth := slideWidth w; trackX := trackX w;
     frame := frame w;
     slideError := v; console := console w |}.

Definition set_console (v : list JsAuditEvent) (w : World) : World :=
  {| slides := slides w; userId := userId w; activeIndex := activeIndex w;
     pos := pos w; slideWidth := slideWidth w; trackX := trackX w;
     frame := frame w;
     slideError := slideError w; console := v |}.

Definition total (w : World) : Z := Z.of_nat (length (slides w)).

(** [clampIndex]: [Math.max(0, Math.min(idx, slides.length - 1))]. *)
Definition clampIndex (total idx : Z) : Z :=
  Z.max 0 (Z.min idx (total - 1)).

(** [goTo]. *)
Definition goTo (nextIdx : Z) (w : World) : World :=
  let prev := activeIndex w in
  let clamped := clampIndex (total w) nextIdx in
  let w1 :=
    if negb (clamped =? prev)
    then set_console (logSlideChange prev clamped (total w) (userId w) (console w)) w
    else w in
  set_activeIndex clamped w1.

Definition next (w : World) : World := goTo (activeIndex w + 1) w.
Definition prev (w : World) : World := goTo (activeIndex w - 1) w.

(** The updater [goTo] hands to [setActiveIndex], as React runs it on
    the current state, over a console that may raise: [logSlideChange]
    goes through [logAuditEvent], which catches. *)
Definition goToUpdater_on (c : Console) (nextIdx : Z) (w : World) : outcome World :=
  let prev := activeIndex w in
  let clamped := clampIndex (total w) nextIdx in
  bind
    (if negb (clamped =? prev)
     then bind (logSlideChange_on c prev clamped (total w) (userId w) (console w))
               (fun out => Returned (set_console out w))
     else Returned w)
    (fun w1 => Returned (set_activeIndex clamped w1)).

(** [goTo] itself only queues the updater, which closes over the index
    it was called with. *)
Definition goTo_on (c : Console) (nextIdx : Z) (w : World) : outcome Z :=
  Returned nextIdx.

(** The translation that aligns the track to the active slide; the gap
    is 32 pixels. *)
Definition restPosition (w : World) : Z :=
  - (activeIndex w * (slideWidth w + 32)).

(** The effect that aligns the track runs when [activeIndex] changed. *)
Definition settle (old new : World) : World :=
  if negb (activeIndex old =? activeIndex new)
  then set_trackX (restPosition new) new
  else new.

(** [onKeyDown]. *)
Definition onKeyDown (key : string) (w : World) : World :=
  if String.eqb key "ArrowRight" then next w
  else if String.eqb key "ArrowLeft" then prev w
  else w.

(** [onPointerDown] with the pointer at [(x, y)]: the handler reads
    [clientX] only; the drag starts from the translation read back from
    the style of the track, which is the one applied last. *)
Definition onPointerDown (x y : Z) (w : World) : World :=
  set_pos {| startX := x; currentX := currentX (pos w); isDragging := true;
             startTranslate := trackX w |} w.

(** [onPointerMove] with the pointer at [(x, y)]; again [clientX] only.
    The translation is not applied at once: the frame requested before
    is cancelled and a new one requested. *)
Definition onPointerMove (x y : Z) (w : World) : World :=
  if isDragging (pos w) then
    let p := {| startX := startX (pos w); currentX := x; isDragging := true;
                startTranslate := startTranslate (pos w) |} in
    set_frame (Some (startTranslate p + (x - startX p))) (set_pos p w)
  else w.

(** The animation frame callback: [applyTransform(translateX)]. *)
Definition onAnimationFrame (w : World) : World :=
  match frame w with
  | Some translateX => set_frame None (set_trackX translateX w)
  | None => w
  end.

(** The outcome of a release, from the horizontal delta alone; the
    threshold is 40 pixels. *)
Inductive Release := CommitNext | CommitPrev | SnapBack.

Definition release (delta : Z) : Release :=
  if Z.abs delta >? 40
  then if delta <? 0 then CommitNext else CommitPrev
  else SnapBack.

(** [onPointerUp].  It does not cancel the frame requested by the last
    move. *)
Definition onPointerUp (w : World) : World :=
  if isDragging (pos w) then
    let p := {| startX := startX (pos w); currentX := currentX (pos w);
                isDragging := false; startTranslate := startTranslate (pos w) |} in
    let w1 := set_pos p w in
    match release (currentX p - startX p) with
    | CommitNext => next w1
    | CommitPrev => prev w1
    | SnapBack => set_trackX (restPosition w1) w1
    end
  else w.

(** components/CarouselSlide.jsx: the [onError] handler of the image of
    the slide at [pos] sets that slide's [error] state; it logs nothing. *)
Definition onSlideImageError (pos : nat) (w : World) : World :=
  set_slideError (<[pos := true]> (slideError w)) w.

(** What can happen to the pixel-drag carousel.  The Prev and Next
    buttons are disabled on the first and on the last slide; the mouse
    and touch events of the track share the three pointer handlers; the
    browser runs the animation frame callback that is pending; the
    image of a slide can fail only while it is shown. *)
Inductive Event :=
| KeyDown (key : string)
| ClickPrev
| ClickNext
| ClickDot (i : nat)
| PointerDown (x y : Z)
| PointerMove (x y : Z)
| PointerUp
| AnimationFrame
| SlideImageError (pos : nat).

Definition step (ev : Event) (w : World) : World :=
  match ev with
  | KeyDown key => settle w (onKeyDown key w)
  | ClickPrev => if activeIndex w =? 0 then w else settle w (prev w)
  | ClickNext => if activeIndex w =? total w - 1 then w else settle w (next w)
  | ClickDot i =>
      if (i <? length (slides w))%nat then settle w (goTo (Z.of_nat i) w) else w
  | PointerDown x y => onPointerDown x y w
  | PointerMove x y => onPointerMove x y w
  | PointerUp => settle w (onPointerUp w)
  | AnimationFrame => onAnimationFrame w
  | SlideImageError pos =>
      match slideError w !! pos with
      | Some false => onSlideImageError pos w
      | _ => w
      end
  end.

Definition run (evs : list Event) (w : World) : World :=
  foldl (fun acc ev => step ev acc) w evs.

(** The first render and the effect that aligns the track. *)
Definition mount (slides : list Slides.CarouselSlide) (startIndex : option JsNumber)
    (userId : option string) (slideWidth : Z) : World :=
  let idx := initialIndex (length slides) (default (Finite 0) startIndex) in
  {| slides := slides; userId := default "anonymous" userId;
     activeIndex := idx;
     pos := {| startX := 0; currentX := 0; isDragging := false; startTranslate := 0 |};
     slideWidth := slideWidth;
     trackX := - (idx * (slideWidth + 32));
     frame := None;
     slideError := replicate (length slides) false;
     console := [] |}.

(** *** Gestures *)

(** The events between the press and the release of a drag: pointer
    moves and animation frames. *)
Definition dragEvent (ev : Event) : bool :=
  match ev with
  | PointerMove _ _ | AnimationFrame => true
  | _ => false
  end.

(** The [clientX] of the last pointer move among some events, [x] when
    there is none. *)
Definition lastMoveX (evs : list Event) (x : Z) : Z :=
  foldl (fun acc ev => match ev with PointerMove x' _ => x' | _ => acc end) x evs.

End Jsx.

(* ===================================================================== *)
(** ** Sequences of navigation calls                                      *)
(* ===================================================================== *)

(** A call of [next] or of [previous]. *)
Inductive NavCall := CallNext | CallPrev.

Definition tsxNav (c : NavCall * Tsx.Cause) (w : Tsx.World) : Tsx.World :=
  match fst c with
  | CallNext => Tsx.next (snd c) w
  | CallPrev => Tsx.prev (snd c) w
  end.

Definition jsxNav (c : NavCall) (w : Jsx.World) : Jsx.World :=
  match c with
  | CallNext => Jsx.next w
  | CallPrev => Jsx.prev w
  end.

(** The worlds after each call of a sequence, in order. *)
Fixpoint tsxTrace (calls : list (NavCall * Tsx.Cause)) (w : Tsx.World) : list Tsx.World :=
  match calls with
  | [] => []
  | c :: rest => let w' := tsxNav c w in w' :: tsxTrace rest w'
  end.

Fixpoint jsxTrace (calls : list NavCall) (w : Jsx.World) : list Jsx.World :=
  match calls with
  | [] => []
  | c :: rest => let w' := jsxNav c w in w' :: jsxTrace rest w'
  end.

(** [clamp(x, lo, hi)] as the specification writes it. *)
Definition spec_clamp (x lo hi : Z) : Z := Z.max lo (Z.min x hi).

(** Three slides, and the worlds both carousels start from with them. *)
Definition demoSlide (name : string) : Tsx.Slide :=
  {| Tsx.id := name; Tsx.title := name; Tsx.caption := None;
     Tsx.imageSrc := "/images/" +:+ name +:+ ".jpg"; Tsx.alt := name |}.

Definition demoSlides : list Tsx.Slide :=
  [demoSlide "a"; demoSlide "b"; demoSlide "c"].

Definition demoTsx : Tsx.World := Tsx.initial demoSlides Tsx.default_autoplay.

Definition demoJsSlides : list Slides.CarouselSlide :=
  Slides.validateSlides (Slides.JArr [
    Slides.slide_literal "a" "A" "A desc" "/images/desktop.jpg" "";
    Slides.slide_literal "b" "B" "B desc" "/images/laptop.jpg" "";
    Slides.slide_literal "c" "C" "C desc" "/images/security.jpg" "" ]).

Definition demoJsx : Jsx.World := Jsx.mount demoJsSlides None None 300.

(** The autoplay carousel mounted on the three slides, with the default
    autoplay and no reduced-motion preference. *)
Definition demoMounted : Tsx.World :=
  match Tsx.mount demoSlides None false with
  | inr w => w
  | inl _ => demoTsx
  end.

(* ===================================================================== *)
(** ** Properties                                                         *)
(* ===================================================================== *)

Section Navigation.
Import Audit.

(** *** [clampIndex] of both carousels *)

Lemma tsx_clampIndex_range (n i : Z) :
  0 < n -> 0 <= Tsx.clampIndex n i < n.
Proof.
  intros Hn. unfold Tsx.clampIndex.
  destruct (Z.ltb_spec i 0); [lia|].
  destruct (Z.geb_spec i n); lia.
Qed.

Lemma tsx_clampIndex_cases (n i : Z) :
  (i < 0 -> Tsx.clampIndex n i = n - 1) /\
  (n <= i -> 0 <= i -> Tsx.clampIndex n i = 0) /\
  (0 <= i < n -> Tsx.clampIndex n i = i).
Proof.
  unfold Tsx.clampIndex.
  destruct (Z.ltb_spec i 0); destruct (Z.geb_spec i n); repeat split; lia.
Qed.

Lemma tsx_clampIndex_mod (n i : Z) :
  0 < n -> -1 <= i <= n -> Tsx.clampIndex n i = i mod n.
Proof.
  intros Hn Hi. unfold Tsx.clampIndex.
  destruct (Z.ltb_spec i 0).
  - assert (i = -1) as -> by lia.
    apply Z.mod_unique with (q := -1); lia.
  - destruct (Z.geb_spec i n).
    + assert (i = n) as -> by lia. now rewrite Z.mod_same by lia.
    + now rewrite Z.mod_small by lia.
Qed.

Lemma jsx_clampIndex_range (n i : Z) :
  0 < n -> 0 <= Jsx.clampIndex n i < n.
Proof. unfold Jsx.clampIndex. lia. Qed.

(** *** [goTo] of the autoplay carousel *)

Lemma tsx_goTo_total (i : Z) (c : Tsx.Cause) (w : Tsx.World) :
  Tsx.total (Tsx.goTo i c w) = Tsx.total w.
Proof. unfold Tsx.goTo. now destruct (negb _). Qed.

Lemma tsx_goTo_activeIndex (i : Z) (c : Tsx.Cause) (w : Tsx.World) :
  Tsx.activeIndex (Tsx.goTo i c w) = Tsx.clampIndex (Tsx.total w) i.
Proof. reflexivity. Qed.

Lemma tsx_goTo_same (i : Z) (c : Tsx.Cause) (w : Tsx.World) :
  Tsx.clampIndex (Tsx.total w) i = Tsx.activeIndex w -> Tsx.goTo i c w = w.
Proof.
  intros H. unfold Tsx.goTo. rewrite H, Z.eqb_refl. simpl.
  now destruct w.
Qed.

Lemma tsx_goTo_console_changed (i : Z) (c : Tsx.Cause) (w : Tsx.World) :
  Tsx.clampIndex (Tsx.total w) i <> Tsx.activeIndex w ->
  Tsx.console (Tsx.goTo i c w) =
  Tsx.console w ++
    [mkUIEvent "carousel_slide_change" NAVIGATE
       [("from", MNum (Tsx.activeIndex w));
        ("to", MNum (Tsx.clampIndex (Tsx.total w) i));
        ("cause", MStr (Tsx.cause_name c))]].
Proof.
  intros H. unfold Tsx.goTo.
  destruct (Z.eqb_spec (Tsx.activeIndex w) (Tsx.clampIndex (Tsx.total w) i)); [congruence|].
  reflexivity.
Qed.

(** *** [goTo] of the pixel-drag carousel *)

Lemma jsx_goTo_total (i : Z) (w : Jsx.World) :
  Jsx.total (Jsx.goTo i w) = Jsx.total w.
Proof. unfold Jsx.goTo. now destruct (negb _). Qed.

Lemma jsx_goTo_activeIndex (i : Z) (w : Jsx.World) :
  Jsx.activeIndex (Jsx.goTo i w) = Jsx.clampIndex (Jsx.total w) i.
Proof. reflexivity. Qed.

Lemma jsx_goTo_same (i : Z) (w : Jsx.World) :
  Jsx.clampIndex (Jsx.total w) i = Jsx.activeIndex w -> Jsx.goTo i w = w.
Proof.
  intros H. unfold Jsx.goTo. rewrite H, Z.eqb_refl. simpl.
  now destruct w.
Qed.

Lemma jsx_goTo_console_changed (i : Z) (w : Jsx.World) :
  Jsx.clampIndex (Jsx.total w) i <> Jsx.activeIndex w ->
  Jsx.console (Jsx.goTo i w) =
  Jsx.console w ++
    [createAuditEvent "INTERACT" "Carousel"
       [("interaction", MStr "slide_change");
        ("beforeIndex", MNum (Jsx.activeIndex w));
        ("afterIndex", MNum (Jsx.clampIndex (Jsx.total w) i));
        ("totalSlides", MNum (Jsx.total w))]
       (Jsx.userId w)].
Proof.
  intros H. unfold Jsx.goTo.
  destruct (Z.eqb_spec (Jsx.clampIndex (Jsx.total w) i) (Jsx.activeIndex w)); [congruence|].
  reflexivity.
Qed.

(** *** Repeated [next] *)

Lemma tsx_next_total (c : Tsx.Cause) (w : Tsx.World) :
  Tsx.total (Tsx.next c w) = Tsx.total w.
Proof. apply tsx_goTo_total. Qed.

Lemma tsx_iter_next_total (c : Tsx.Cause) (k : nat) (w : Tsx.World) :
  Tsx.total (Nat.iter k (Tsx.next c) w) = Tsx.total w.
Proof.
  induction k as [|k IH]; simpl; [reflexivity|].
  now rewrite tsx_next_total.
Qed.

Lemma tsx_iter_next_index (c : Tsx.Cause) (k : nat) (w : Tsx.World) :
  0 <= Tsx.activeIndex w < Tsx.total w ->
  Tsx.activeIndex (Nat.iter k (Tsx.next c) w)
  = (Tsx.activeIndex w + Z.of_nat k) mod Tsx.total w.
Proof.
  intros Hr. induction k as [|k IH].
  - simpl. rewrite Z.add_0_r. now rewrite Z.mod_small.
  - rewrite Nat.iter_succ. unfold Tsx.next at 1.
    rewrite tsx_goTo_activeIndex, tsx_iter_next_total, IH.
    pose proof (Z.mod_pos_bound (Tsx.activeIndex w + Z.of_nat k) (Tsx.total w)) as Hb.
    rewrite tsx_clampIndex_mod by lia.
    rewrite Zplus_mod_idemp_l. f_equal. lia.
Qed.

Lemma jsx_next_total (w : Jsx.World) : Jsx.total (Jsx.next w) = Jsx.total w.
Proof. apply jsx_goTo_total. Qed.

Lemma jsx_iter_next_total (k : nat) (w : Jsx.World) :
  Jsx.total (Nat.iter k Jsx.next w) = Jsx.total w.
Proof.
  induction k as [|k IH]; simpl; [reflexivity|].
  now rewrite jsx_next_total.
Qed.

Lemma jsx_iter_next_index (k : nat) (w : Jsx.World) :
  0 <= Jsx.activeIndex w < Jsx.total w ->
  Jsx.activeIndex (Nat.iter k Jsx.next w)
  = Z.min (Jsx.activeIndex w + Z.of_nat k) (Jsx.total w - 1).
Proof.
  intros Hr. induction k as [|k IH].
  - simpl. lia.
  - rewrite Nat.iter_succ. unfold Jsx.next at 1.
    rewrite jsx_goTo_activeIndex, jsx_iter_next_total, IH.
    unfold Jsx.clampIndex. lia.
Qed.

(** *** Traces of navigation calls *)

Lemma tsxNav_total (c : NavCall * Tsx.Cause) (w : Tsx.World) :
  Tsx.total (tsxNav c w) = Tsx.total w.
Proof. destruct c as [[] cause]; apply tsx_goTo_total. Qed.

Lemma tsxNav_range (c : NavCall * Tsx.Cause) (w : Tsx.World) :
  0 < Tsx.total w -> 0 <= Tsx.activeIndex (tsxNav c w) < Tsx.total w.
Proof.
  intros Hn. destruct c as [[] cause]; unfold tsxNav; cbn [fst snd];
    unfold Tsx.next, Tsx.prev; rewrite tsx_goTo_activeIndex;
    now apply tsx_clampIndex_range.
Qed.

Lemma tsxTrace_range (calls : list (NavCall * Tsx.Cause)) :
  forall (n : Z) (w : Tsx.World),
    Tsx.total w = n -> 0 < n ->
    Forall (fun w' => 0 <= Tsx.activeIndex w' < n) (tsxTrace calls w).
Proof.
  induction calls as [|c rest IH]; intros n w Hn Hpos; simpl.
  - constructor.
  - constructor.
    + subst n. now apply tsxNav_range.
    + apply IH; [|assumption]. now rewrite tsxNav_total.
Qed.

Lemma jsxNav_total (c : NavCall) (w : Jsx.World) :
  Jsx.total (jsxNav c w) = Jsx.total w.
Proof. destruct c; apply jsx_goTo_total. Qed.

Lemma jsxNav_range (c : NavCall) (w : Jsx.World) :
  0 < Jsx.total w -> 0 <= Jsx.activeIndex (jsxNav c w) < Jsx.total w.
Proof.
  intros Hn. destruct c; unfold jsxNav, Jsx.next, Jsx.prev;
    rewrite jsx_goTo_activeIndex; now apply jsx_clampIndex_range.
Qed.

Lemma jsxTrace_range (calls : list NavCall) :
  forall (n : Z) (w : Jsx.World),
    Jsx.total w = n -> 0 < n ->
    Forall (fun w' => 0 <= Jsx.activeIndex w' < n) (jsxTrace calls w).
Proof.
  induction calls as [|c rest IH]; intros n w Hn Hpos; simpl.
  - constructor.
  - constructor.
    + subst n. now apply jsxNav_range.
    + apply IH; [|assumption]. now rewrite jsxNav_total.
Qed.

End Navigation.

Section Gestures.
Import Audit.

(** *** The swipe test of [useSwipe] *)




Lemma touchResume_activeIndex (w : Tsx.World) :
  Tsx.activeIndex (Tsx.touchResume w) = Tsx.activeIndex w.
Proof. unfold Tsx.touchResume. now destruct (Tsx.cfg_enabled w). Qed.


(** With autoplay running, the pause of [touchstart] renders again, the
    render replaces the listeners and their closure, and the release
    finds [tracking] false: a swipe of 100 pixels moves nothing and the
    pause stays. *)
Example touch_while_autoplay_runs :
  let touched := Tsx.step (Tsx.TouchStart 200 100) demoMounted in
  Tsx.tracking (Tsx.swipe touched) = false
  /\ Tsx.activeIndex (Tsx.step (Tsx.TouchEnd 100 100) touched) = 0
  /\ Tsx.isPaused (Tsx.step (Tsx.TouchEnd 100 100) touched) = true.
Proof. repeat split. Qed.

(** The cycle of the end-to-end scenario: three slides, three clicks on
    Next, three transition events, back on slide 0. *)
Example three_clicks_on_next :
  let w := Tsx.run [Tsx.ClickNext; Tsx.ClickNext; Tsx.ClickNext] demoMounted in
  Tsx.activeIndex w = 0
  /\ List.map metadata (Tsx.eventsNamed "carousel_slide_change" (Tsx.console w))
     = [ [("from", MNum 0); ("to", MNum 1); ("cause", MStr "arrow")];
         [("from", MNum 1); ("to", MNum 2); ("cause", MStr "arrow")];
         [("from", MNum 2); ("to", MNum 0); ("cause", MStr "arrow")] ].
Proof. split; reflexivity. Qed.

(** *** The release test of the pixel-drag carousel *)

Lemma release_next (delta : Z) : Jsx.release delta = Jsx.CommitNext <-> delta < -40.
Proof.
  unfold Jsx.release.
  destruct (Z.gtb_spec (Z.abs delta) 40); destruct (Z.ltb_spec delta 0);
    split; try discriminate; try reflexivity; lia.
Qed.

Lemma release_prev (delta : Z) : Jsx.release delta = Jsx.CommitPrev <-> 40 < delta.
Proof.
  unfold Jsx.release.
  destruct (Z.gtb_spec (Z.abs delta) 40); destruct (Z.ltb_spec delta 0);
    split; try discriminate; try reflexivity; lia.
Qed.

Lemma release_snap (delta : Z) : Jsx.release delta = Jsx.SnapBack <-> -40 <= delta <= 40.
Proof.
  unfold Jsx.release.
  destruct (Z.gtb_spec (Z.abs delta) 40); destruct (Z.ltb_spec delta 0);
    split; try discriminate; try reflexivity; lia.
Qed.

(** *** A drag of the pixel-drag carousel, from press to release *)

(** Between the press and the release nothing but the pointer position,
    the pending frame and the track moves. *)
Lemma jsx_drag_run (evs : list Jsx.Event) :
  forall w : Jsx.World,
    forallb Jsx.dragEvent evs = true -> Jsx.isDragging (Jsx.pos w) = true ->
    Jsx.slides (Jsx.run evs w) = Jsx.slides w /\
    Jsx.userId (Jsx.run evs w) = Jsx.userId w /\
    Jsx.activeIndex (Jsx.run evs w) = Jsx.activeIndex w /\
    Jsx.slideWidth (Jsx.run evs w) = Jsx.slideWidth w /\
    Jsx.console (Jsx.run evs w) = Jsx.console w /\
    Jsx.isDragging (Jsx.pos (Jsx.run evs w)) = true /\
    Jsx.startX (Jsx.pos (Jsx.run evs w)) = Jsx.startX (Jsx.pos w) /\
    Jsx.currentX (Jsx.pos (Jsx.run evs w))
    = Jsx.lastMoveX evs (Jsx.currentX (Jsx.pos w)).
Proof.
  induction evs as [|ev evs IH]; intros w Hall Hd; [now repeat split|].
  simpl in Hall. apply andb_true_iff in Hall as [Hev Hall].
  change (Jsx.run (ev :: evs) w) with (Jsx.run evs (Jsx.step ev w)).
  change (Jsx.lastMoveX (ev :: evs) (Jsx.currentX (Jsx.pos w)))
    with (Jsx.lastMoveX evs
            (match ev with Jsx.PointerMove x' _ => x' | _ => Jsx.currentX (Jsx.pos w) end)).
  destruct ev; try discriminate Hev.
  - destruct (IH (Jsx.step (Jsx.PointerMove x y) w) Hall) as (H1 & H2 & H3 & H4 & H5 & H6 & H7 & H8);
      [simpl; unfold Jsx.onPointerMove; now rewrite Hd|].
    rewrite H1, H2, H3, H4, H5, H6, H7, H8. simpl. unfold Jsx.onPointerMove.
    rewrite Hd. now repeat split.
  - destruct (IH (Jsx.step Jsx.AnimationFrame w) Hall) as (H1 & H2 & H3 & H4 & H5 & H6 & H7 & H8);
      [simpl; unfold Jsx.onAnimationFrame; now destruct (Jsx.frame w)|].
    rewrite H1, H2, H3, H4, H5, H6, H7, H8. simpl. unfold Jsx.onAnimationFrame.
    destruct (Jsx.frame w); now repeat split.
Qed.

(** What [goTo] makes of the index and of the console depends on the
    slides, the user id, the index and the console only. *)
Lemma jsx_goTo_ext (i : Z) (w w' : Jsx.World) :
  Jsx.slides w' = Jsx.slides w -> Jsx.userId w' = Jsx.userId w ->
  Jsx.activeIndex w' = Jsx.activeIndex w -> Jsx.console w' = Jsx.console w ->
  Jsx.activeIndex (Jsx.goTo i w') = Jsx.activeIndex (Jsx.goTo i w) /\
  Jsx.console (Jsx.goTo i w') = Jsx.console (Jsx.goTo i w).
Proof.
  intros Hs Hu Ha Hc. unfold Jsx.goTo, Jsx.total. rewrite Hs, Hu, Ha, Hc.
  destruct (negb _); simpl; rewrite ?Hc; auto.
Qed.

Lemma jsx_settle_keeps (old new : Jsx.World) :
  Jsx.activeIndex (Jsx.settle old new) = Jsx.activeIndex new /\
  Jsx.console (Jsx.settle old new) = Jsx.console new.
Proof. unfold Jsx.settle. now destruct (negb _). Qed.

(** The press, the events of the drag, the release. *)
Lemma jsx_gesture (j : Jsx.World) (x0 y0 : Z) (during : list Jsx.Event) :
  forallb Jsx.dragEvent during = true ->
  let delta := Jsx.lastMoveX during (Jsx.currentX (Jsx.pos j)) - x0 in
  let up := Jsx.run (Jsx.PointerDown x0 y0 :: during ++ [Jsx.PointerUp]) j in
  (delta < -40 ->
   Jsx.activeIndex up = Jsx.activeIndex (Jsx.next j) /\
   Jsx.console up = Jsx.console (Jsx.next j)) /\
  (40 < delta ->
   Jsx.activeIndex up = Jsx.activeIndex (Jsx.prev j) /\
   Jsx.console up = Jsx.console (Jsx.prev j)) /\
  (-40 <= delta <= 40 ->
   Jsx.activeIndex up = Jsx.activeIndex j /\
   Jsx.console up = Jsx.console j /\
   Jsx.trackX up = Jsx.restPosition j).
Proof.
  intros Hall delta up.
  set (pressed := Jsx.onPointerDown x0 y0 j).
  set (dragged := Jsx.run during pressed).
  assert (Hup : up = Jsx.settle dragged (Jsx.onPointerUp dragged)).
  { unfold up, Jsx.run. simpl. rewrite foldl_app. reflexivity. }
  destruct (jsx_drag_run during pressed Hall eq_refl)
    as (Hs & Hu & Ha & Hw & Hc & Hd & Hsx & Hcx).
  fold dragged in Hs, Hu, Ha, Hw, Hc, Hd, Hsx, Hcx.
  change (Jsx.startX (Jsx.pos pressed)) with x0 in Hsx.
  change (Jsx.currentX (Jsx.pos pressed)) with (Jsx.currentX (Jsx.pos j)) in Hcx.
  change (Jsx.slides pressed) with (Jsx.slides j) in Hs.
  change (Jsx.userId pressed) with (Jsx.userId j) in Hu.
  change (Jsx.activeIndex pressed) with (Jsx.activeIndex j) in Ha.
  change (Jsx.slideWidth pressed) with (Jsx.slideWidth j) in Hw.
  change (Jsx.console pressed) with (Jsx.console j) in Hc.
  destruct (jsx_settle_keeps dragged (Jsx.onPointerUp dragged)) as [Hsa Hsc].
  rewrite Hup, Hsa, Hsc.
  unfold Jsx.onPointerUp. rewrite Hd. cbn [Jsx.currentX Jsx.startX].
  rewrite Hsx, Hcx. fold delta.
  set (released := Jsx.set_pos _ dragged).
  repeat split.
  - apply release_next in H. rewrite H. unfold Jsx.next.
    change (Jsx.activeIndex released) with (Jsx.activeIndex dragged). rewrite Ha.
    now apply jsx_goTo_ext.
  - apply release_next in H. rewrite H. unfold Jsx.next.
    change (Jsx.activeIndex released) with (Jsx.activeIndex dragged). rewrite Ha.
    now apply jsx_goTo_ext.
  - apply release_prev in H. rewrite H. unfold Jsx.prev.
    change (Jsx.activeIndex released) with (Jsx.activeIndex dragged). rewrite Ha.
    now apply jsx_goTo_ext.
  - apply release_prev in H. rewrite H. unfold Jsx.prev.
    change (Jsx.activeIndex released) with (Jsx.activeIndex dragged). rewrite Ha.
    now apply jsx_goTo_ext.
  - apply release_snap in H. rewrite H. exact Ha.
  - apply release_snap in H. rewrite H. exact Hc.
  - apply release_snap in H. unfold Jsx.settle. rewrite H.
    change (Jsx.activeIndex (Jsx.set_trackX _ released)) with (Jsx.activeIndex dragged).
    rewrite Z.eqb_refl. simpl. unfold Jsx.restPosition.
    change (Jsx.activeIndex released) with (Jsx.activeIndex dragged).
    change (Jsx.slideWidth released) with (Jsx.slideWidth dragged).
    now rewrite Ha, Hw.
Qed.



End Gestures.

Section Sanitizer.
Import Slides.

Lemma trim_empty : trim "" = "".
Proof. reflexivity. Qed.

Lemma nonblank_Some (v : JsValue) (x : string) :
  nonblank v = Some x -> v = JStr x /\ x <> "" /\ trim x <> "".
Proof.
  destruct v; simpl; try discriminate.
  destruct (String.eqb_spec (trim s) ""); [discriminate|].
  intros [= <-]. repeat split; [|assumption].
  intros ->. now rewrite trim_empty in n.
Qed.

Lemma append_nonempty_l (a b : string) : a <> "" -> a +:+ b <> "".
Proof. destruct a; [congruence | discriminate]. Qed.

Lemma append_nonempty_r (a b : string) : b <> "" -> a +:+ b <> "".
Proof. destruct a; [now simpl | discriminate]. Qed.

Lemma sanitize_wellFormed (idx : nat) (v : JsValue) : wellFormed (sanitize idx v).
Proof.
  unfold wellFormed, sanitize. cbn [id title description image alt].
  repeat split.
  - destruct (nonblank (get v "id")) eqn:E.
    + now apply nonblank_Some in E.
    + now apply append_nonempty_l.
  - destruct (nonblank (get v "title")) eqn:E; [|discriminate].
    now apply nonblank_Some in E.
  - destruct (nonblank (get v "description")) eqn:E; [|discriminate].
    now apply nonblank_Some in E.
  - destruct (nonblank (get v "image")) eqn:E; [|discriminate].
    now apply nonblank_Some in E.
  - destruct (nonblank (get v "alt")) eqn:E.
    + now apply nonblank_Some in E.
    + now apply append_nonempty_r.
Qed.

(** *** Trimming *)

Lemma append_cons (x : ascii) (a b : string) : String x a +:+ b = String x (a +:+ b).
Proof. reflexivity. Qed.

Lemma append_assoc (a b c : string) : (a +:+ b) +:+ c = a +:+ (b +:+ c).
Proof.
  induction a as [|x a IH]; [reflexivity|]. rewrite !append_cons. now rewrite IH.
Qed.

Lemma append_nil_r (a : string) : a +:+ "" = a.
Proof.
  induction a as [|x a IH]; [reflexivity|]. rewrite append_cons. now rewrite IH.
Qed.

Lemma length_append (a b : string) :
  String.length (a +:+ b) = (String.length a + String.length b)%nat.
Proof.
  induction a as [|x a IH]; [reflexivity|]. rewrite append_cons. simpl. now rewrite IH.
Qed.

(** Each white space character is recognised at the head of a string,
    and [trim_start] steps over it. *)
Lemma white_space_head (c rest : string) :
  In c white_space ->
  c <> "" /\ ws_prefix (c +:+ rest) = String.length c /\
  trim_start (c +:+ rest) = trim_start rest.
Proof.
  intros H. unfold white_space in H. simpl in H.
  repeat (destruct H as [<- | H];
          [split; [discriminate|split; reflexivity]|]).
  destruct H.
Qed.

Lemma code_inv (a : ascii) (k : N) : code a = k -> a = ascii_of_N k.
Proof. intros <-. unfold code. now rewrite ascii_N_embedding. Qed.

Ltac bool_to_prop :=
  repeat match goal with
  | H : (_ || _) = true |- _ => apply orb_true_iff in H; destruct H
  | H : (_ && _) = true |- _ => apply andb_true_iff in H; destruct H
  | H : (_ <=? _)%N = true |- _ => apply N.leb_le in H
  | H : (_ =? _)%N = true |- _ => apply N.eqb_eq in H
  end.

Ltac in_white_space :=
  unfold white_space; simpl; repeat (first [left; reflexivity | right]).

(** What [ws_prefix] recognises is one of the white space characters. *)
Lemma ws_prefix_sound (s : string) :
  ws_prefix s <> 0%nat ->
  exists c rest, In c white_space /\ s = c +:+ rest.
Proof.
  assert (Hone : forall k rest, In (utf8 [k]) white_space ->
            exists c r, In c white_space /\ String (ascii_of_N k) rest = c +:+ r)
    by (intros k rest Hin; now exists (utf8 [k]), rest).
  assert (Htwo : forall k1 k2 rest, In (utf8 [k1; k2]) white_space ->
            exists c r, In c white_space /\
              String (ascii_of_N k1) (String (ascii_of_N k2) rest) = c +:+ r)
    by (intros k1 k2 rest Hin; now exists (utf8 [k1; k2]), rest).
  assert (Hthree : forall k1 k2 k3 rest, In (utf8 [k1; k2; k3]) white_space ->
            exists c r, In c white_space /\
              String (ascii_of_N k1) (String (ascii_of_N k2) (String (ascii_of_N k3) rest))
              = c +:+ r)
    by (intros k1 k2 k3 rest Hin; now exists (utf8 [k1; k2; k3]), rest).
  destruct s as [|a rest]; [intros H; now destruct H|].
  unfold ws_prefix.
  destruct ((((9 <=? code a) && (code a <=? 13)) || (code a =? 32))%N) eqn:E1.
  { intros _.
    assert (Hk : (code a = 9 \/ code a = 10 \/ code a = 11 \/ code a = 12 \/
                  code a = 13 \/ code a = 32)%N) by (bool_to_prop; lia).
    repeat (destruct Hk as [Hk | Hk];
            [apply code_inv in Hk; subst a; apply Hone; in_white_space|]).
    apply code_inv in Hk; subst a; apply Hone; in_white_space. }
  destruct rest as [|a2 rest2]; [intros H; now destruct H|].
  destruct (((code a =? 194) && (code a2 =? 160))%N) eqn:E2.
  { intros _. bool_to_prop.
    repeat match goal with H : code _ = _ |- _ => apply code_inv in H end.
    subst. apply Htwo. in_white_space. }
  destruct rest2 as [|a3 rest3]; [intros H; now destruct H|].
  repeat match goal with
  | |- context [if ?b then _ else _] => destruct b eqn:?
  end; try (intros H; now destruct H); intros _; clear E1 E2;
  repeat match goal with H : _ = false |- _ => clear H end.
  - bool_to_prop.
    repeat match goal with H : code _ = _ |- _ => apply code_inv in H end.
    subst. apply Hthree. in_white_space.
  - match goal with H : (_ && _ && _)%bool = true |- _ =>
      apply andb_true_iff in H as [H12 H3];
      apply andb_true_iff in H12 as [H1 H2] end.
    apply N.eqb_eq, code_inv in H1. apply N.eqb_eq, code_inv in H2. subst a a2.
    assert (Hk : (code a3 = 128 \/ code a3 = 129 \/ code a3 = 130 \/ code a3 = 131 \/
                  code a3 = 132 \/ code a3 = 133 \/ code a3 = 134 \/ code a3 = 135 \/
                  code a3 = 136 \/ code a3 = 137 \/ code a3 = 138 \/ code a3 = 168 \/
                  code a3 = 169 \/ code a3 = 175)%N) by (bool_to_prop; lia).
    repeat (destruct Hk as [Hk | Hk];
            [apply code_inv in Hk; subst a3; apply Hthree; in_white_space|]).
    apply code_inv in Hk; subst a3; apply Hthree; in_white_space.
  - bool_to_prop.
    repeat match goal with H : code _ = _ |- _ => apply code_inv in H end.
    subst. apply Hthree. in_white_space.
  - bool_to_prop.
    repeat match goal with H : code _ = _ |- _ => apply code_inv in H end.
    subst. apply Hthree. in_white_space.
  - bool_to_prop.
    repeat match goal with H : code _ = _ |- _ => apply code_inv in H end.
    subst. apply Hthree. in_white_space.
Qed.

Lemma blank_app (a b : string) : blank a -> blank b -> blank (a +:+ b).
Proof.
  intros Ha Hb. induction Ha as [|c s Hc Hs IH]; [exact Hb|].
  rewrite append_assoc. now constructor.
Qed.

Lemma trim_start_blank (l s : string) : blank l -> trim_start (l +:+ s) = trim_start s.
Proof.
  intros Hl. induction Hl as [|c l Hc Hl IH]; [reflexivity|].
  rewrite append_assoc. now rewrite (proj2 (proj2 (white_space_head c _ Hc))).
Qed.

Lemma trim_start_fixed (s : string) : ws_prefix s = 0%nat -> trim_start s = s.
Proof.
  destruct s as [|a rest]; [reflexivity|]. intros H. cbn [trim_start]. now rewrite H.
Qed.

(** [trim_start] removes white space characters from the head, and
    what it returns starts with none. *)
Lemma trim_start_spec (s : string) :
  exists l, blank l /\ s = l +:+ trim_start s /\ ws_prefix (trim_start s) = 0%nat.
Proof.
  remember (String.length s) as n eqn:Hn. revert s Hn.
  induction n as [n IH] using lt_wf_ind. intros s Hn.
  destruct (ws_prefix s) as [|k] eqn:E.
  - exists "". rewrite trim_start_fixed by exact E. repeat split; [constructor|exact E].
  - destruct (ws_prefix_sound s) as (c & rest & Hc & ->); [now rewrite E|].
    destruct (white_space_head c rest Hc) as (Hne & _ & Hts).
    destruct (IH (String.length rest)) with (s := rest) as (l & Hl & Hrest & Hz);
      [|reflexivity|].
    { subst n. rewrite length_append. destruct c; [congruence|simpl; lia]. }
    exists (c +:+ l). rewrite Hts. split; [now constructor|]. split; [|exact Hz].
    rewrite append_assoc. now rewrite <- Hrest.
Qed.

Lemma blank_all_ws (s : string) : blank s <-> all_ws s = true.
Proof.
  unfold all_ws. split.
  - intros H. rewrite <- (append_nil_r s), trim_start_blank by exact H. reflexivity.
  - intros H. apply String.eqb_eq in H.
    destruct (trim_start_spec s) as (l & Hl & Hs & _).
    rewrite H, append_nil_r in Hs. now subst.
Qed.

(** [trim_end] removes a blank tail. *)
Lemma trim_end_split (s : string) : exists r, blank r /\ s = trim_end s +:+ r.
Proof.
  induction s as [|a s IH]; [exists ""; split; [constructor|reflexivity]|].
  simpl trim_end. destruct (all_ws (String a s)) eqn:E.
  - exists (String a s). split; [now apply blank_all_ws|reflexivity].
  - destruct IH as (r & Hr & Hs). exists r. split; [exact Hr|].
    rewrite append_cons. now rewrite <- Hs.
Qed.

(** [trim_end] leaves no blank tail behind. *)
Lemma trim_end_cut (s u1 u2 : string) :
  s = u1 +:+ u2 -> blank u2 ->
  (String.length (trim_end s) <= String.length u1)%nat.
Proof.
  revert u1. induction s as [|a s IH]; intros u1 Hs Hb; [simpl; lia|].
  simpl trim_end. destruct (all_ws (String a s)) eqn:E; [simpl; lia|].
  destruct u1 as [|b u1].
  - exfalso. change ("" +:+ u2) with u2 in Hs. subst u2.
    apply blank_all_ws in Hb. congruence.
  - rewrite append_cons in Hs. injection Hs as <- Hs.
    simpl. apply le_n_S. now apply IH.
Qed.

(** [trim] removes white space from both ends and nothing else. *)
Lemma trim_spec (s : string) :
  trimmedFrom s (trim s) /\ (trim s = "" \/ tight (trim s)).
Proof.
  unfold trim.
  destruct (trim_start_spec s) as (l & Hl & Hs & Hz).
  destruct (trim_end_split (trim_start s)) as (r & Hr & Ht).
  split.
  - exists l, r. split; [|split; assumption]. now rewrite <- Ht.
  - remember (trim_end (trim_start s)) as u eqn:Eu.
    destruct (string_dec u "") as [Hu | Hu]; [now left|].
    right. split; [exact Hu|]. split.
    + intros c rest Hc Heq. rewrite Heq, append_assoc in Ht.
      rewrite Ht in Hz.
      destruct (white_space_head c (rest +:+ r) Hc) as (Hne & Hp & _).
      rewrite Hp in Hz. destruct c; [congruence|discriminate].
    + intros c rest Hc Heq.
      pose proof (trim_end_cut (trim_start s) rest (c +:+ r)) as Hcut.
      rewrite <- Eu, Heq, length_append in Hcut.
      destruct (white_space_head c "" Hc) as (Hne & _).
      assert (String.length c <> 0)%nat by (destruct c; [congruence|discriminate]).
      enough (String.length rest + String.length c <= String.length rest)%nat by lia.
      apply Hcut; [|now constructor].
      rewrite <- append_assoc, <- Heq. exact Ht.
Qed.

Lemma trim_blank (s : string) : blank s <-> trim s = "".
Proof.
  split.
  - intros H. unfold trim. apply blank_all_ws in H. unfold all_ws in H.
    apply String.eqb_eq in H. now rewrite H.
  - intros H. destruct (trim_spec s) as [(l & r & Hs & Hl & Hr) _].
    rewrite H in Hs. change ("" +:+ r) with r in Hs. subst s. now apply blank_app.
Qed.

(** *** The sanitizer, field by field *)

Lemma fieldSpec_trim (v : JsValue) (dflt : string) :
  fieldSpec v dflt (match nonblank v with Some x => trim x | None => dflt end).
Proof.
  destruct v; simpl; try reflexivity.
  destruct (String.eqb_spec (trim s) "") as [E | E].
  - left. split; [now apply trim_blank|reflexivity].
  - right. split; [now rewrite trim_blank|].
    destruct (trim_spec s) as [Hfrom [Hempty | Htight]]; [congruence|now split].
Qed.

Lemma idSpec_kept (v : JsValue) (dflt : string) :
  idSpec v dflt (match nonblank v with Some x => x | None => dflt end).
Proof.
  destruct v; simpl; try reflexivity.
  destruct (String.eqb_spec (trim s) "") as [E | E].
  - left. split; [now apply trim_blank|reflexivity].
  - right. split; [now rewrite trim_blank|reflexivity].
Qed.

Lemma sanitize_spec (idx : nat) (o : JsValue) : slideSpec idx o (sanitize idx o).
Proof.
  unfold slideSpec, sanitize. cbn [id title description image alt].
  split; [apply idSpec_kept|]. repeat split; apply fieldSpec_trim.
Qed.

Lemma Forall_imap_all {A B : Type} (P : B -> Prop) (l : list A) :
  forall f : nat -> A -> B, (forall i x, P (f i x)) -> Forall P (imap f l).
Proof.
  induction l as [|a l IH]; intros f Hf; simpl.
  - constructor.
  - constructor; [apply Hf|]. apply IH. intros i x. apply Hf.
Qed.

Lemma keep_object (v : JsValue) :
  keep v = true <-> (exists fields, v = JObj fields) \/ (exists items, v = JArr items).
Proof.
  destruct v; unfold keep; simpl; split; intros H;
    try discriminate; try reflexivity; eauto;
    try (destruct H as [[? H] | [? H]]; discriminate H).
  - destruct b; discriminate.
  - destruct (negb (z =? 0)); discriminate.
  - destruct (negb (String.eqb s "")); discriminate.
Qed.

End Sanitizer.

Section Machine.
Import Audit.

(** *** Handlers leave the timers alone and write no image error *)

Lemma quiet_refl (w : Tsx.World) : Tsx.quiet w w.
Proof. now split. Qed.

Lemma quiet_trans (w1 w2 w3 : Tsx.World) :
  Tsx.quiet w1 w2 -> Tsx.quiet w2 w3 -> Tsx.quiet w1 w3.
Proof.
  intros (H1 & H1' & H2) (H3 & H3' & H4). split; [congruence|]. split; [congruence|].
  intros s. now rewrite H4, H2.
Qed.

Ltac frame_tac :=
  unfold Tsx.quiet, Tsx.sameTimers, Tsx.imageErrorsFor;
  repeat case_match; simpl;
  first
    [ now repeat split
    | split; [reflexivity|]; split; [reflexivity|]; intros ?; unfold logUIEvent;
      rewrite ?List.filter_app; simpl; rewrite ?app_nil_r; reflexivity ].

Lemma goTo_sameTimers (i : Z) (c : Tsx.Cause) (w : Tsx.World) :
  Tsx.sameTimers w (Tsx.goTo i c w).
Proof. unfold Tsx.goTo, Tsx.logUI. frame_tac. Qed.

Lemma goTo_quiet (i : Z) (c : Tsx.Cause) (w : Tsx.World) :
  Tsx.quiet w (Tsx.goTo i c w).
Proof. unfold Tsx.goTo, Tsx.logUI. frame_tac. Qed.

Lemma set_swipe_quiet (s : Tsx.SwipeState) (w : Tsx.World) :
  Tsx.quiet w (Tsx.set_swipe s w).
Proof. now split. Qed.

Lemma set_reduced_sameTimers (b : bool) (w : Tsx.World) :
  Tsx.sameTimers w (Tsx.set_reduced b w).
Proof. now repeat split. Qed.

Lemma set_reduced_quiet (b : bool) (w : Tsx.World) :
  Tsx.quiet w (Tsx.set_reduced b w).
Proof. now split. Qed.

Ltac unfold_handlers :=
  unfold Tsx.handleHover, Tsx.handleFocus, Tsx.onKeyDown, Tsx.onPrevClick,
    Tsx.onNextClick, Tsx.onDotClick, Tsx.onTouchStart, Tsx.onTouchEnd,
    Tsx.touchPause, Tsx.touchResume, Tsx.next, Tsx.prev, Tsx.goTo,
    Tsx.initEffect, Tsx.autoplayEffect, Tsx.autoplayCleanup, Tsx.logUI.

Lemma handleHover_frame (p : bool) (w : Tsx.World) :
  Tsx.sameTimers w (Tsx.handleHover p w) /\ Tsx.quiet w (Tsx.handleHover p w).
Proof. split; unfold_handlers; frame_tac. Qed.

Lemma handleFocus_frame (p : bool) (w : Tsx.World) :
  Tsx.sameTimers w (Tsx.handleFocus p w) /\ Tsx.quiet w (Tsx.handleFocus p w).
Proof. split; unfold_handlers; frame_tac. Qed.

Lemma onKeyDown_frame (key : string) (w : Tsx.World) :
  Tsx.sameTimers w (Tsx.onKeyDown key w) /\ Tsx.quiet w (Tsx.onKeyDown key w).
Proof. split; unfold_handlers; frame_tac. Qed.

Lemma onPrevClick_frame (w : Tsx.World) :
  Tsx.sameTimers w (Tsx.onPrevClick w) /\ Tsx.quiet w (Tsx.onPrevClick w).
Proof. split; unfold_handlers; frame_tac. Qed.

Lemma onNextClick_frame (w : Tsx.World) :
  Tsx.sameTimers w (Tsx.onNextClick w) /\ Tsx.quiet w (Tsx.onNextClick w).
Proof. split; unfold_handlers; frame_tac. Qed.

Lemma onDotClick_frame (i : Z) (w : Tsx.World) :
  Tsx.sameTimers w (Tsx.onDotClick i w) /\ Tsx.quiet w (Tsx.onDotClick i w).
Proof. split; unfold_handlers; frame_tac. Qed.

Lemma onTouchStart_frame (x y : Z) (w : Tsx.World) :
  Tsx.sameTimers w (Tsx.onTouchStart x y w) /\ Tsx.quiet w (Tsx.onTouchStart x y w).
Proof. split; unfold_handlers; frame_tac. Qed.

Lemma onTouchEnd_frame (x y : Z) (w : Tsx.World) :
  Tsx.sameTimers w (Tsx.onTouchEnd x y w) /\ Tsx.quiet w (Tsx.onTouchEnd x y w).
Proof.
  unfold Tsx.onTouchEnd.
  destruct (Tsx.tracking (Tsx.swipe w)).
  - destruct (Tsx.swipeAction _ _ _); split; unfold_handlers; frame_tac.
  - split; frame_tac.
Qed.

Lemma initEffect_quiet (w : Tsx.World) : Tsx.quiet w (Tsx.initEffect w).
Proof. unfold_handlers; frame_tac. Qed.

Lemma autoplayEffect_quiet (w : Tsx.World) : Tsx.quiet w (Tsx.autoplayEffect w).
Proof. unfold_handlers; frame_tac. Qed.

Lemma autoplayCleanup_quiet (w : Tsx.World) : Tsx.quiet w (Tsx.autoplayCleanup w).
Proof. unfold_handlers; frame_tac. Qed.

Lemma commit_quiet (old new : Tsx.World) : Tsx.quiet new (Tsx.commit old new).
Proof.
  unfold Tsx.commit.
  eapply quiet_trans; [|apply set_swipe_quiet].
  destruct (Tsx.autoplayDepsChanged old new), (Tsx.initDepsChanged old new);
    repeat first
      [ apply quiet_refl
      | (eapply quiet_trans; [|apply autoplayEffect_quiet])
      | (eapply quiet_trans; [|apply initEffect_quiet])
      | (eapply quiet_trans; [|apply autoplayCleanup_quiet]) ].
Qed.

Lemma settle_quiet (old new : Tsx.World) : Tsx.quiet new (Tsx.settle old new).
Proof.
  unfold Tsx.settle. destruct (Tsx.stateChanged old new);
    [apply commit_quiet | apply quiet_refl].
Qed.

(** *** The timer invariant *)

Lemma timerInv_shape (w : Tsx.World) : Tsx.timerInv w -> Tsx.timerShape w.
Proof.
  intros [Hn Hs]. split; [assumption|].
  intros tid c H. destruct (Hs tid c H) as (? & ? & ? & _). auto.
Qed.

Lemma no_timers_inv (w : Tsx.World) :
  0 < Tsx.nextTimerId w -> Tsx.timers w = ∅ -> Tsx.timerInv w.
Proof.
  intros Hn He. split; [assumption|].
  intros tid c H. rewrite He, lookup_empty in H. discriminate.
Qed.

Lemma timerInv_ext (w w' : Tsx.World) :
  Tsx.timers w' = Tsx.timers w -> Tsx.timerRef w' = Tsx.timerRef w ->
  Tsx.cleanup w' = Tsx.cleanup w -> Tsx.nextTimerId w' = Tsx.nextTimerId w ->
  Tsx.mounted w' = Tsx.mounted w -> Tsx.activeIndex w' = Tsx.activeIndex w ->
  Tsx.cfg_enabled w' = Tsx.cfg_enabled w -> Tsx.isPaused w' = Tsx.isPaused w ->
  Tsx.timerInv w -> Tsx.timerInv w'.
Proof.
  intros Ht Hr Hc Hn Hm Ha He Hp [Hpos Hs]. split.
  - now rewrite Hn.
  - intros tid c. rewrite Ht, Hr, Hc, Hm, Ha, He, Hp. apply Hs.
Qed.

Lemma cleanup_clears (w : Tsx.World) :
  Tsx.timerShape w -> Tsx.timers (Tsx.autoplayCleanup w) = ∅.
Proof.
  intros [Hn Hs]. apply map_empty. intros i.
  destruct (Tsx.timers (Tsx.autoplayCleanup w) !! i) as [c|] eqn:E; [exfalso|reflexivity].
  unfold Tsx.autoplayCleanup in E.
  destruct (Tsx.cleanup w) as [idx|] eqn:Ec.
  - destruct (Tsx.timerRef w) as [tid|] eqn:Er.
    + destruct (Z.eqb_spec tid 0) as [E0|E0]; simpl in E.
      * destruct (Hs i c E) as (Hr & _ & Hi). try rewrite Er in Hr. simplify_eq. lia.
      * apply lookup_delete_Some in E as [Hne E].
        destruct (Hs i c E) as (Hr & _). try rewrite Er in Hr. simplify_eq.
    + simpl in E. destruct (Hs i c E) as (Hr & _). try rewrite Er in Hr. discriminate.
  - destruct (Hs i c E) as (_ & [x Hx] & _). try rewrite Ec in Hx. discriminate.
Qed.

Lemma cleanup_nextTimerId (w : Tsx.World) :
  Tsx.nextTimerId (Tsx.autoplayCleanup w) = Tsx.nextTimerId w.
Proof. unfold_handlers. now repeat case_match. Qed.

Lemma cleanup_state (w : Tsx.World) :
  Tsx.mounted (Tsx.autoplayCleanup w) = Tsx.mounted w /\
  Tsx.activeIndex (Tsx.autoplayCleanup w) = Tsx.activeIndex w /\
  Tsx.isPaused (Tsx.autoplayCleanup w) = Tsx.isPaused w /\
  Tsx.cfg_enabled (Tsx.autoplayCleanup w) = Tsx.cfg_enabled w.
Proof. unfold_handlers. now repeat case_match. Qed.

Lemma initEffect_inv (w : Tsx.World) : Tsx.timerInv w -> Tsx.timerInv (Tsx.initEffect w).
Proof.
  apply timerInv_ext; unfold Tsx.initEffect;
    destruct (Tsx.cfg_enabled w) eqn:E; try reflexivity; exact E.
Qed.

Lemma initEffect_state (w : Tsx.World) :
  Tsx.timers (Tsx.initEffect w) = Tsx.timers w /\
  Tsx.nextTimerId (Tsx.initEffect w) = Tsx.nextTimerId w /\
  Tsx.mounted (Tsx.initEffect w) = Tsx.mounted w.
Proof. unfold Tsx.initEffect. now destruct (Tsx.cfg_enabled w). Qed.

Lemma autoplayEffect_inv (w : Tsx.World) :
  0 < Tsx.nextTimerId w -> Tsx.timers w = ∅ -> Tsx.mounted w = true ->
  Tsx.timerInv (Tsx.autoplayEffect w).
Proof.
  intros Hn He Hm. unfold Tsx.autoplayEffect.
  destruct (Tsx.cfg_enabled w) eqn:Ee; simpl.
  - destruct (Tsx.isPaused w) eqn:Ep.
    + now apply no_timers_inv.
    + split; simpl; [lia|].
      intros tid c H. rewrite He in H.
      apply lookup_insert_Some in H as [[<- <-] | [_ H]].
      * unfold Tsx.cfg_enabled in *. simpl. repeat split; eauto.
      * rewrite lookup_empty in H. discriminate.
  - now apply no_timers_inv.
Qed.

Lemma set_swipe_inv (s : Tsx.SwipeState) (w : Tsx.World) :
  Tsx.timerInv w -> Tsx.timerInv (Tsx.set_swipe s w).
Proof. now apply timerInv_ext. Qed.

Lemma autoplayDeps_same (old new : Tsx.World) :
  Tsx.autoplayDepsChanged old new = false ->
  Tsx.cfg_enabled new = Tsx.cfg_enabled old /\
  Tsx.isPaused new = Tsx.isPaused old /\
  Tsx.activeIndex new = Tsx.activeIndex old.
Proof.
  unfold Tsx.autoplayDepsChanged. intros H.
  apply orb_false_elim in H as [H Ha].
  apply orb_false_elim in H as [H Hp].
  apply orb_false_elim in H as [He _].
  apply negb_false_iff in He, Hp, Ha.
  apply Bool.eqb_prop in He, Hp. apply Z.eqb_eq in Ha. auto.
Qed.

Lemma commit_inv (old new : Tsx.World) :
  Tsx.timerInv old ->
  Tsx.timers new = Tsx.timers old -> Tsx.timerRef new = Tsx.timerRef old ->
  Tsx.cleanup new = Tsx.cleanup old -> Tsx.nextTimerId new = Tsx.nextTimerId old ->
  Tsx.mounted new = Tsx.mounted old -> Tsx.mounted old = true ->
  Tsx.timerInv (Tsx.commit old new).
Proof.
  intros Hinv Ht Hr Hc Hn Hmm Hm. unfold Tsx.commit. apply set_swipe_inv.
  assert (Hshape : Tsx.timerShape new).
  { destruct (timerInv_shape _ Hinv) as [Hpos Hs]. split.
    - now rewrite Hn.
    - intros tid c. rewrite Ht, Hr, Hc. apply Hs. }
  destruct (Tsx.autoplayDepsChanged old new) eqn:Ed.
  - pose proof (cleanup_clears new Hshape) as Hclr.
    pose proof (cleanup_nextTimerId new) as Hnid.
    destruct (cleanup_state new) as (Hcm & _).
    destruct Hshape as [Hpos _].
    apply autoplayEffect_inv.
    + destruct (Tsx.initDepsChanged old new).
      * destruct (initEffect_state (Tsx.autoplayCleanup new)) as (_ & -> & _). lia.
      * lia.
    + destruct (Tsx.initDepsChanged old new).
      * destruct (initEffect_state (Tsx.autoplayCleanup new)) as (-> & _). exact Hclr.
      * exact Hclr.
    + destruct (Tsx.initDepsChanged old new).
      * destruct (initEffect_state (Tsx.autoplayCleanup new)) as (_ & _ & ->). congruence.
      * congruence.
  - destruct (autoplayDeps_same old new Ed) as (He & Hp & Ha).
    assert (Tsx.timerInv new) as Hnew by (now apply (timerInv_ext old new)).
    destruct (Tsx.initDepsChanged old new); [now apply initEffect_inv | exact Hnew].
Qed.

Lemma commit_inv_same (old new : Tsx.World) :
  Tsx.timerInv old -> Tsx.sameTimers old new -> Tsx.mounted old = true ->
  Tsx.timerInv (Tsx.commit old new).
Proof.
  intros Hinv (_ & Ht & Hr & Hc & Hn & Hmm) Hm. now apply commit_inv.
Qed.

Lemma stateChanged_same (old new : Tsx.World) :
  Tsx.stateChanged old new = false ->
  Tsx.activeIndex new = Tsx.activeIndex old /\
  Tsx.isPaused new = Tsx.isPaused old /\
  Tsx.reduced new = Tsx.reduced old.
Proof.
  unfold Tsx.stateChanged. intros H.
  apply orb_false_elim in H as [H Hr].
  apply orb_false_elim in H as [Ha Hp].
  apply negb_false_iff in Ha, Hp, Hr.
  apply Bool.eqb_prop in Hp, Hr. apply Z.eqb_eq in Ha. auto.
Qed.

Lemma settle_inv (old new : Tsx.World) :
  Tsx.timerInv old -> Tsx.sameTimers old new -> Tsx.mounted old = true ->
  Tsx.timerInv (Tsx.settle old new).
Proof.
  intros Hinv Hsame Hm. unfold Tsx.settle.
  destruct (Tsx.stateChanged old new) eqn:Es; [now apply commit_inv_same|].
  destruct (stateChanged_same old new Es) as (Ha & Hp & Hr).
  destruct Hsame as (Hau & Ht & Hrf & Hc & Hn & Hmm).
  apply (timerInv_ext old new); try assumption.
  unfold Tsx.cfg_enabled. now rewrite Hau, Hr.
Qed.

Lemma unmount_inv (w : Tsx.World) : Tsx.timerInv w -> Tsx.timerInv (Tsx.unmount w).
Proof.
  intros Hinv. apply no_timers_inv; simpl.
  - rewrite cleanup_nextTimerId. apply Hinv.
  - apply cleanup_clears. now apply timerInv_shape.
Qed.

Lemma handle_inv (ev : Tsx.Event) (w : Tsx.World) :
  Tsx.timerInv w -> Tsx.mounted w = true -> Tsx.timerInv (Tsx.handle ev w).
Proof.
  intros Hinv Hm. destruct ev; simpl.
  - apply settle_inv; auto. apply handleHover_frame.
  - apply settle_inv; auto. apply handleFocus_frame.
  - apply settle_inv; auto. apply onKeyDown_frame.
  - apply settle_inv; auto. apply onPrevClick_frame.
  - apply settle_inv; auto. apply onNextClick_frame.
  - destruct (i <? length (Tsx.slides w))%nat; [|assumption].
    apply settle_inv; auto. apply onDotClick_frame.
  - apply settle_inv; auto. apply onTouchStart_frame.
  - apply settle_inv; auto. apply onTouchEnd_frame.
  - destruct (Tsx.slides w !! pos) as [s|]; [|assumption].
    destruct (Tsx.shownMedia w s); [|assumption].
    now apply (timerInv_ext w).
  - apply settle_inv; auto. apply set_reduced_sameTimers.
  - destruct (Tsx.validate _ _); [now apply unmount_inv|].
    now apply commit_inv.
  - assumption.
  - now apply unmount_inv.
  - destruct (decide _); [assumption|]. unfold Tsx.render.
    apply (timerInv_ext (Tsx.commit w w)); try reflexivity.
    apply commit_inv_same; auto. now repeat split.
Qed.

Lemma fire_clears (tid c : Z) (w : Tsx.World) :
  Tsx.timerInv w -> Tsx.timers w !! tid = Some c ->
  delete tid (Tsx.timers w) = ∅.
Proof.
  intros [_ Hs] Hl. apply map_empty. intros i.
  destruct (delete tid (Tsx.timers w) !! i) as [c'|] eqn:E; [exfalso|reflexivity].
  apply lookup_delete_Some in E as [Hne E].
  destruct (Hs tid c Hl) as (H1 & _). destruct (Hs i c' E) as (H2 & _).
  congruence.
Qed.

Lemma step_inv (ev : Tsx.Event) (w : Tsx.World) :
  Tsx.timerInv w -> Tsx.timerInv (Tsx.step ev w).
Proof.
  intros Hinv.
  assert (Hother : Tsx.timerInv (if Tsx.mounted w then Tsx.handle ev w else w)).
  { destruct (Tsx.mounted w) eqn:Hm; [now apply handle_inv | assumption]. }
  destruct ev; try exact Hother. simpl.
  destruct (Tsx.timers w !! tid) as [c|] eqn:Hl; [|assumption].
  pose proof (fire_clears tid c w Hinv Hl) as Hclr.
  set (w1 := Tsx.set_timers (delete tid (Tsx.timers w)) w).
  assert (Hinv1 : Tsx.timerInv w1).
  { apply no_timers_inv; [apply Hinv | exact Hclr]. }
  destruct (Tsx.mounted w) eqn:Hm.
  - apply settle_inv; [exact Hinv1 | apply goTo_sameTimers | exact Hm].
  - apply no_timers_inv.
    + destruct (goTo_sameTimers (c + 1) Tsx.Auto w1) as (_ & _ & _ & _ & -> & _).
      apply Hinv.
    + destruct (goTo_sameTimers (c + 1) Tsx.Auto w1) as (_ & -> & _).
      exact Hclr.
Qed.

Lemma run_inv (evs : list Tsx.Event) :
  forall w : Tsx.World, Tsx.timerInv w -> Tsx.timerInv (Tsx.run evs w).
Proof.
  induction evs as [|ev evs IH]; intros w Hinv; [exact Hinv|].
  simpl. apply IH. now apply step_inv.
Qed.

Lemma mount_inv (slides : list Tsx.Slide) (autoplayProp : option Tsx.AutoplayConfig)
    (matches : bool) (w0 : Tsx.World) :
  Tsx.mount slides autoplayProp matches = inr w0 -> Tsx.timerInv w0.
Proof.
  unfold Tsx.mount. set (autoplay := default Tsx.default_autoplay autoplayProp).
  destruct (Tsx.validate slides autoplay); [discriminate|].
  intros [= <-].
  set (w1 := Tsx.autoplayEffect (Tsx.initEffect (Tsx.initial slides autoplay))).
  assert (Hinv1 : Tsx.timerInv w1).
  { apply autoplayEffect_inv.
    - destruct (initEffect_state (Tsx.initial slides autoplay)) as (_ & -> & _).
      simpl. lia.
    - destruct (initEffect_state (Tsx.initial slides autoplay)) as (-> & _).
      reflexivity.
    - destruct (initEffect_state (Tsx.initial slides autoplay)) as (_ & _ & ->).
      reflexivity. }
  apply settle_inv; [exact Hinv1 | apply set_reduced_sameTimers |].
  unfold w1, Tsx.autoplayEffect, Tsx.initEffect.
  now repeat case_match.
Qed.

Lemma reachable_inv (w : Tsx.World) : Tsx.reachable w -> Tsx.timerInv w.
Proof.
  intros (slides & autoplayProp & matches & w0 & evs & Hm & ->).
  apply run_inv. eapply mount_inv, Hm.
Qed.

(** *** The image error invariant *)

Lemma errorInv_quiet (w w' : Tsx.World) :
  Tsx.quiet w w' -> Tsx.errorInv w -> Tsx.errorInv w'.
Proof.
  intros (Hi & Hs & Hc) Hinv slideId. rewrite Hi, Hs, Hc. apply Hinv.
Qed.

Lemma onImageError_events (sid slideId : string) (w : Tsx.World) :
  Tsx.imageErrorsFor slideId (Tsx.console (Tsx.onImageError sid w))
  = Tsx.imageErrorsFor slideId (Tsx.console w)
    ++ (if String.eqb sid slideId
        then [mkUIEvent "carousel_image_error" ERROR [("slideId", MStr sid)]]
        else []).
Proof.
  unfold Tsx.onImageError, Tsx.logUI, Tsx.imageErrorsFor, logUIEvent. simpl.
  rewrite List.filter_app. simpl.
  assert (Hev : Tsx.isImageErrorFor slideId
                  (mkUIEvent "carousel_image_error" ERROR [("slideId", MStr sid)])
                = String.eqb sid slideId) by reflexivity.
  rewrite Hev. now destruct (String.eqb sid slideId).
Qed.

Lemma onImageError_errorInv (sid : string) (w : Tsx.World) :
  Tsx.errorInv w -> Tsx.errorInv (Tsx.onImageError sid w).
Proof.
  intros Hinv slideId. destruct (Hinv slideId) as [Hmark Hshown].
  rewrite onImageError_events.
  change (Tsx.imageErrors (Tsx.onImageError sid w))
    with (<[sid := true]> (Tsx.imageErrors w)).
  change (Tsx.shown (Tsx.onImageError sid w)) with (Tsx.shown w).
  unfold Tsx.marked in *.
  destruct (String.eqb_spec sid slideId) as [<-|Hne].
  - rewrite lookup_insert_eq. auto.
  - rewrite app_nil_r, lookup_insert_ne by assumption. auto.
Qed.

Lemma render_errorInv (w : Tsx.World) : Tsx.errorInv w -> Tsx.errorInv (Tsx.render w).
Proof.
  intros Hinv slideId. unfold Tsx.render.
  destruct (commit_quiet w w) as (Hi & _ & Hc).
  change (Tsx.console (Tsx.set_shown _ (Tsx.commit w w)))
    with (Tsx.console (Tsx.commit w w)).
  change (Tsx.imageErrors (Tsx.set_shown _ (Tsx.commit w w)))
    with (Tsx.imageErrors (Tsx.commit w w)).
  change (Tsx.shown (Tsx.set_shown (Tsx.imageErrors w) (Tsx.commit w w)))
    with (Tsx.imageErrors w).
  rewrite Hi, Hc. split; [apply Hinv | auto].
Qed.

Lemma unmount_errorInv (w : Tsx.World) : Tsx.errorInv w -> Tsx.errorInv (Tsx.unmount w).
Proof.
  intros Hinv. unfold Tsx.unmount.
  eapply errorInv_quiet; [|eapply errorInv_quiet; [apply autoplayCleanup_quiet|exact Hinv]].
  now split.
Qed.

Lemma handle_errorInv (ev : Tsx.Event) (w : Tsx.World) :
  Tsx.errorInv w -> Tsx.errorInv (Tsx.handle ev w).
Proof.
  intros Hinv. destruct ev; simpl.
  - eapply errorInv_quiet; [apply settle_quiet|].
    eapply errorInv_quiet; [apply handleHover_frame | assumption].
  - eapply errorInv_quiet; [apply settle_quiet|].
    eapply errorInv_quiet; [apply handleFocus_frame | assumption].
  - eapply errorInv_quiet; [apply settle_quiet|].
    eapply errorInv_quiet; [apply onKeyDown_frame | assumption].
  - eapply errorInv_quiet; [apply settle_quiet|].
    eapply errorInv_quiet; [apply onPrevClick_frame | assumption].
  - eapply errorInv_quiet; [apply settle_quiet|].
    eapply errorInv_quiet; [apply onNextClick_frame | assumption].
  - destruct (i <? length (Tsx.slides w))%nat; [|assumption].
    eapply errorInv_quiet; [apply settle_quiet|].
    eapply errorInv_quiet; [apply onDotClick_frame | assumption].
  - eapply errorInv_quiet; [apply settle_quiet|].
    eapply errorInv_quiet; [apply onTouchStart_frame | assumption].
  - eapply errorInv_quiet; [apply settle_quiet|].
    eapply errorInv_quiet; [apply onTouchEnd_frame | assumption].
  - destruct (Tsx.slides w !! pos) as [s|]; [|assumption].
    destruct (Tsx.shownMedia w s); [|assumption].
    now apply onImageError_errorInv.
  - eapply errorInv_quiet; [apply settle_quiet|].
    eapply errorInv_quiet; [apply set_reduced_quiet | assumption].
  - destruct (Tsx.validate _ _); [now apply unmount_errorInv|].
    eapply errorInv_quiet; [apply commit_quiet|].
    eapply errorInv_quiet; [|exact Hinv]. now split.
  - assumption.
  - now apply unmount_errorInv.
  - destruct (decide _); [assumption|]. now apply render_errorInv.
Qed.

Lemma step_errorInv (ev : Tsx.Event) (w : Tsx.World) :
  Tsx.errorInv w -> Tsx.errorInv (Tsx.step ev w).
Proof.
  intros Hinv.
  assert (Hother : Tsx.errorInv (if Tsx.mounted w then Tsx.handle ev w else w)).
  { destruct (Tsx.mounted w); [now apply handle_errorInv | assumption]. }
  destruct ev; try exact Hother. simpl.
  destruct (Tsx.timers w !! tid) as [c|]; [|assumption].
  set (w1 := Tsx.set_timers (delete tid (Tsx.timers w)) w).
  assert (Hinv2 : Tsx.errorInv (Tsx.goTo (c + 1) Tsx.Auto w1)).
  { eapply errorInv_quiet; [apply goTo_quiet|].
    eapply errorInv_quiet; [|exact Hinv]. now split. }
  destruct (Tsx.mounted w); [|exact Hinv2].
  eapply errorInv_quiet; [apply settle_quiet | exact Hinv2].
Qed.

Lemma run_errorInv (evs : list Tsx.Event) :
  forall w : Tsx.World, Tsx.errorInv w -> Tsx.errorInv (Tsx.run evs w).
Proof.
  induction evs as [|ev evs IH]; intros w Hinv; [exact Hinv|].
  simpl. apply IH. now apply step_errorInv.
Qed.

Lemma mount_errorInv (slides : list Tsx.Slide) (autoplayProp : option Tsx.AutoplayConfig)
    (matches : bool) (w0 : Tsx.World) :
  Tsx.mount slides autoplayProp matches = inr w0 -> Tsx.errorInv w0.
Proof.
  unfold Tsx.mount. set (autoplay := default Tsx.default_autoplay autoplayProp).
  destruct (Tsx.validate slides autoplay); [discriminate|].
  intros [= <-].
  eapply errorInv_quiet; [apply settle_quiet|].
  eapply errorInv_quiet; [apply set_reduced_quiet|].
  eapply errorInv_quiet; [apply autoplayEffect_quiet|].
  eapply errorInv_quiet; [apply initEffect_quiet|].
  intros slideId. simpl. split; [congruence | auto].
Qed.

Lemma reachable_errorInv (w : Tsx.World) : Tsx.reachable w -> Tsx.errorInv w.
Proof.
  intros (slides & autoplayProp & matches & w0 & evs & Hm & ->).
  apply run_errorInv. eapply mount_errorInv, Hm.
Qed.

(** *** Once the fallback block is shown *)

Lemma unmount_quiet (w : Tsx.World) : Tsx.quiet w (Tsx.unmount w).
Proof.
  unfold Tsx.unmount.
  eapply quiet_trans; [apply autoplayCleanup_quiet|]. now repeat split.
Qed.

Lemma handle_quiet (ev : Tsx.Event) (w : Tsx.World) :
  (forall pos, ev <> Tsx.ImageError pos) -> ev <> Tsx.Render ->
  Tsx.quiet w (Tsx.handle ev w).
Proof.
  intros Himg Hrender. destruct ev; simpl.
  - eapply quiet_trans; [apply handleHover_frame | apply settle_quiet].
  - eapply quiet_trans; [apply handleFocus_frame | apply settle_quiet].
  - eapply quiet_trans; [apply onKeyDown_frame | apply settle_quiet].
  - eapply quiet_trans; [apply onPrevClick_frame | apply settle_quiet].
  - eapply quiet_trans; [apply onNextClick_frame | apply settle_quiet].
  - destruct (i <? length (Tsx.slides w))%nat; [|apply quiet_refl].
    eapply quiet_trans; [apply onDotClick_frame | apply settle_quiet].
  - eapply quiet_trans; [apply onTouchStart_frame | apply settle_quiet].
  - eapply quiet_trans; [apply onTouchEnd_frame | apply settle_quiet].
  - now destruct (Himg pos).
  - eapply quiet_trans; [apply set_reduced_quiet | apply settle_quiet].
  - destruct (Tsx.validate _ _); [apply unmount_quiet|].
    eapply quiet_trans; [|apply commit_quiet]. now repeat split.
  - apply quiet_refl.
  - apply unmount_quiet.
  - now destruct Hrender.
Qed.

Lemma step_quiet (ev : Tsx.Event) (w : Tsx.World) :
  (forall pos, ev <> Tsx.ImageError pos) -> ev <> Tsx.Render ->
  Tsx.quiet w (Tsx.step ev w).
Proof.
  intros Himg Hrender.
  assert (Hother : Tsx.quiet w (if Tsx.mounted w then Tsx.handle ev w else w)).
  { destruct (Tsx.mounted w); [now apply handle_quiet | apply quiet_refl]. }
  destruct ev; try exact Hother. simpl.
  destruct (Tsx.timers w !! tid) as [c|]; [|apply quiet_refl].
  set (w1 := Tsx.set_timers (delete tid (Tsx.timers w)) w).
  assert (H2 : Tsx.quiet w (Tsx.goTo (c + 1) Tsx.Auto w1)).
  { eapply quiet_trans; [|apply goTo_quiet]. now repeat split. }
  destruct (Tsx.mounted w); [|exact H2].
  eapply quiet_trans; [exact H2 | apply settle_quiet].
Qed.

(** While the document shows the fallback block for an id, no step
    writes an image error event for it, and the block stays. *)
Lemma step_marked (ev : Tsx.Event) (w : Tsx.World) (slideId : string) :
  Tsx.errorInv w -> Tsx.marked (Tsx.shown w) slideId = true ->
  Tsx.marked (Tsx.shown (Tsx.step ev w)) slideId = true /\
  Tsx.imageErrorsFor slideId (Tsx.console (Tsx.step ev w))
  = Tsx.imageErrorsFor slideId (Tsx.console w).
Proof.
  intros Hinv Hm.
  assert (Hq : (forall pos, ev <> Tsx.ImageError pos) -> ev <> Tsx.Render ->
               Tsx.marked (Tsx.shown (Tsx.step ev w)) slideId = true /\
               Tsx.imageErrorsFor slideId (Tsx.console (Tsx.step ev w))
               = Tsx.imageErrorsFor slideId (Tsx.console w)).
  { intros H1 H2. destruct (step_quiet ev w H1 H2) as (_ & Hs & Hc).
    now rewrite Hs, Hc. }
  destruct ev; try (apply Hq; [intros ?|]; discriminate).
  - simpl. destruct (Tsx.mounted w); [|now split]. simpl.
    destruct (Tsx.slides w !! pos) as [s|]; [|now split].
    unfold Tsx.shownMedia, Tsx.renderMedia, Tsx.hasError.
    change (Tsx.imageErrors (Tsx.set_imageErrors (Tsx.shown w) w)) with (Tsx.shown w).
    destruct (Tsx.marked (Tsx.shown w) (Tsx.id s)) eqn:Es; [now split|].
    split; [exact Hm|]. rewrite onImageError_events.
    destruct (String.eqb_spec (Tsx.id s) slideId) as [E|_]; [congruence|].
    apply app_nil_r.
  - simpl. destruct (Tsx.mounted w); [|now split]. simpl.
    destruct (decide _); [now split|]. unfold Tsx.render.
    destruct (commit_quiet w w) as (_ & _ & Hc). split.
    + apply (Hinv slideId), Hm.
    + apply Hc.
Qed.

Lemma run_marked (evs : list Tsx.Event) :
  forall (w : Tsx.World) (slideId : string),
    Tsx.errorInv w -> Tsx.marked (Tsx.shown w) slideId = true ->
    Tsx.imageErrorsFor slideId (Tsx.console (Tsx.run evs w))
    = Tsx.imageErrorsFor slideId (Tsx.console w).
Proof.
  induction evs as [|ev evs IH]; intros w slideId Hinv Hm; [reflexivity|].
  simpl. destruct (step_marked ev w slideId Hinv Hm) as [Hm' Hc].
  rewrite IH; [exact Hc | now apply step_errorInv | exact Hm'].
Qed.

(** *** After the unmount *)

Lemma step_unmounted (ev : Tsx.Event) (w : Tsx.World) :
  Tsx.mounted w = false -> Tsx.timers w = ∅ -> Tsx.step ev w = w.
Proof.
  intros Hm He. destruct ev; simpl; rewrite ?Hm; try reflexivity.
  now rewrite He, lookup_empty.
Qed.

Lemma run_unmounted (evs : list Tsx.Event) (w : Tsx.World) :
  Tsx.mounted w = false -> Tsx.timers w = ∅ -> Tsx.run evs w = w.
Proof.
  intros Hm He. induction evs as [|ev evs IH]; [reflexivity|].
  simpl. now rewrite step_unmounted.
Qed.

Lemma no_pending_timer (w : Tsx.World) :
  Tsx.timerInv w ->
  Tsx.mounted w = false \/ Tsx.isPaused w = true \/ Tsx.cfg_enabled w = false ->
  Tsx.timers w = ∅.
Proof.
  intros [_ Hs] Hoff. apply map_empty. intros i.
  destruct (Tsx.timers w !! i) as [c|] eqn:E; [exfalso|reflexivity].
  destruct (Hs i c E) as (_ & _ & _ & Hm & _ & He & Hp).
  destruct Hoff as [H | [H | H]]; congruence.
Qed.

End Machine.





Section Sink.
Import Audit.

(** *** On a console that works the two layers agree *)

Lemma logUI_on_working (name : string) (act : AuditAction) (md : Metadata) (w : Tsx.World) :
  Tsx.logUI_on working_console name act md w = Returned (Tsx.logUI name act md w).
Proof. reflexivity. Qed.

Lemma goTo_on_working (i : Z) (cause : Tsx.Cause) (w : Tsx.World) :
  bind (Tsx.goTo_on working_console i cause w)
       (fun q => Tsx.goToUpdater_on working_console q w)
  = Returned (Tsx.goTo i cause w).
Proof.
  unfold Tsx.goTo_on, Tsx.goToUpdater_on, Tsx.goTo. simpl. now destruct (negb _).
Qed.

Lemma handleHover_on_working (p : bool) (w : Tsx.World) :
  Tsx.handleHover_on working_console p w = Returned (Tsx.handleHover p w).
Proof. reflexivity. Qed.

Lemma handleFocus_on_working (p : bool) (w : Tsx.World) :
  Tsx.handleFocus_on working_console p w = Returned (Tsx.handleFocus p w).
Proof. reflexivity. Qed.

Lemma onImageError_on_working (slideId : string) (w : Tsx.World) :
  Tsx.onImageError_on working_console slideId w = Returned (Tsx.onImageError slideId w).
Proof. reflexivity. Qed.

Lemma onKeyDown_on_working (key : string) (w : Tsx.World) :
  bind (Tsx.onKeyDown_on working_console key w) (Tsx.flush_on working_console)
  = Returned (Tsx.onKeyDown key w).
Proof.
  unfold Tsx.onKeyDown_on, Tsx.onKeyDown, Tsx.next_on, Tsx.prev_on, Tsx.next, Tsx.prev.
  destruct (String.eqb key "ArrowRight"); [apply goTo_on_working|].
  destruct (String.eqb key "ArrowLeft"); [apply goTo_on_working|].
  reflexivity.
Qed.

Lemma jsx_goTo_on_working (i : Z) (w : Jsx.World) :
  bind (Jsx.goTo_on working_console i w)
       (fun nextIdx => Jsx.goToUpdater_on working_console nextIdx w)
  = Returned (Jsx.goTo i w).
Proof. unfold Jsx.goTo_on, Jsx.goToUpdater_on, Jsx.goTo. simpl. now destruct (negb _). Qed.

(** *** [goTo] returns; its updater is where the console is called *)

Lemma onKeyDown_on_returns (c : Console) (key : string) (w : Tsx.World) :
  exists q, Tsx.onKeyDown_on c key w = Returned (w, q).
Proof.
  unfold Tsx.onKeyDown_on, Tsx.next_on, Tsx.prev_on, Tsx.goTo_on.
  destruct (String.eqb key "ArrowRight"); [simpl; eauto|].
  destruct (String.eqb key "ArrowLeft"); simpl; eauto.
Qed.

Lemma goToUpdater_on_raises (c : Console) (q : Tsx.Queued) (w : Tsx.World) (msg : string) :
  (forall e, console_log c e = Raised msg) ->
  Tsx.goToUpdater_on c q w
  = if Tsx.activeIndex w =? Tsx.q_next q
    then Returned (Tsx.set_activeIndex (Tsx.q_next q) w)
    else Raised msg.
Proof.
  intros H. unfold Tsx.goToUpdater_on, Tsx.logUI_on, logUIEvent_on.
  destruct (Tsx.activeIndex w =? Tsx.q_next q); simpl; [reflexivity|].
  now rewrite H.
Qed.

(** *** [logUIEvent] passes a failure of the console on *)

Lemma logUIEvent_on_raises (c : Console) (name : string) (act : AuditAction)
    (md : Metadata) (msg : string) :
  console_log c (mkUIEvent name act md) = Raised msg ->
  logUIEvent_on c name act md = Raised msg.
Proof. intros H. unfold logUIEvent_on. now rewrite H. Qed.

Lemma handleHover_on_raises (c : Console) (p : bool) (w : Tsx.World) (msg : string) :
  (forall e, console_log c e = Raised msg) ->
  Tsx.handleHover_on c p w = Raised msg.
Proof.
  intros H. unfold Tsx.handleHover_on, Tsx.logUI_on, logUIEvent_on.
  now rewrite H.
Qed.

(** *** [logAuditEvent] swallows it, as long as [console.error] works *)

Lemma logAuditEvent_on_returns (c : Console) (event : JsAuditEvent) (out : list JsAuditEvent) :
  (forall e, console_error c e = Returned tt) ->
  exists out', logAuditEvent_on c event out = Returned out'.
Proof.
  intros Herr. unfold logAuditEvent_on.
  destruct (stringify c event) as [s|e]; simpl.
  - destruct (console_info c s) as [[]|e]; simpl; [eauto|].
    rewrite Herr. simpl. eauto.
  - rewrite Herr. simpl. eauto.
Qed.

Lemma jsx_goToUpdater_on_returns (c : Console) (i : Z) (w : Jsx.World) :
  (forall e, console_error c e = Returned tt) ->
  exists w', Jsx.goToUpdater_on c i w = Returned w'.
Proof.
  intros Herr. unfold Jsx.goToUpdater_on, logSlideChange_on.
  destruct (negb _); simpl; [|eauto].
  destruct (logAuditEvent_on_returns c
              (slideChangeEvent (Jsx.activeIndex w) (Jsx.clampIndex (Jsx.total w) i)
                 (Jsx.total w) (Jsx.userId w))
              (Jsx.console w) Herr) as [out' ->].
  simpl. eauto.
Qed.

End Sink.

(* ===================================================================== *)
(** ** The claims                                                         *)
(* ===================================================================== *)

Section Claims.
Import Audit.

(** C1, as stated, fails: the autoplay carousel sends target 4 of 3
    slides to index 0, where 4 modulo 3 is 1; the pixel-drag carousel
    sends target -1 to index 0, where -1 modulo 3 is 2. *)
Lemma C1_goTo_is_not_modulo :
  Tsx.activeIndex (Tsx.goTo 4 Tsx.Dot demoTsx) <> 4 mod Tsx.total demoTsx
  /\ Jsx.activeIndex (Jsx.goTo (-1) demoJsx) <> (-1) mod Jsx.total demoJsx.
Proof. split; vm_compute; intros H; discriminate H. Qed.

(** C1 (amended).  With [N > 0] slides, [goTo] of the autoplay carousel
    sends a negative target to [N - 1], a target of [N] or more to [0] and
    keeps a target in range: the target modulo [N] for every target from
    [-1] to [N].  [goTo] of the pixel-drag carousel does not wrap: it
    sends a negative target to [0] and a target of [N] or more to [N - 1].
    In both, when the resulting index differs from the current one,
    [activeIndex] is updated and exactly one transition event is written
    (from, to and, in the autoplay carousel, the cause); when it is equal,
    nothing is written and the state is unchanged. *)
Theorem C1_goTo_wraps_one_step_and_logs_changes :
  forall (w : Tsx.World) (j : Jsx.World) (targetIndex : Z) (cause : Tsx.Cause),
    (0 < Tsx.total w ->
     let wrapped := Tsx.clampIndex (Tsx.total w) targetIndex in
     (targetIndex < 0 -> wrapped = Tsx.total w - 1) /\
     (Tsx.total w <= targetIndex -> wrapped = 0) /\
     (0 <= targetIndex < Tsx.total w -> wrapped = targetIndex) /\
     (-1 <= targetIndex <= Tsx.total w -> wrapped = targetIndex mod Tsx.total w) /\
     (wrapped <> Tsx.activeIndex w ->
      Tsx.activeIndex (Tsx.goTo targetIndex cause w) = wrapped /\
      Tsx.console (Tsx.goTo targetIndex cause w) =
      Tsx.console w ++
        [mkUIEvent "carousel_slide_change" NAVIGATE
           [("from", MNum (Tsx.activeIndex w)); ("to", MNum wrapped);
            ("cause", MStr (Tsx.cause_name cause))]]) /\
     (wrapped = Tsx.activeIndex w -> Tsx.goTo targetIndex cause w = w))
    /\
    (0 < Jsx.total j ->
     let clamped := Jsx.clampIndex (Jsx.total j) targetIndex in
     (targetIndex < 0 -> clamped = 0) /\
     (Jsx.total j <= targetIndex -> clamped = Jsx.total j - 1) /\
     (0 <= targetIndex < Jsx.total j -> clamped = targetIndex) /\
     (clamped <> Jsx.activeIndex j ->
      Jsx.activeIndex (Jsx.goTo targetIndex j) = clamped /\
      Jsx.console (Jsx.goTo targetIndex j) =
      Jsx.console j ++
        [createAuditEvent "INTERACT" "Carousel"
           [("interaction", MStr "slide_change");
            ("beforeIndex", MNum (Jsx.activeIndex j));
            ("afterIndex", MNum clamped);
            ("totalSlides", MNum (Jsx.total j))]
           (Jsx.userId j)]) /\
     (clamped = Jsx.activeIndex j -> Jsx.goTo targetIndex j = j)).
Proof.
  intros w j targetIndex cause. split.
  - intros Hn wrapped.
    destruct (tsx_clampIndex_cases (Tsx.total w) targetIndex) as (Hneg & Hbig & Hin).
    repeat split.
    + exact Hneg.
    + intros. apply Hbig; lia.
    + exact Hin.
    + now apply tsx_clampIndex_mod.
    + now apply tsx_goTo_console_changed.
    + apply tsx_goTo_same.
  - intros Hn clamped. subst clamped. repeat split.
    + unfold Jsx.clampIndex. lia.
    + unfold Jsx.clampIndex. lia.
    + unfold Jsx.clampIndex. lia.
    + now apply jsx_goTo_console_changed.
    + apply jsx_goTo_same.
Qed.

Lemma C1_goTo_witness :
  (0 < Tsx.total demoTsx /\ 0 < Jsx.total demoJsx) /\
  Tsx.activeIndex (Tsx.goTo 3 Tsx.Arrow (Tsx.goTo 2 Tsx.Dot demoTsx)) = 0.
Proof.
  split.
  - split; vm_compute; reflexivity.
  - assert (Hn : 0 < Tsx.total (Tsx.goTo 2 Tsx.Dot demoTsx)) by (vm_compute; reflexivity).
    destruct (C1_goTo_wraps_one_step_and_logs_changes
                (Tsx.goTo 2 Tsx.Dot demoTsx) demoJsx 3 Tsx.Arrow) as [Ht _].
    destruct (Ht Hn) as (_ & _ & _ & _ & Hchg & _).
    apply Hchg. vm_compute. intros H; discriminate H.
Defined.

(** C2, as stated, fails in the pixel-drag carousel: three calls of
    [next] from index 0 of 3 slides end at index 2. *)
Lemma C2_next_does_not_cycle_in_jsx :
  Jsx.activeIndex demoJsx = 0
  /\ Jsx.activeIndex (Nat.iter (length (Jsx.slides demoJsx)) Jsx.next demoJsx) = 2.
Proof. split; vm_compute; reflexivity. Qed.

(** C2 (amended).  With [N > 0] slides and [activeIndex] in [0, N-1]:
    in the autoplay carousel [N] calls of [next] return [activeIndex] to
    its original value; in the pixel-drag carousel [next] stops at the
    last slide, so [N] calls of [next] end at [N - 1] from every start. *)
Theorem C2_next_N_times :
  forall (w : Tsx.World) (cause : Tsx.Cause) (j : Jsx.World),
    (0 <= Tsx.activeIndex w < Tsx.total w ->
     Tsx.activeIndex (Nat.iter (length (Tsx.slides w)) (Tsx.next cause) w)
     = Tsx.activeIndex w)
    /\
    (0 <= Jsx.activeIndex j < Jsx.total j ->
     Jsx.activeIndex (Nat.iter (length (Jsx.slides j)) Jsx.next j)
     = Jsx.total j - 1).
Proof.
  intros w cause j. split; intros Hr.
  - rewrite tsx_iter_next_index by assumption.
    fold (Tsx.total w).
    rewrite <- (Z.mul_1_l (Tsx.total w)) at 1.
    rewrite Z.mod_add by lia. now apply Z.mod_small.
  - rewrite jsx_iter_next_index by assumption.
    fold (Jsx.total j). lia.
Qed.

Lemma C2_next_N_times_witness :
  (0 <= Tsx.activeIndex (Tsx.next Tsx.Kbd demoTsx) < Tsx.total (Tsx.next Tsx.Kbd demoTsx)
   /\ 0 <= Jsx.activeIndex demoJsx < Jsx.total demoJsx)
  /\ Tsx.activeIndex (Nat.iter 3 (Tsx.next Tsx.Auto) (Tsx.next Tsx.Kbd demoTsx)) = 1
  /\ Jsx.activeIndex (Nat.iter 3 Jsx.next demoJsx) = 2.
Proof.
  assert (Hr : 0 <= Tsx.activeIndex (Tsx.next Tsx.Kbd demoTsx)
               < Tsx.total (Tsx.next Tsx.Kbd demoTsx))
    by (vm_compute; split; [intros H; discriminate H | reflexivity]).
  assert (Hj : 0 <= Jsx.activeIndex demoJsx < Jsx.total demoJsx)
    by (vm_compute; split; [intros H; discriminate H | reflexivity]).
  destruct (C2_next_N_times (Tsx.next Tsx.Kbd demoTsx) Tsx.Auto demoJsx) as [Ht Hx].
  split; [split; assumption|]. split; [exact (Ht Hr) | exact (Hx Hj)].
Defined.

(** C5.  With [N > 0] slides and [activeIndex] in [0, N-1], after every
    call of a finite sequence of [next] and [previous] calls the
    [activeIndex] is in [0, N-1]; this holds in both carousels. *)
Theorem C5_index_stays_in_range :
  forall (w : Tsx.World) (calls : list (NavCall * Tsx.Cause))
         (j : Jsx.World) (jcalls : list NavCall),
    (0 <= Tsx.activeIndex w < Tsx.total w ->
     Forall (fun w' => 0 <= Tsx.activeIndex w' < Tsx.total w) (tsxTrace calls w))
    /\
    (0 <= Jsx.activeIndex j < Jsx.total j ->
     Forall (fun j' => 0 <= Jsx.activeIndex j' < Jsx.total j) (jsxTrace jcalls j)).
Proof.
  intros w calls j jcalls. split; intros Hr.
  - apply tsxTrace_range; [reflexivity | lia].
  - apply jsxTrace_range; [reflexivity | lia].
Qed.

Lemma C5_index_stays_in_range_witness :
  (0 <= Tsx.activeIndex demoTsx < Tsx.total demoTsx
   /\ 0 <= Jsx.activeIndex demoJsx < Jsx.total demoJsx)
  /\ Forall (fun w' => 0 <= Tsx.activeIndex w' < Tsx.total demoTsx)
       (tsxTrace [(CallPrev, Tsx.Arrow); (CallNext, Tsx.Kbd); (CallNext, Tsx.Swipe)] demoTsx)
  /\ Forall (fun j' => 0 <= Jsx.activeIndex j' < Jsx.total demoJsx)
       (jsxTrace [CallPrev; CallNext; CallNext; CallNext] demoJsx).
Proof.
  assert (Hr : 0 <= Tsx.activeIndex demoTsx < Tsx.total demoTsx)
    by (vm_compute; split; [intros H; discriminate H | reflexivity]).
  assert (Hj : 0 <= Jsx.activeIndex demoJsx < Jsx.total demoJsx)
    by (vm_compute; split; [intros H; discriminate H | reflexivity]).
  destruct (C5_index_stays_in_range demoTsx
              [(CallPrev, Tsx.Arrow); (CallNext, Tsx.Kbd); (CallNext, Tsx.Swipe)]
              demoJsx [CallPrev; CallNext; CallNext; CallNext]) as [Ht Hx].
  split; [split; assumption|]. split; [exact (Ht Hr) | exact (Hx Hj)].
Defined.

(** C6.  Construction of the autoplay carousel fails (the validation
    throws, the error the specification calls InvalidConfiguration) when
    the slide collection is empty, and when autoplay is enabled with an
    interval that is not positive; with slides and the default autoplay
    it succeeds.  On a collection of [N > 0] slides [goTo] accepts every
    index: a negative one lands on [N - 1], one of [N] or more on [0],
    and the result is always an index of the collection. *)
Theorem C6_invalid_configuration_and_tolerant_goTo :
  forall (slides : list Tsx.Slide) (autoplayProp : option Tsx.AutoplayConfig)
         (matches : bool) (ms : Z) (w : Tsx.World) (index : Z) (cause : Tsx.Cause),
    Tsx.mount [] autoplayProp matches = inl Tsx.SlidesRequired /\
    (ms <= 0 ->
     exists e : Tsx.InvalidConfiguration,
       Tsx.mount slides
         (Some {| Tsx.enabled := Some true; Tsx.intervalMs := Some ms |}) matches
       = inl e) /\
    (slides <> [] -> ms <= 0 ->
     Tsx.mount slides
       (Some {| Tsx.enabled := Some true; Tsx.intervalMs := Some ms |}) matches
     = inl Tsx.IntervalNotPositive) /\
    (slides <> [] ->
     exists w0 : Tsx.World, Tsx.mount slides None matches = inr w0) /\
    (0 < Tsx.total w ->
     0 <= Tsx.activeIndex (Tsx.goTo index cause w) < Tsx.total w /\
     (index < 0 -> Tsx.activeIndex (Tsx.goTo index cause w) = Tsx.total w - 1) /\
     (Tsx.total w <= index -> Tsx.activeIndex (Tsx.goTo index cause w) = 0)).
Proof.
  intros slides autoplayProp matches ms w index cause.
  split; [reflexivity|].
  assert (Hbad : slides <> [] -> ms <= 0 ->
                 Tsx.mount slides
                   (Some {| Tsx.enabled := Some true; Tsx.intervalMs := Some ms |})
                   matches = inl Tsx.IntervalNotPositive).
  { intros Hs Hms. unfold Tsx.mount, Tsx.validate.
    destruct slides as [|s0 rest]; [congruence|]. simpl.
    destruct (Z.leb_spec ms 0); [reflexivity | lia]. }
  split; [|split; [exact Hbad|split]].
  - intros Hms. destruct slides as [|s0 rest].
    + exists Tsx.SlidesRequired. reflexivity.
    + exists Tsx.IntervalNotPositive. now apply Hbad.
  - intros Hs. unfold Tsx.mount, Tsx.validate.
    destruct slides as [|s0 rest]; [congruence|]. simpl. eauto.
  - intros Hn. rewrite tsx_goTo_activeIndex.
    destruct (tsx_clampIndex_cases (Tsx.total w) index) as (Hneg & Hbig & _).
    split; [now apply tsx_clampIndex_range|].
    split; [exact Hneg|]. intros. apply Hbig; lia.
Qed.

Lemma C6_invalid_configuration_witness :
  (-5 <= 0 /\ demoSlides <> [] /\ 0 < Tsx.total demoTsx) /\
  Tsx.mount demoSlides
    (Some {| Tsx.enabled := Some true; Tsx.intervalMs := Some (-5) |}) false
  = inl Tsx.IntervalNotPositive /\
  Tsx.activeIndex (Tsx.goTo 7 Tsx.Dot demoTsx) = 0.
Proof.
  assert (H5 : -5 <= 0) by lia.
  assert (Hs : demoSlides <> []) by discriminate.
  assert (Hn : 0 < Tsx.total demoTsx) by (vm_compute; reflexivity).
  assert (H7 : Tsx.total demoTsx <= 7) by (vm_compute; intros H; discriminate H).
  destruct (C6_invalid_configuration_and_tolerant_goTo
              demoSlides None false (-5) demoTsx 7 Tsx.Dot)
    as (_ & _ & Hbad & _ & Hgo).
  split; [auto|]. split.
  - exact (Hbad Hs H5).
  - destruct (Hgo Hn) as (_ & _ & Hbig). exact (Hbig H7).
Defined.

(** C7, as stated, fails: with 3 slides a start index of 5 gives the
    initial index 0, where clamp(5, 0, 2) is 2. *)
Lemma C7_start_index_is_not_clamped :
  Jsx.activeIndex (Jsx.mount demoJsSlides (Some (Jsx.Finite 5)) None 300)
  <> spec_clamp 5 0 (Z.of_nat (length demoJsSlides) - 1).
Proof. vm_compute. intros H; discriminate H. Qed.

(** C7 (amended).  With [N > 0] slides the initial [activeIndex] is the
    requested start index when that is an index of the collection, and 0
    otherwise (negative, [N] or more, not a finite number, or absent);
    this is clamp(start, 0, N-1) for every start index below [N]. *)
Theorem C7_initial_index_in_range_or_zero :
  forall (slides : list Slides.CarouselSlide) (z : Z) (uid : option string) (sw : Z),
    0 < Z.of_nat (length slides) ->
    let N := Z.of_nat (length slides) in
    let start := Jsx.activeIndex (Jsx.mount slides (Some (Jsx.Finite z)) uid sw) in
    (0 <= z < N -> start = z) /\
    (z < 0 -> start = 0) /\
    (N <= z -> start = 0) /\
    (z < N -> start = spec_clamp z 0 (N - 1)) /\
    Jsx.activeIndex (Jsx.mount slides (Some Jsx.NotFinite) uid sw) = 0 /\
    Jsx.activeIndex (Jsx.mount slides None uid sw) = 0.
Proof.
  intros slides z uid sw Hn N start. subst N start.
  unfold Jsx.mount, spec_clamp, Jsx.initialIndex. simpl.
  destruct (Z.geb_spec z 0); destruct (Z.ltb_spec z (Z.of_nat (length slides)));
    simpl; repeat split; intros; try lia;
    now destruct (0 <? Z.of_nat (length slides)).
Qed.

Lemma C7_initial_index_witness :
  0 < Z.of_nat (length demoJsSlides) /\
  Jsx.activeIndex (Jsx.mount demoJsSlides (Some (Jsx.Finite 2)) None 300) = 2.
Proof.
  assert (Hn : 0 < Z.of_nat (length demoJsSlides)) by (vm_compute; reflexivity).
  split; [exact Hn|].
  destruct (C7_initial_index_in_range_or_zero demoJsSlides 2 None 300 Hn) as (Hin & _).
  apply Hin. vm_compute. split; [intros H; discriminate H | reflexivity].
Defined.




(** C10.  [validateSlides] returns the empty array for the empty array:
    the single fallback slide is returned only for an input that is not
    an array, so the result may be empty.  For an array, the elements
    that are not objects are dropped: exactly the objects (arrays
    included) are kept, in order, and the result has one slide for each.
    The slide at position [i] is made from the element kept at position
    [i], field by field: a title, description, image or alt given as a
    string that is not blank is kept, without the white space at its two
    ends, an id given as such a string is kept as it is, and a field
    that is missing, not a string or blank gets its default (the id
    slide-[i], Untitled, No description provided.,
    /images/placeholder.jpg, and the title followed by image).  So every
    slide of the result has fields id, title, description, image and alt
    that are strings and not empty. *)
Theorem C10_validateSlides :
  forall (v : Slides.JsValue) (items : list Slides.JsValue),
    Slides.validateSlides (Slides.JArr []) = [] /\
    (Slides.isArray v = false -> Slides.validateSlides v = [Slides.fallback]) /\
    (Slides.keep v = true <->
     (exists fields, v = Slides.JObj fields) \/ (exists l, v = Slides.JArr l)) /\
    length (Slides.validateSlides (Slides.JArr items))
    = length (List.filter Slides.keep items) /\
    (length (Slides.validateSlides (Slides.JArr items)) <= length items)%nat /\
    (forall (i : nat) (o : Slides.JsValue),
       List.filter Slides.keep items !! i = Some o ->
       exists s, Slides.validateSlides (Slides.JArr items) !! i = Some s /\
                 Slides.slideSpec i o s) /\
    Forall Slides.wellFormed (Slides.validateSlides (Slides.JArr items)).
Proof.
  intros v items. split; [reflexivity|]. split.
  { destruct v; simpl; intros H; try reflexivity; discriminate H. }
  split; [apply keep_object|].
  assert (Hlen : length (Slides.validateSlides (Slides.JArr items))
                 = length (List.filter Slides.keep items))
    by (simpl; apply length_imap).
  split; [exact Hlen|]. split; [rewrite Hlen; apply List.filter_length_le|]. split.
  - intros i o Ho. exists (Slides.sanitize i o). split; [|apply sanitize_spec].
    simpl. rewrite list_lookup_imap, Ho. reflexivity.
  - simpl. apply Forall_imap_all. apply sanitize_wellFormed.
Qed.

Lemma C10_validateSlides_witness :
  Slides.isArray (Slides.JStr "slides") = false /\
  Slides.validateSlides (Slides.JStr "slides") = [Slides.fallback] /\
  Slides.validateSlides
    (Slides.JArr [Slides.JNull; Slides.JNum 3; Slides.JStr "x"; Slides.JUndefined]) = [] /\
  Slides.validateSlides
    (Slides.JArr [Slides.JNum 3;
                  Slides.JObj [("title", Slides.JStr (Slides.utf8 [194; 160]%N));
                               ("image", Slides.JStr "  /images/a.jpg ");
                               ("alt", Slides.JNum 7)]])
  = [ {| Slides.id := "slide-0"; Slides.title := "Untitled";
         Slides.description := "No description provided.";
         Slides.image := "/images/a.jpg"; Slides.alt := "Untitled image" |} ].
Proof.
  split; [reflexivity|]. split; [|split].
  - destruct (C10_validateSlides (Slides.JStr "slides") []) as (_ & Hfb & _).
    apply Hfb. reflexivity.
  - reflexivity.
  - vm_compute. reflexivity.
Defined.

(** C8.  In every world a run of the autoplay carousel can reach: when
    the carousel is unmounted, or paused, or effective enablement
    (enabled and no reduced-motion preference) is false, no autoplay
    timer is pending, so the elapsing of any earlier interval does
    nothing; the unmount cancels the pending timer, and after it no event
    at all is written, whatever happens next; and while a timer is armed,
    its firing runs [next('auto')], followed by the render. *)
Theorem C8_autoplay_timer_cancelled :
  forall (w : Tsx.World),
    Tsx.reachable w ->
    (Tsx.cfg_enabled w = true <->
     Tsx.enabled (Tsx.autoplay w) = Some true /\ Tsx.reduced w = false) /\
    (Tsx.mounted w = false \/ Tsx.isPaused w = true \/ Tsx.cfg_enabled w = false ->
     Tsx.timers w = ∅ /\
     forall tid, Tsx.step (Tsx.TimerFire tid) w = w) /\
    (Tsx.mounted (Tsx.step Tsx.Unmount w) = false /\
     Tsx.timers (Tsx.step Tsx.Unmount w) = ∅ /\
     forall evs,
       Tsx.console (Tsx.run evs (Tsx.step Tsx.Unmount w))
       = Tsx.console (Tsx.step Tsx.Unmount w)) /\
    (forall tid c, Tsx.timers w !! tid = Some c ->
     let w1 := Tsx.set_timers (delete tid (Tsx.timers w)) w in
     Tsx.step (Tsx.TimerFire tid) w = Tsx.settle w1 (Tsx.next Tsx.Auto w1)).
Proof.
  intros w Hreach. pose proof (reachable_inv w Hreach) as Hinv.
  split; [|split; [|split]].
  - unfold Tsx.cfg_enabled.
    destruct (Tsx.enabled (Tsx.autoplay w)) as [[|]|]; destruct (Tsx.reduced w); simpl;
      intuition congruence.
  - intros Hoff. pose proof (no_pending_timer w Hinv Hoff) as He.
    split; [exact He|]. intros tid. simpl. now rewrite He, lookup_empty.
  - assert (Hm : Tsx.mounted (Tsx.step Tsx.Unmount w) = false).
    { simpl. destruct (Tsx.mounted w) eqn:E; [reflexivity | exact E]. }
    assert (He : Tsx.timers (Tsx.step Tsx.Unmount w) = ∅).
    { apply no_pending_timer; [now apply step_inv | now left]. }
    split; [exact Hm|]. split; [exact He|].
    intros evs. now rewrite run_unmounted.
  - intros tid c Hl w1. simpl. rewrite Hl.
    destruct Hinv as [_ Hs]. destruct (Hs tid c Hl) as (_ & _ & _ & Hm & Hc & _).
    rewrite Hm. fold w1. unfold Tsx.next. subst c. reflexivity.
Qed.

Lemma C8_autoplay_timer_witness :
  Tsx.reachable (Tsx.run [Tsx.TimerFire 1] demoMounted) /\
  Tsx.timers (Tsx.run [Tsx.TimerFire 1] demoMounted) !! 2 = Some 1 /\
  Tsx.timers (Tsx.step Tsx.Unmount (Tsx.run [Tsx.TimerFire 1] demoMounted)) = ∅ /\
  Tsx.activeIndex (Tsx.step (Tsx.TimerFire 2) (Tsx.run [Tsx.TimerFire 1] demoMounted)) = 2.
Proof.
  assert (Hreach : Tsx.reachable (Tsx.run [Tsx.TimerFire 1] demoMounted)).
  { exists demoSlides, None, false, demoMounted, [Tsx.TimerFire 1].
    split; vm_compute; reflexivity. }
  assert (Hl : Tsx.timers (Tsx.run [Tsx.TimerFire 1] demoMounted) !! 2 = Some 1)
    by (vm_compute; reflexivity).
  destruct (C8_autoplay_timer_cancelled _ Hreach) as (_ & _ & (_ & Hclr & _) & Hfire).
  split; [exact Hreach|]. split; [exact Hl|]. split; [exact Hclr|].
  rewrite (Hfire 2 1 Hl). reflexivity.
Defined.

(** C4, as stated, fails: two calls of [onImageError] for the same slide
    id write two error events, and so do two [error] events on the image
    of a mounted carousel that come before the render. *)
Lemma C4_marking_twice_logs_twice :
  length (Tsx.imageErrorsFor "a"
            (Tsx.console (Tsx.onImageError "a" (Tsx.onImageError "a" demoTsx))))
  = 2%nat /\
  length (Tsx.imageErrorsFor "a"
            (Tsx.console (Tsx.run [Tsx.ImageError 0; Tsx.ImageError 0] demoMounted)))
  = 2%nat.
Proof. split; vm_compute; reflexivity. Qed.

(** C4 (amended).  Marking a slide's image as failed is idempotent on
    the failed-image state in both carousels.  In the autoplay carousel
    every call of [onImageError] writes one error event, with no test for
    an id that is already marked, and a render that has the mark shows
    the fallback block for every slide with that id.  On a mounted
    carousel the [error] event of the image at a position runs the
    handler as long as the document shows the image, without rendering,
    so that further [error] events before the render write further
    events; it does nothing once the document shows the fallback block.
    The render React scheduled puts the fallback block in place for
    every id an error event was written for, and from then on no error
    event is written for that id, whatever happens.  The slide component
    of the pixel-drag carousel writes no event at all. *)
Theorem C4_image_error_marking :
  forall (w : Tsx.World) (slideId : string) (s : Tsx.Slide) (j : Jsx.World) (pos : nat),
    Tsx.imageErrors (Tsx.onImageError slideId (Tsx.onImageError slideId w))
    = Tsx.imageErrors (Tsx.onImageError slideId w) /\
    Tsx.console (Tsx.onImageError slideId w)
    = Tsx.console w ++
        [mkUIEvent "carousel_image_error" ERROR [("slideId", MStr slideId)]] /\
    (Tsx.id s = slideId ->
     Tsx.renderMedia (Tsx.onImageError slideId w) s = Tsx.FallbackBlock (Tsx.title s)) /\
    (Tsx.mounted w = true -> Tsx.slides w !! pos = Some s ->
     (Tsx.shownMedia w s = Tsx.Img (Tsx.imageSrc s) (Tsx.alt s) ->
      Tsx.step (Tsx.ImageError pos) w = Tsx.onImageError (Tsx.id s) w) /\
     (Tsx.shownMedia w s = Tsx.FallbackBlock (Tsx.title s) ->
      Tsx.step (Tsx.ImageError pos) w = w)) /\
    (Tsx.reachable w -> Tsx.mounted w = true -> Tsx.id s = slideId ->
     Tsx.imageErrorsFor slideId (Tsx.console w) <> [] ->
     Tsx.shownMedia (Tsx.step Tsx.Render w) s = Tsx.FallbackBlock (Tsx.title s)) /\
    (Tsx.reachable w -> Tsx.id s = slideId ->
     Tsx.shownMedia w s = Tsx.FallbackBlock (Tsx.title s) ->
     forall evs,
       Tsx.shownMedia (Tsx.run evs w) s = Tsx.FallbackBlock (Tsx.title s) /\
       Tsx.imageErrorsFor slideId (Tsx.console (Tsx.run evs w))
       = Tsx.imageErrorsFor slideId (Tsx.console w)) /\
    Jsx.onSlideImageError pos (Jsx.onSlideImageError pos j) = Jsx.onSlideImageError pos j /\
    Jsx.console (Jsx.onSlideImageError pos j) = Jsx.console j.
Proof.
  intros w slideId s j pos.
  assert (Hshown : forall w', Tsx.shownMedia w' s = Tsx.FallbackBlock (Tsx.title s)
                              <-> Tsx.marked (Tsx.shown w') (Tsx.id s) = true).
  { intros w'. unfold Tsx.shownMedia, Tsx.renderMedia, Tsx.hasError.
    change (Tsx.imageErrors (Tsx.set_imageErrors (Tsx.shown w') w')) with (Tsx.shown w').
    destruct (Tsx.marked (Tsx.shown w') (Tsx.id s)); split; congruence. }
  split; [simpl; apply insert_insert_eq|]. split; [reflexivity|]. split.
  { intros <-. unfold Tsx.renderMedia, Tsx.hasError, Tsx.marked. simpl.
    now rewrite lookup_insert_eq. }
  split.
  { intros Hm Hs. simpl. rewrite Hm. simpl. rewrite Hs.
    split; intros E; now rewrite E. }
  split.
  { intros Hreach Hm <- Hev. apply Hshown.
    destruct (reachable_errorInv w Hreach (Tsx.id s)) as [Hmark Hsub].
    specialize (Hmark Hev). simpl. rewrite Hm. simpl.
    destruct (decide _) as [E|_].
    - rewrite E. unfold Tsx.marked. now rewrite Hmark.
    - unfold Tsx.render, Tsx.marked. simpl. now rewrite Hmark. }
  split.
  { intros Hreach <- Hfb evs. apply Hshown in Hfb.
    pose proof (reachable_errorInv w Hreach) as Hinv. split.
    - apply Hshown. clear Hreach. revert w Hfb Hinv.
      induction evs as [|ev evs IH]; intros w Hfb Hinv; [exact Hfb|].
      simpl. apply IH; [apply (step_marked ev w _ Hinv Hfb) | now apply step_errorInv].
    - now apply run_marked. }
  split; [|reflexivity].
  unfold Jsx.onSlideImageError, Jsx.set_slideError. simpl.
  now rewrite list_insert_insert_eq.
Qed.

Lemma C4_image_error_marking_witness :
  let w := Tsx.run [Tsx.ImageError 1; Tsx.ImageError 1; Tsx.Render] demoMounted in
  (Tsx.reachable w /\ Tsx.id (demoSlide "b") = "b" /\
   Tsx.shownMedia w (demoSlide "b") = Tsx.FallbackBlock (Tsx.title (demoSlide "b"))) /\
  length (Tsx.imageErrorsFor "b" (Tsx.console w)) = 2%nat /\
  Tsx.imageErrorsFor "b"
    (Tsx.console (Tsx.run [Tsx.ImageError 1; Tsx.ClickNext; Tsx.ImageError 1] w))
  = Tsx.imageErrorsFor "b" (Tsx.console w).
Proof.
  intros w.
  assert (Hreach : Tsx.reachable w).
  { exists demoSlides, None, false, demoMounted,
      [Tsx.ImageError 1; Tsx.ImageError 1; Tsx.Render].
    split; vm_compute; reflexivity. }
  assert (Hid : Tsx.id (demoSlide "b") = "b") by reflexivity.
  assert (Hfb : Tsx.shownMedia w (demoSlide "b")
                = Tsx.FallbackBlock (Tsx.title (demoSlide "b")))
    by (vm_compute; reflexivity).
  destruct (C4_image_error_marking w "b" (demoSlide "b") demoJsx 0%nat)
    as (_ & _ & _ & _ & _ & Hstay & _).
  split; [repeat split; assumption|]. split; [vm_compute; reflexivity|].
  exact (proj2 (Hstay Hreach Hid Hfb [Tsx.ImageError 1; Tsx.ClickNext; Tsx.ImageError 1])).
Defined.

(** C9 fails on the autoplay carousel.  On a console whose [log] method
    raises, [logUIEvent] raises, and with it the pause handlers and the
    image error handler, which call it with no guard: the exception
    reaches whoever called them.  [goTo] does not call [logUIEvent] in
    its own body: on every console it returns, having queued an updater,
    and so does [onKeyDown], whose try block only calls [next] or
    [prev]: its catch block is not entered.  The updater raises when
    React runs it to compute the state and the index changes; no
    try/catch of the component is around that.  The sibling logger
    [logAuditEvent] of the pixel-drag carousel does swallow the failure
    of its console call: there the updater of [goTo] returns, the index
    updated and nothing written. *)
Theorem C9_logUIEvent_failure_reaches_the_caller :
  logUIEvent_on broken_log_console "carousel_hover_pause" READ [("pause", MBool true)]
  = Raised "console.log failed" /\
  Tsx.handleHover_on broken_log_console true demoMounted = Raised "console.log failed" /\
  Tsx.handleFocus_on broken_log_console true demoMounted = Raised "console.log failed" /\
  Tsx.onImageError_on broken_log_console "a" demoMounted = Raised "console.log failed" /\
  (forall (c : Console) (index : Z) (cause : Tsx.Cause) (w : Tsx.World),
     Tsx.goTo_on c index cause w
     = Returned {| Tsx.q_next := Tsx.clampIndex (Tsx.total w) index;
                   Tsx.q_cause := cause |}) /\
  (forall (c : Console) (key : string) (w : Tsx.World),
     exists q, Tsx.onKeyDown_on c key w = Returned (w, q)) /\
  Tsx.onKeyDown_on broken_log_console "ArrowRight" demoMounted
  = Returned (demoMounted, Some {| Tsx.q_next := 1; Tsx.q_cause := Tsx.Kbd |}) /\
  (forall (q : Tsx.Queued) (w : Tsx.World),
     Tsx.goToUpdater_on broken_log_console q w
     = if Tsx.activeIndex w =? Tsx.q_next q
       then Returned (Tsx.set_activeIndex (Tsx.q_next q) w)
       else Raised "console.log failed") /\
  Jsx.goTo_on broken_info_console 1 demoJsx = Returned 1 /\
  Jsx.goToUpdater_on broken_info_console 1 demoJsx
  = Returned (Jsx.set_activeIndex 1 demoJsx).
Proof.
  split; [reflexivity|]. split; [reflexivity|]. split; [reflexivity|].
  split; [reflexivity|]. split; [reflexivity|].
  split; [apply onKeyDown_on_returns|]. split; [vm_compute; reflexivity|].
  split; [intros q w; now apply goToUpdater_on_raises|].
  split; vm_compute; reflexivity.
Qed.

End Claims.

(* ===================================================================== *)
(** ** Further properties of the code                                     *)
(* ===================================================================== *)

Section Further.
Import Audit.

(** *** Handlers and effects extend the audit trail consistently *)

Lemma replay_app (l1 l2 : list AuditEvent) :
  forall index : Z,
    Tsx.replay index (l1 ++ l2)
    = match Tsx.replay index l1 with
      | Some index' => Tsx.replay index' l2
      | None => None
      end.
Proof.
  induction l1 as [|e l1 IH]; intros index; [reflexivity|].
  simpl. destruct (String.eqb _ _); [|apply IH].
  destruct (metadata e) as [|[k1 [a| |]] [|[k2 [b| |]] [|m3 [|m4 rest]]]]; try reflexivity.
  destruct ((a =? index) && negb (b =? a)); [apply IH | reflexivity].
Qed.

Lemma advances_refl (w : Tsx.World) : Tsx.advances w w.
Proof.
  split; [reflexivity|]. split; [now left|].
  exists []. split; [now rewrite app_nil_r | reflexivity].
Qed.

Lemma advances_trans (w1 w2 w3 : Tsx.World) :
  Tsx.advances w1 w2 -> Tsx.advances w2 w3 -> Tsx.advances w1 w3.
Proof.
  intros (Hs1 & Hi1 & l1 & Hc1 & Hr1) (Hs2 & Hi2 & l2 & Hc2 & Hr2).
  assert (Ht : Tsx.total w2 = Tsx.total w1) by (unfold Tsx.total; now rewrite Hs1).
  split; [congruence|]. split.
  - destruct Hi2 as [Hi2 | [i Hi2]].
    + rewrite Hi2. exact Hi1.
    + right. exists i. now rewrite Hi2, Ht.
  - exists (l1 ++ l2). split.
    + now rewrite Hc2, Hc1, app_assoc.
    + now rewrite replay_app, Hr1.
Qed.

(** A world that differs from [w] in neither slides, index nor console. *)
Lemma advances_same (w w' : Tsx.World) :
  Tsx.slides w' = Tsx.slides w -> Tsx.activeIndex w' = Tsx.activeIndex w ->
  Tsx.console w' = Tsx.console w -> Tsx.advances w w'.
Proof.
  intros Hs Hi Hc. split; [assumption|]. split; [now left|].
  exists []. split; [now rewrite app_nil_r | now rewrite Hi].
Qed.

Lemma logUI_advances (name : string) (act : AuditAction) (md : Metadata) (w : Tsx.World) :
  String.eqb name "carousel_slide_change" = false ->
  Tsx.advances w (Tsx.logUI name act md w).
Proof.
  intros Hname. split; [reflexivity|]. split; [now left|].
  exists [mkUIEvent name act md]. split; [reflexivity|].
  simpl. now rewrite Hname.
Qed.

Lemma goTo_advances (i : Z) (c : Tsx.Cause) (w : Tsx.World) :
  Tsx.advances w (Tsx.goTo i c w).
Proof.
  unfold Tsx.goTo.
  destruct (Z.eqb_spec (Tsx.activeIndex w) (Tsx.clampIndex (Tsx.total w) i)) as [E|E]; simpl.
  - split; [reflexivity|]. split; [right; now exists i|].
    exists []. split; [now rewrite app_nil_r|]. simpl. now rewrite E.
  - split; [reflexivity|]. split; [right; now exists i|].
    eexists. split; [reflexivity|]. simpl.
    rewrite Z.eqb_refl. simpl.
    destruct (Z.eqb_spec (Tsx.clampIndex (Tsx.total w) i) (Tsx.activeIndex w)); [congruence|].
    reflexivity.
Qed.

Ltac unfold_all :=
  unfold Tsx.handleHover, Tsx.handleFocus, Tsx.onKeyDown, Tsx.onPrevClick,
    Tsx.onNextClick, Tsx.onDotClick, Tsx.onTouchStart, Tsx.onTouchEnd,
    Tsx.onImageError, Tsx.touchPause, Tsx.touchResume, Tsx.next, Tsx.prev,
    Tsx.goTo, Tsx.initEffect, Tsx.logUI.

Ltac calm_tac :=
  unfold Tsx.calm, Tsx.eventsNamed; unfold_all;
  repeat case_match; simpl; unfold logUIEvent;
  rewrite ?List.filter_app; simpl; rewrite ?app_nil_r; split; reflexivity.

Ltac log_step := eapply advances_trans; [| apply logUI_advances; reflexivity].

Ltac peel :=
  match goal with
  | |- Tsx.advances _ (_ _ ?inner) =>
      apply advances_trans with (w2 := inner); [|now apply advances_same]
  end.

Lemma touchPause_advances (w : Tsx.World) : Tsx.advances w (Tsx.touchPause w).
Proof.
  unfold Tsx.touchPause. destruct (Tsx.cfg_enabled w); [|apply advances_refl].
  log_step. now apply advances_same.
Qed.

Lemma touchResume_advances (w : Tsx.World) : Tsx.advances w (Tsx.touchResume w).
Proof.
  unfold Tsx.touchResume. destruct (Tsx.cfg_enabled w); [|apply advances_refl].
  log_step. now apply advances_same.
Qed.

Lemma handleHover_ok (p : bool) (w : Tsx.World) : Tsx.handlerOK w (Tsx.handleHover p w).
Proof.
  split; [apply handleHover_frame|]. split; [calm_tac|].
  unfold Tsx.handleHover. destruct p; log_step; now apply advances_same.
Qed.

Lemma handleFocus_ok (p : bool) (w : Tsx.World) : Tsx.handlerOK w (Tsx.handleFocus p w).
Proof.
  split; [apply handleFocus_frame|]. split; [calm_tac|].
  unfold Tsx.handleFocus. destruct p; log_step; now apply advances_same.
Qed.

Lemma onKeyDown_ok (key : string) (w : Tsx.World) : Tsx.handlerOK w (Tsx.onKeyDown key w).
Proof.
  split; [apply onKeyDown_frame|]. split; [calm_tac|].
  unfold Tsx.onKeyDown, Tsx.next, Tsx.prev.
  repeat case_match; first [apply goTo_advances | apply advances_refl].
Qed.

Lemma onPrevClick_ok (w : Tsx.World) : Tsx.handlerOK w (Tsx.onPrevClick w).
Proof.
  split; [apply onPrevClick_frame|]. split; [calm_tac|].
  unfold Tsx.onPrevClick. log_step. apply goTo_advances.
Qed.

Lemma onNextClick_ok (w : Tsx.World) : Tsx.handlerOK w (Tsx.onNextClick w).
Proof.
  split; [apply onNextClick_frame|]. split; [calm_tac|].
  unfold Tsx.onNextClick. log_step. apply goTo_advances.
Qed.

Lemma onDotClick_ok (i : Z) (w : Tsx.World) : Tsx.handlerOK w (Tsx.onDotClick i w).
Proof.
  split; [apply onDotClick_frame|]. split; [calm_tac|].
  unfold Tsx.onDotClick. log_step. apply goTo_advances.
Qed.

Lemma onTouchStart_ok (x y : Z) (w : Tsx.World) : Tsx.handlerOK w (Tsx.onTouchStart x y w).
Proof.
  split; [apply onTouchStart_frame|]. split; [calm_tac|].
  unfold Tsx.onTouchStart.
  apply advances_trans with (w2 := Tsx.touchPause w); [apply touchPause_advances|].
  now apply advances_same.
Qed.

Lemma onTouchEnd_ok (x y : Z) (w : Tsx.World) : Tsx.handlerOK w (Tsx.onTouchEnd x y w).
Proof.
  split; [apply onTouchEnd_frame|]. split.
  - unfold Tsx.onTouchEnd. destruct (Tsx.tracking (Tsx.swipe w)); [|calm_tac].
    destruct (Tsx.swipeAction _ _ _); calm_tac.
  - unfold Tsx.onTouchEnd.
    match goal with
    | |- Tsx.advances _ (Tsx.set_swipe _ ?inner) =>
        apply advances_trans with (w2 := inner); [|now apply advances_same]
    end.
    destruct (Tsx.tracking (Tsx.swipe w)); [|apply advances_refl].
    eapply advances_trans; [|apply touchResume_advances].
    destruct (Tsx.swipeAction _ _ _);
      first [apply goTo_advances | apply advances_refl].
Qed.

Lemma onImageError_ok (slideId : string) (w : Tsx.World) :
  Tsx.handlerOK w (Tsx.onImageError slideId w).
Proof.
  split; [now repeat split|]. split; [calm_tac|].
  unfold Tsx.onImageError. log_step. now apply advances_same.
Qed.

Lemma set_reduced_ok (b : bool) (w : Tsx.World) : Tsx.handlerOK w (Tsx.set_reduced b w).
Proof.
  split; [apply set_reduced_sameTimers|]. split; [now split | now apply advances_same].
Qed.

Lemma goTo_ok (i : Z) (c : Tsx.Cause) (w : Tsx.World) : Tsx.handlerOK w (Tsx.goTo i c w).
Proof.
  split; [apply goTo_sameTimers|]. split; [calm_tac | apply goTo_advances].
Qed.

(** *** The shape of a step *)

Lemma commit_same (w : Tsx.World) : Tsx.commit w w = Tsx.set_swipe Tsx.fresh_swipe w.
Proof.
  unfold Tsx.commit, Tsx.autoplayDepsChanged, Tsx.initDepsChanged.
  now rewrite !Bool.eqb_reflx, !Z.eqb_refl.
Qed.

Lemma onImageError_inert (slideId : string) (w : Tsx.World) :
  Tsx.inert w (Tsx.onImageError slideId w).
Proof. split; [apply onImageError_ok | now repeat split]. Qed.

Lemma render_inert (w : Tsx.World) : Tsx.inert w (Tsx.render w).
Proof.
  unfold Tsx.render. rewrite commit_same.
  split; [|now repeat split].
  split; [now repeat split|]. split; [now split | now apply advances_same].
Qed.

Lemma handle_shape (ev : Tsx.Event) (w : Tsx.World) :
  (exists w', Tsx.handlerOK w w' /\
              (Tsx.handle ev w = Tsx.settle w w' \/ Tsx.handle ev w = Tsx.commit w w'))
  \/ Tsx.handle ev w = w
  \/ Tsx.handle ev w = Tsx.unmount w
  \/ (exists a, Tsx.validate (Tsx.slides w) a = None /\
                Tsx.handle ev w = Tsx.commit w (Tsx.set_autoplay a w))
  \/ (exists w', Tsx.inert w w' /\ Tsx.handle ev w = w').
Proof.
  destruct ev; simpl.
  - left. eexists. split; [apply handleHover_ok | now left].
  - left. eexists. split; [apply handleFocus_ok | now left].
  - left. eexists. split; [apply onKeyDown_ok | now left].
  - left. eexists. split; [apply onPrevClick_ok | now left].
  - left. eexists. split; [apply onNextClick_ok | now left].
  - destruct (i <? length (Tsx.slides w))%nat; [|now right; left].
    left. eexists. split; [apply onDotClick_ok | now left].
  - left. eexists. split; [apply onTouchStart_ok | now left].
  - left. eexists. split; [apply onTouchEnd_ok | now left].
  - destruct (Tsx.slides w !! pos) as [s|]; [|now right; left].
    destruct (Tsx.shownMedia w s); [|now right; left].
    right; right; right; right. eexists. split; [apply onImageError_inert | reflexivity].
  - left. eexists. split; [apply set_reduced_ok | now left].
  - destruct (Tsx.validate _ _) eqn:E; [now right; right; left|].
    right; right; right; left. eauto.
  - now right; left.
  - now right; right; left.
  - destruct (decide _); [now right; left|].
    right; right; right; right. eexists. split; [apply render_inert | reflexivity].
Qed.

Lemma fire_shape (tid c : Z) (w : Tsx.World) :
  Tsx.timerInv w -> Tsx.timers w !! tid = Some c ->
  let w1 := Tsx.set_timers (delete tid (Tsx.timers w)) w in
  Tsx.timers w1 = ∅ /\ Tsx.mounted w = true /\
  Tsx.step (Tsx.TimerFire tid) w = Tsx.settle w1 (Tsx.goTo (Tsx.activeIndex w + 1) Tsx.Auto w1).
Proof.
  intros Hinv Hl w1. pose proof (fire_clears tid c w Hinv Hl) as Hclr.
  destruct Hinv as [_ Hs]. destruct (Hs tid c Hl) as (_ & _ & _ & Hm & Hc & _).
  split; [exact Hclr|]. split; [exact Hm|].
  simpl. rewrite Hl, Hm. fold w1. now subst c.
Qed.

(** A property that the renders, the unmount and the firing of a timer
    keep is kept by every step, hence holds in every reachable world. *)
Section Preservation.

Variable P : Tsx.World -> Prop.

Hypothesis P_settle :
  forall w w', P w -> Tsx.timerInv w -> Tsx.mounted w = true ->
               Tsx.handlerOK w w' -> P (Tsx.settle w w').
Hypothesis P_commit :
  forall w w', P w -> Tsx.timerInv w -> Tsx.mounted w = true ->
               Tsx.handlerOK w w' -> P (Tsx.commit w w').
Hypothesis P_unmount : forall w, P w -> Tsx.timerInv w -> P (Tsx.unmount w).
Hypothesis P_props :
  forall w a, P w -> Tsx.timerInv w -> Tsx.mounted w = true ->
              Tsx.validate (Tsx.slides w) a = None ->
              P (Tsx.commit w (Tsx.set_autoplay a w)).
Hypothesis P_fire :
  forall w tid c, P w -> Tsx.timerInv w -> Tsx.timers w !! tid = Some c ->
                  P (Tsx.step (Tsx.TimerFire tid) w).
Hypothesis P_inert : forall w w', P w -> Tsx.timerInv w -> Tsx.inert w w' -> P w'.
Hypothesis P_mount :
  forall slides autoplayProp matches w0,
    Tsx.mount slides autoplayProp matches = inr w0 -> P w0.

Lemma step_preserves (ev : Tsx.Event) (w : Tsx.World) :
  P w -> Tsx.timerInv w -> P (Tsx.step ev w).
Proof.
  intros HP Hinv.
  assert (Hother : P (if Tsx.mounted w then Tsx.handle ev w else w)).
  { destruct (Tsx.mounted w) eqn:Hm; [|assumption].
    destruct (handle_shape ev w)
      as [(w' & Hok & [-> | ->]) | [-> | [-> | [(a & Hv & ->) | (w' & Hin & ->)]]]]; auto.
    now apply (P_inert w). }
  destruct ev; try exact Hother.
  destruct (Tsx.timers w !! tid) as [c|] eqn:Hl.
  - now apply (P_fire w tid c).
  - simpl. now rewrite Hl.
Qed.

Lemma run_preserves (evs : list Tsx.Event) :
  forall w, P w -> Tsx.timerInv w -> P (Tsx.run evs w).
Proof.
  induction evs as [|ev evs IH]; intros w HP Hinv; [exact HP|].
  simpl. apply IH; [now apply step_preserves | now apply step_inv].
Qed.

Lemma reachable_preserves (w : Tsx.World) : Tsx.reachable w -> P w.
Proof.
  intros (slides & autoplayProp & matches & w0 & evs & Hm & ->).
  apply run_preserves; [eapply P_mount, Hm | eapply mount_inv, Hm].
Qed.

End Preservation.

(** *** What a render keeps *)

Lemma initEffect_advances (w : Tsx.World) : Tsx.advances w (Tsx.initEffect w).
Proof.
  unfold Tsx.initEffect. destruct (Tsx.cfg_enabled w); now apply logUI_advances.
Qed.

Lemma autoplayEffect_advances (w : Tsx.World) : Tsx.advances w (Tsx.autoplayEffect w).
Proof.
  unfold Tsx.autoplayEffect. destruct (negb _ || _); [now apply advances_same|].
  peel. log_step. now apply advances_same.
Qed.

Lemma autoplayCleanup_advances (w : Tsx.World) : Tsx.advances w (Tsx.autoplayCleanup w).
Proof.
  unfold Tsx.autoplayCleanup. destruct (Tsx.cleanup w); [|apply advances_refl].
  peel.
  destruct (Tsx.timerRef w) as [tid|]; [|apply advances_refl].
  destruct (tid =? 0); [apply advances_refl|].
  log_step. now apply advances_same.
Qed.

Lemma commit_advances (old new : Tsx.World) : Tsx.advances new (Tsx.commit old new).
Proof.
  unfold Tsx.commit. peel.
  destruct (Tsx.autoplayDepsChanged old new), (Tsx.initDepsChanged old new);
    repeat first
      [ apply advances_refl
      | (eapply advances_trans; [|apply autoplayEffect_advances])
      | (eapply advances_trans; [|apply initEffect_advances])
      | (eapply advances_trans; [|apply autoplayCleanup_advances]) ].
Qed.

Lemma settle_advances (old new : Tsx.World) : Tsx.advances new (Tsx.settle old new).
Proof.
  unfold Tsx.settle. destruct (Tsx.stateChanged old new);
    [apply commit_advances | apply advances_refl].
Qed.

Lemma unmount_advances (w : Tsx.World) : Tsx.advances w (Tsx.unmount w).
Proof.
  unfold Tsx.unmount.
  eapply advances_trans; [apply autoplayCleanup_advances | now apply advances_same].
Qed.

(** The state and the props a render finds are those it leaves. *)
Lemma commit_keeps (old new : Tsx.World) :
  Tsx.slides (Tsx.commit old new) = Tsx.slides new /\
  Tsx.autoplay (Tsx.commit old new) = Tsx.autoplay new /\
  Tsx.activeIndex (Tsx.commit old new) = Tsx.activeIndex new /\
  Tsx.isPaused (Tsx.commit old new) = Tsx.isPaused new /\
  Tsx.reduced (Tsx.commit old new) = Tsx.reduced new /\
  Tsx.mounted (Tsx.commit old new) = Tsx.mounted new.
Proof.
  unfold Tsx.commit, Tsx.initEffect, Tsx.autoplayEffect, Tsx.autoplayCleanup.
  repeat case_match; repeat split; simpl; congruence.
Qed.

Lemma unmount_keeps (w : Tsx.World) :
  Tsx.slides (Tsx.unmount w) = Tsx.slides w /\
  Tsx.autoplay (Tsx.unmount w) = Tsx.autoplay w /\
  Tsx.activeIndex (Tsx.unmount w) = Tsx.activeIndex w /\
  Tsx.mounted (Tsx.unmount w) = false.
Proof.
  unfold Tsx.unmount, Tsx.autoplayCleanup.
  repeat case_match; repeat split; simpl; congruence.
Qed.

Lemma step_advances (ev : Tsx.Event) (w : Tsx.World) : Tsx.advances w (Tsx.step ev w).
Proof.
  assert (Hother : Tsx.advances w (if Tsx.mounted w then Tsx.handle ev w else w)).
  { destruct (Tsx.mounted w); [|apply advances_refl].
    destruct (handle_shape ev w)
      as [(w' & (_ & _ & Hadv) & [-> | ->])
         | [-> | [-> | [(a & Hv & ->) | (w' & ((_ & _ & Hadv) & _) & ->)]]]].
    - eapply advances_trans; [exact Hadv | apply settle_advances].
    - eapply advances_trans; [exact Hadv | apply commit_advances].
    - apply advances_refl.
    - apply unmount_advances.
    - eapply advances_trans; [|apply commit_advances]. now apply advances_same.
    - exact Hadv. }
  destruct ev; try exact Hother. simpl.
  destruct (Tsx.timers w !! tid) as [c|]; [|apply advances_refl].
  set (w1 := Tsx.set_timers (delete tid (Tsx.timers w)) w).
  assert (H2 : Tsx.advances w (Tsx.goTo (c + 1) Tsx.Auto w1)).
  { apply advances_trans with (w2 := w1); [now apply advances_same | apply goTo_advances]. }
  destruct (Tsx.mounted w); [|exact H2].
  eapply advances_trans; [exact H2 | apply settle_advances].
Qed.

Lemma run_advances (evs : list Tsx.Event) :
  forall w, Tsx.advances w (Tsx.run evs w).
Proof.
  induction evs as [|ev evs IH]; intros w; [apply advances_refl|].
  simpl. eapply advances_trans; [apply step_advances | apply IH].
Qed.

Lemma mount_advances (slides : list Tsx.Slide) (autoplayProp : option Tsx.AutoplayConfig)
    (matches : bool) (w0 : Tsx.World) :
  Tsx.mount slides autoplayProp matches = inr w0 ->
  Tsx.validate slides (default Tsx.default_autoplay autoplayProp) = None /\
  Tsx.autoplay w0 = default Tsx.default_autoplay autoplayProp /\
  Tsx.advances (Tsx.initial slides (default Tsx.default_autoplay autoplayProp)) w0.
Proof.
  unfold Tsx.mount. set (autoplay := default Tsx.default_autoplay autoplayProp).
  destruct (Tsx.validate slides autoplay) eqn:Hv; [discriminate|].
  intros [= <-]. split; [reflexivity|]. split.
  - unfold Tsx.settle. destruct (Tsx.stateChanged _ _).
    + rewrite (proj1 (proj2 (commit_keeps _ _))).
      unfold Tsx.autoplayEffect, Tsx.initEffect. now repeat case_match.
    + unfold Tsx.autoplayEffect, Tsx.initEffect. now repeat case_match.
  - eapply advances_trans; [|apply settle_advances].
    eapply advances_trans; [|now apply advances_same].
    eapply advances_trans; [apply initEffect_advances | apply autoplayEffect_advances].
Qed.

(** *** The index is always one of the collection *)

Lemma validate_nonempty (slides : list Tsx.Slide) (autoplay : Tsx.AutoplayConfig) :
  Tsx.validate slides autoplay = None -> 0 < Z.of_nat (length slides).
Proof.
  unfold Tsx.validate. destruct slides; simpl; [discriminate | lia].
Qed.

Lemma advances_range (w w' : Tsx.World) :
  Tsx.advances w w' -> 0 <= Tsx.activeIndex w < Tsx.total w ->
  0 <= Tsx.activeIndex w' < Tsx.total w'.
Proof.
  intros (Hs & Hi & _) Hr.
  assert (Ht : Tsx.total w' = Tsx.total w) by (unfold Tsx.total; now rewrite Hs).
  rewrite Ht. destruct Hi as [-> | [i ->]]; [exact Hr|].
  apply tsx_clampIndex_range. lia.
Qed.

Lemma settle_autoplay (old new : Tsx.World) :
  Tsx.autoplay (Tsx.settle old new) = Tsx.autoplay new.
Proof.
  unfold Tsx.settle. destruct (Tsx.stateChanged old new); [|reflexivity].
  apply commit_keeps.
Qed.

Lemma valid_along (w w' : Tsx.World) :
  Tsx.validInv w -> Tsx.autoplay w' = Tsx.autoplay w -> Tsx.advances w w' ->
  Tsx.validInv w'.
Proof.
  intros [Hv Hr] Ha Hadv. split; [|now apply (advances_range w)].
  now rewrite Ha, (proj1 Hadv).
Qed.

Lemma fire_autoplay (tid : Z) (w : Tsx.World) :
  Tsx.autoplay (Tsx.step (Tsx.TimerFire tid) w) = Tsx.autoplay w.
Proof.
  simpl. destruct (Tsx.timers w !! tid) as [c|]; [|reflexivity].
  set (w1 := Tsx.set_timers (delete tid (Tsx.timers w)) w).
  assert (H2 : Tsx.autoplay (Tsx.goTo (c + 1) Tsx.Auto w1) = Tsx.autoplay w).
  { destruct (goTo_sameTimers (c + 1) Tsx.Auto w1) as (-> & _). reflexivity. }
  destruct (Tsx.mounted w); [|exact H2]. now rewrite settle_autoplay.
Qed.

Lemma valid_settle (w w' : Tsx.World) :
  Tsx.validInv w -> Tsx.handlerOK w w' -> Tsx.validInv (Tsx.settle w w').
Proof.
  intros Hv (Hsame & _ & Hadv).
  apply (valid_along w'); [|apply settle_autoplay | apply settle_advances].
  apply (valid_along w); [exact Hv | apply Hsame | exact Hadv].
Qed.

Lemma valid_commit (w w' : Tsx.World) :
  Tsx.validInv w -> Tsx.handlerOK w w' -> Tsx.validInv (Tsx.commit w w').
Proof.
  intros Hv (Hsame & _ & Hadv).
  apply (valid_along w'); [|apply commit_keeps | apply commit_advances].
  apply (valid_along w); [exact Hv | apply Hsame | exact Hadv].
Qed.

Lemma valid_unmount (w : Tsx.World) : Tsx.validInv w -> Tsx.validInv (Tsx.unmount w).
Proof.
  intros Hv.
  apply (valid_along w); [exact Hv | apply unmount_keeps | apply unmount_advances].
Qed.

Lemma valid_props (w : Tsx.World) (a : Tsx.AutoplayConfig) :
  Tsx.validInv w -> Tsx.validate (Tsx.slides w) a = None ->
  Tsx.validInv (Tsx.commit w (Tsx.set_autoplay a w)).
Proof.
  intros [Hv Hr] Ha.
  apply (valid_along (Tsx.set_autoplay a w));
    [|apply commit_keeps | apply commit_advances].
  split; [exact Ha | exact Hr].
Qed.

Lemma valid_fire (tid : Z) (w : Tsx.World) :
  Tsx.validInv w -> Tsx.validInv (Tsx.step (Tsx.TimerFire tid) w).
Proof.
  intros Hv.
  apply (valid_along w); [exact Hv | apply fire_autoplay | apply step_advances].
Qed.

Lemma valid_mount (slides : list Tsx.Slide) (autoplayProp : option Tsx.AutoplayConfig)
    (matches : bool) (w0 : Tsx.World) :
  Tsx.mount slides autoplayProp matches = inr w0 -> Tsx.validInv w0.
Proof.
  intros Hm. destruct (mount_advances _ _ _ _ Hm) as (Hv & Ha & Hadv).
  apply (valid_along (Tsx.initial slides (default Tsx.default_autoplay autoplayProp)));
    [|exact Ha | exact Hadv].
  split; [exact Hv|]. simpl. unfold Tsx.total. simpl.
  pose proof (validate_nonempty _ _ Hv). lia.
Qed.

Lemma reachable_valid (w : Tsx.World) : Tsx.reachable w -> Tsx.validInv w.
Proof.
  apply (reachable_preserves Tsx.validInv).
  - intros w0 w' Hv _ _. now apply valid_settle.
  - intros w0 w' Hv _ _. now apply valid_commit.
  - intros w0 Hv _. now apply valid_unmount.
  - intros w0 a Hv _ _. now apply valid_props.
  - intros w0 tid c Hv _ _. now apply valid_fire.
  - intros w0 w' Hv _ ((Hsame & _ & Hadv) & _).
    apply (valid_along w0); [exact Hv | apply Hsame | exact Hadv].
  - apply valid_mount.
Qed.

Lemma reachable_replay (w : Tsx.World) : Tsx.reachable w -> Tsx.replayInv w.
Proof.
  intros (slides & autoplayProp & matches & w0 & evs & Hm & ->).
  destruct (mount_advances _ _ _ _ Hm) as (_ & _ & Hadv0).
  pose proof (advances_trans _ _ _ Hadv0 (run_advances evs w0)) as (_ & _ & l & Hc & Hr).
  unfold Tsx.replayInv. rewrite Hc. exact Hr.
Qed.



(** X2.  The audit trail is only ever extended: whatever happens to the
    carousel, the console output after a run is the output before it
    followed by further events, and those events lead, slide change by
    slide change, from the index before to the index after. *)
Theorem X2_audit_trail_is_append_only :
  forall (evs : list Tsx.Event) (w : Tsx.World),
    exists l : list AuditEvent,
      Tsx.console (Tsx.run evs w) = Tsx.console w ++ l /\
      Tsx.replay (Tsx.activeIndex w) l = Some (Tsx.activeIndex (Tsx.run evs w)).
Proof.
  intros evs w. destruct (run_advances evs w) as (_ & _ & l & Hc & Hr). eauto.
Qed.

(** X3.  In every reachable world the slide change events of the audit
    trail form one path: the first starts at slide 0, each of the others
    starts where the one before ended, none goes from a slide to itself,
    and the last ends at the current [activeIndex]. *)
Theorem X3_slide_changes_replay_to_active_index :
  forall w : Tsx.World,
    Tsx.reachable w ->
    Tsx.replay 0 (Tsx.console w) = Some (Tsx.activeIndex w).
Proof. intros w Hreach. exact (reachable_replay w Hreach). Qed.

Lemma X3_slide_changes_replay_witness :
  let w := Tsx.run [Tsx.ClickNext; Tsx.TimerFire 2; Tsx.Hover true; Tsx.ClickDot 0]
             demoMounted in
  Tsx.reachable w /\ Tsx.replay 0 (Tsx.console w) = Some 0.
Proof.
  intros w.
  assert (Hreach : Tsx.reachable w).
  { exists demoSlides, None, false, demoMounted,
      [Tsx.ClickNext; Tsx.TimerFire 2; Tsx.Hover true; Tsx.ClickDot 0].
    split; vm_compute; reflexivity. }
  split; [exact Hreach|].
  exact (X3_slide_changes_replay_to_active_index w Hreach).
Defined.

(** *** Autoplay keeps going *)

Lemma cfg_enabled_ext (w w' : Tsx.World) :
  Tsx.autoplay w' = Tsx.autoplay w -> Tsx.reduced w' = Tsx.reduced w ->
  Tsx.cfg_enabled w' = Tsx.cfg_enabled w.
Proof. intros Ha Hr. unfold Tsx.cfg_enabled. now rewrite Ha, Hr. Qed.

Lemma commit_cfg (old new : Tsx.World) :
  Tsx.cfg_enabled (Tsx.commit old new) = Tsx.cfg_enabled new /\
  Tsx.total (Tsx.commit old new) = Tsx.total new.
Proof.
  destruct (commit_keeps old new) as (Hs & Ha & _ & _ & Hr & _). split.
  - now apply cfg_enabled_ext.
  - unfold Tsx.total. now rewrite Hs.
Qed.

Lemma effect_arms (w : Tsx.World) :
  Tsx.cfg_enabled w = true -> Tsx.isPaused w = false ->
  Tsx.timers (Tsx.autoplayEffect w) !! Tsx.nextTimerId w = Some (Tsx.activeIndex w).
Proof.
  intros He Hp. unfold Tsx.autoplayEffect. rewrite He, Hp. simpl.
  apply lookup_insert_eq.
Qed.

Lemma init_state (w : Tsx.World) :
  Tsx.timers (Tsx.initEffect w) = Tsx.timers w /\
  Tsx.cfg_enabled (Tsx.initEffect w) = Tsx.cfg_enabled w /\
  Tsx.isPaused (Tsx.initEffect w) = Tsx.isPaused w /\
  Tsx.activeIndex (Tsx.initEffect w) = Tsx.activeIndex w.
Proof. unfold Tsx.initEffect. destruct (Tsx.cfg_enabled w) eqn:E; repeat split; exact E. Qed.

Lemma cleanup_cfg (w : Tsx.World) :
  Tsx.cfg_enabled (Tsx.autoplayCleanup w) = Tsx.cfg_enabled w.
Proof. apply cleanup_state. Qed.

Lemma commit_live (old new : Tsx.World) :
  (Tsx.autoplayDepsChanged old new = false ->
   Tsx.timers new = Tsx.timers old /\ Tsx.total new = Tsx.total old /\
   Tsx.mounted new = Tsx.mounted old /\ Tsx.liveInv old) ->
  Tsx.liveInv (Tsx.commit old new).
Proof.
  intros Hsame H2 Hm He Hp.
  destruct (commit_keeps old new) as (_ & _ & Hi & Hpk & _ & Hmk).
  destruct (commit_cfg old new) as (Hck & Htk).
  rewrite Htk in H2. rewrite Hmk in Hm. rewrite Hck in He. rewrite Hpk in Hp. rewrite Hi.
  unfold Tsx.commit. cbn [Tsx.timers Tsx.set_swipe].
  destruct (Tsx.autoplayDepsChanged old new) eqn:Ed.
  - destruct (Tsx.initDepsChanged old new).
    + exists (Tsx.nextTimerId (Tsx.initEffect (Tsx.autoplayCleanup new))).
      rewrite effect_arms.
      * destruct (init_state (Tsx.autoplayCleanup new)) as (_ & _ & _ & ->).
        now destruct (cleanup_state new) as (_ & -> & _).
      * destruct (init_state (Tsx.autoplayCleanup new)) as (_ & -> & _).
        now rewrite cleanup_cfg.
      * destruct (init_state (Tsx.autoplayCleanup new)) as (_ & _ & -> & _).
        now destruct (cleanup_state new) as (_ & _ & -> & _).
    + exists (Tsx.nextTimerId (Tsx.autoplayCleanup new)).
      rewrite effect_arms.
      * now destruct (cleanup_state new) as (_ & -> & _).
      * now rewrite cleanup_cfg.
      * now destruct (cleanup_state new) as (_ & _ & -> & _).
  - destruct (Hsame eq_refl) as (Ht & Htot & Hmm & Hlive).
    destruct (autoplayDeps_same old new Ed) as (Hce & Hpp & Hii).
    assert (Hold : exists tid, Tsx.timers old !! tid = Some (Tsx.activeIndex old)).
    { apply Hlive; congruence. }
    destruct Hold as [tid Hold]. exists tid.
    destruct (Tsx.initDepsChanged old new).
    + destruct (init_state new) as (-> & _). now rewrite Ht, Hii.
    + now rewrite Ht, Hii.
Qed.

Lemma handlerOK_total (w w' : Tsx.World) :
  Tsx.handlerOK w w' -> Tsx.total w' = Tsx.total w.
Proof. intros (_ & _ & Hs & _). unfold Tsx.total. now rewrite Hs. Qed.

Lemma live_commit (w w' : Tsx.World) :
  Tsx.liveInv w -> Tsx.handlerOK w w' -> Tsx.liveInv (Tsx.commit w w').
Proof.
  intros Hlive Hok. apply commit_live. intros _.
  pose proof (handlerOK_total _ _ Hok) as Ht.
  destruct Hok as ((_ & Htm & _ & _ & _ & Hm) & _). auto.
Qed.

Lemma live_settle (w w' : Tsx.World) :
  Tsx.liveInv w -> Tsx.handlerOK w w' -> Tsx.liveInv (Tsx.settle w w').
Proof.
  intros Hlive Hok. unfold Tsx.settle.
  destruct (Tsx.stateChanged w w') eqn:Es; [now apply live_commit|].
  destruct (stateChanged_same w w' Es) as (Hi & Hp & Hr).
  pose proof (handlerOK_total _ _ Hok) as Ht.
  destruct Hok as ((Ha & Htm & _ & _ & _ & Hm) & _).
  intros H2 Hmm He Hpp. rewrite Htm, Hi. apply Hlive; try congruence.
  rewrite <- He. symmetry. now apply cfg_enabled_ext.
Qed.

Lemma live_inert (w w' : Tsx.World) :
  Tsx.liveInv w -> Tsx.inert w w' -> Tsx.liveInv w'.
Proof.
  intros Hlive (Hok & Hi & Hp & Hr).
  pose proof (handlerOK_total _ _ Hok) as Ht.
  destruct Hok as ((Ha & Htm & _ & _ & _ & Hm) & _).
  intros H2 Hmm He Hpp. rewrite Htm, Hi. apply Hlive; try congruence.
  rewrite <- He. symmetry. now apply cfg_enabled_ext.
Qed.

Lemma live_unmount (w : Tsx.World) : Tsx.liveInv (Tsx.unmount w).
Proof. intros _ Hm. simpl in Hm. discriminate. Qed.

Lemma live_props (w : Tsx.World) (a : Tsx.AutoplayConfig) :
  Tsx.liveInv w -> Tsx.liveInv (Tsx.commit w (Tsx.set_autoplay a w)).
Proof. intros Hlive. apply commit_live. intros _. auto. Qed.

Lemma next_index_differs (n a : Z) :
  2 <= n -> 0 <= a < n -> Tsx.clampIndex n (a + 1) <> a.
Proof.
  intros Hn Ha. unfold Tsx.clampIndex.
  destruct (Z.ltb_spec (a + 1) 0); [lia|].
  destruct (Z.geb_spec (a + 1) n); lia.
Qed.

Lemma live_fire (tid c : Z) (w : Tsx.World) :
  Tsx.validInv w -> Tsx.timerInv w -> Tsx.timers w !! tid = Some c ->
  Tsx.liveInv (Tsx.step (Tsx.TimerFire tid) w).
Proof.
  intros [_ Hr] Hinv Hl.
  destruct (fire_shape tid c w Hinv Hl) as (_ & Hm & ->).
  set (w1 := Tsx.set_timers (delete tid (Tsx.timers w)) w).
  set (w2 := Tsx.goTo (Tsx.activeIndex w + 1) Tsx.Auto w1).
  destruct (Z.le_gt_cases 2 (Tsx.total w)) as [H2|H2].
  - assert (Hne : Tsx.activeIndex w2 <> Tsx.activeIndex w1).
    { unfold w2. rewrite tsx_goTo_activeIndex. now apply next_index_differs. }
    assert (Hd : Tsx.autoplayDepsChanged w1 w2 = true).
    { unfold Tsx.autoplayDepsChanged.
      destruct (Z.eqb_spec (Tsx.activeIndex w1) (Tsx.activeIndex w2)); [congruence|].
      now rewrite !orb_true_r. }
    assert (Hs : Tsx.stateChanged w1 w2 = true).
    { unfold Tsx.stateChanged.
      destruct (Z.eqb_spec (Tsx.activeIndex w1) (Tsx.activeIndex w2)); [congruence|].
      reflexivity. }
    unfold Tsx.settle. rewrite Hs. apply commit_live. rewrite Hd. discriminate.
  - intros H2'. exfalso.
    assert (Tsx.total (Tsx.settle w1 w2) = Tsx.total w).
    { destruct (settle_advances w1 w2) as (Hs & _). unfold Tsx.total. rewrite Hs.
      unfold w2. now destruct (goTo_advances (Tsx.activeIndex w + 1) Tsx.Auto w1) as (-> & _). }
    lia.
Qed.

Lemma live_mount (slides : list Tsx.Slide) (autoplayProp : option Tsx.AutoplayConfig)
    (matches : bool) (w0 : Tsx.World) :
  Tsx.mount slides autoplayProp matches = inr w0 -> Tsx.liveInv w0.
Proof.
  unfold Tsx.mount. set (autoplay := default Tsx.default_autoplay autoplayProp).
  destruct (Tsx.validate slides autoplay); [discriminate|].
  intros [= <-]. apply live_settle; [|apply set_reduced_ok].
  set (wi := Tsx.initEffect (Tsx.initial slides autoplay)).
  intros _ _ He Hp. exists (Tsx.nextTimerId wi).
  assert (He' : Tsx.cfg_enabled wi = true).
  { rewrite <- He. unfold Tsx.autoplayEffect. now repeat case_match. }
  assert (Hp' : Tsx.isPaused wi = false).
  { rewrite <- Hp. unfold Tsx.autoplayEffect. now repeat case_match. }
  rewrite effect_arms by assumption.
  f_equal. unfold Tsx.autoplayEffect. now repeat case_match.
Qed.

Lemma reachable_live (w : Tsx.World) : Tsx.reachable w -> Tsx.liveInv w.
Proof.
  intros Hreach.
  apply (reachable_preserves (fun w => Tsx.validInv w /\ Tsx.liveInv w)); [..|exact Hreach].
  - intros w0 w' [Hv Hl] _ _ Hok. split; [now apply valid_settle | now apply live_settle].
  - intros w0 w' [Hv Hl] _ _ Hok. split; [now apply valid_commit | now apply live_commit].
  - intros w0 [Hv Hl] _. split; [now apply valid_unmount | apply live_unmount].
  - intros w0 a [Hv Hl] _ _ Ha. split; [now apply valid_props | now apply live_props].
  - intros w0 tid c [Hv Hl] Hinv Hlk. split; [now apply valid_fire | now apply (live_fire tid c)].
  - intros w0 w' [Hv Hl] _ Hin. split; [|now apply (live_inert w0)].
    destruct Hin as ((Hsame & _ & Hadv) & _).
    apply (valid_along w0); [exact Hv | apply Hsame | exact Hadv].
  - intros slides autoplayProp matches w0 Hm.
    split; [eapply valid_mount, Hm | eapply live_mount, Hm].
Qed.

Lemma timers_shape (w : Tsx.World) :
  Tsx.timerInv w ->
  Tsx.timers w = ∅ \/
  exists tid, Tsx.timers w = {[tid := Tsx.activeIndex w]} /\ Tsx.timerRef w = Some tid.
Proof.
  intros [_ Hs]. destruct (decide (Tsx.timers w = ∅)) as [He|Hne]; [now left|].
  right. apply map_choose in Hne as (tid & c & Hl).
  destruct (Hs tid c Hl) as (Hr & _ & _ & _ & -> & _).
  exists tid. split; [|exact Hr].
  apply map_eq. intros i. destruct (decide (i = tid)) as [->|Hi].
  - now rewrite lookup_singleton_eq.
  - rewrite lookup_singleton_ne by congruence.
    destruct (Tsx.timers w !! i) as [c'|] eqn:E; [|reflexivity].
    destruct (Hs i c' E) as (Hr' & _). congruence.
Qed.

(** X4.  The carousel never has two autoplay timers pending: in every
    reachable world either no timer is pending, or exactly one is, it is
    the timer [timerRef] names, and its callback closed over the current
    [activeIndex]. *)
Theorem X4_at_most_one_timer :
  forall w : Tsx.World,
    Tsx.reachable w ->
    Tsx.timers w = ∅ \/
    exists tid, Tsx.timers w = {[tid := Tsx.activeIndex w]} /\ Tsx.timerRef w = Some tid.
Proof. intros w Hreach. apply timers_shape. now apply reachable_inv. Qed.

Lemma X4_at_most_one_timer_witness :
  let w := Tsx.run [Tsx.ClickNext; Tsx.ClickNext; Tsx.Hover true; Tsx.Hover false]
             demoMounted in
  Tsx.reachable w /\
  (Tsx.timers w = ∅ \/
   exists tid, Tsx.timers w = {[tid := Tsx.activeIndex w]} /\ Tsx.timerRef w = Some tid).
Proof.
  intros w.
  assert (Hreach : Tsx.reachable w).
  { exists demoSlides, None, false, demoMounted,
      [Tsx.ClickNext; Tsx.ClickNext; Tsx.Hover true; Tsx.Hover false].
    split; vm_compute; reflexivity. }
  split; [exact Hreach | exact (X4_at_most_one_timer w Hreach)].
Defined.

(** X5.  Autoplay keeps going: in every reachable world with two slides
    or more, a mounted carousel whose autoplay is enabled, with no
    reduced-motion preference and no pause, has exactly one timer
    pending, for the current [activeIndex]. *)
Theorem X5_autoplay_keeps_a_timer_armed :
  forall w : Tsx.World,
    Tsx.reachable w ->
    2 <= Tsx.total w -> Tsx.mounted w = true ->
    Tsx.cfg_enabled w = true -> Tsx.isPaused w = false ->
    exists tid, Tsx.timers w = {[tid := Tsx.activeIndex w]} /\ Tsx.timerRef w = Some tid.
Proof.
  intros w Hreach H2 Hm He Hp.
  pose proof (reachable_live w Hreach) as Hlive.
  destruct (Hlive H2 Hm He Hp) as [tid Hl].
  destruct (timers_shape w (reachable_inv w Hreach)) as [Hempty | Hone]; [|exact Hone].
  rewrite Hempty, lookup_empty in Hl. discriminate.
Qed.

Lemma X5_autoplay_keeps_a_timer_witness :
  let w := Tsx.run [Tsx.TimerFire 1; Tsx.ClickDot 0; Tsx.Focus true; Tsx.Focus false;
                    Tsx.ImageError 2]
             demoMounted in
  (Tsx.reachable w /\ 2 <= Tsx.total w /\ Tsx.mounted w = true /\
   Tsx.cfg_enabled w = true /\ Tsx.isPaused w = false) /\
  exists tid, Tsx.timers w = {[tid := Tsx.activeIndex w]} /\ Tsx.timerRef w = Some tid.
Proof.
  intros w.
  assert (Hreach : Tsx.reachable w).
  { exists demoSlides, None, false, demoMounted,
      [Tsx.TimerFire 1; Tsx.ClickDot 0; Tsx.Focus true; Tsx.Focus false; Tsx.ImageError 2].
    split; vm_compute; reflexivity. }
  assert (H2 : 2 <= Tsx.total w) by (vm_compute; intros H; discriminate H).
  assert (Hm : Tsx.mounted w = true) by (vm_compute; reflexivity).
  assert (He : Tsx.cfg_enabled w = true) by (vm_compute; reflexivity).
  assert (Hp : Tsx.isPaused w = false) by (vm_compute; reflexivity).
  split; [auto|].
  exact (X5_autoplay_keeps_a_timer_armed w Hreach H2 Hm He Hp).
Defined.

(** X6.  With a single slide autoplay stalls: when the timer of a
    reachable world with one slide fires, [next('auto')] lands on the
    same slide, nothing is written, nothing renders, and no new timer is
    armed, although the carousel is still mounted, enabled and not
    paused. *)
Theorem X6_single_slide_autoplay_stalls :
  forall (w : Tsx.World) (tid c : Z),
    Tsx.reachable w -> Tsx.total w = 1 -> Tsx.timers w !! tid = Some c ->
    Tsx.step (Tsx.TimerFire tid) w = Tsx.set_timers ∅ w /\
    Tsx.mounted w = true /\ Tsx.cfg_enabled w = true /\ Tsx.isPaused w = false.
Proof.
  intros w tid c Hreach H1 Hl.
  pose proof (reachable_inv w Hreach) as Hinv.
  destruct (reachable_valid w Hreach) as [_ Hr].
  destruct (fire_shape tid c w Hinv Hl) as (Hclr & Hm & ->).
  simpl in Hclr. rewrite Hclr.
  destruct Hinv as [_ Hs]. destruct (Hs tid c Hl) as (_ & _ & _ & _ & _ & He & Hp).
  split; [|auto].
  rewrite tsx_goTo_same.
  - unfold Tsx.settle, Tsx.stateChanged.
    now rewrite Z.eqb_refl, !Bool.eqb_reflx.
  - unfold Tsx.total in *. cbn [Tsx.slides Tsx.activeIndex Tsx.set_timers].
    rewrite H1. unfold Tsx.clampIndex.
    destruct (Z.ltb_spec (Tsx.activeIndex w + 1) 0); [lia|].
    destruct (Z.geb_spec (Tsx.activeIndex w + 1) 1); lia.
Qed.

Lemma X6_single_slide_witness :
  let w := match Tsx.mount [demoSlide "a"] None false with
           | inr w0 => w0
           | inl _ => demoTsx
           end in
  (Tsx.reachable w /\ Tsx.total w = 1 /\ Tsx.timers w !! 1 = Some 0) /\
  Tsx.timers (Tsx.step (Tsx.TimerFire 1) w) = ∅ /\
  Tsx.console (Tsx.step (Tsx.TimerFire 1) w) = Tsx.console w.
Proof.
  intros w.
  assert (Hreach : Tsx.reachable w).
  { exists [demoSlide "a"], None, false, w, []. split; vm_compute; reflexivity. }
  assert (H1 : Tsx.total w = 1) by (vm_compute; reflexivity).
  assert (Hl : Tsx.timers w !! 1 = Some 0) by (vm_compute; reflexivity).
  split; [auto|].
  destruct (X6_single_slide_autoplay_stalls w 1 0 Hreach H1 Hl) as (-> & _).
  split; vm_compute; reflexivity.
Defined.

(** *** Autoplay starts and stops pair up *)

Lemma balance_ext (w w' : Tsx.World) :
  Tsx.timerRef w' = Tsx.timerRef w -> Tsx.cleanup w' = Tsx.cleanup w ->
  Tsx.mounted w' = Tsx.mounted w -> Tsx.calm w w' ->
  Tsx.balanceInv w -> Tsx.balanceInv w'.
Proof.
  intros Hr Hc Hm [Hstart Hstop] (H1 & H2 & H3 & H4).
  unfold Tsx.balanceInv. now rewrite Hr, Hc, Hm, Hstart, Hstop.
Qed.

Lemma balance_handler (w w' : Tsx.World) :
  Tsx.handlerOK w w' -> Tsx.balanceInv w -> Tsx.balanceInv w'.
Proof.
  intros ((_ & _ & Hr & Hc & _ & Hm) & Hcalm & _). now apply balance_ext.
Qed.

Lemma balance_init (w : Tsx.World) : Tsx.balanceInv w -> Tsx.balanceInv (Tsx.initEffect w).
Proof.
  apply balance_ext; [| | |calm_tac];
    unfold Tsx.initEffect; now destruct (Tsx.cfg_enabled w).
Qed.

Lemma balance_cleanup (w : Tsx.World) :
  Tsx.balanceInv w ->
  Tsx.balanceInv (Tsx.autoplayCleanup w) /\ Tsx.timerRef (Tsx.autoplayCleanup w) = None.
Proof.
  intros (Hiff & Hpos & Hmnt & Hcount). unfold Tsx.autoplayCleanup.
  destruct (Tsx.cleanup w) as [index|] eqn:Ec.
  - destruct (Tsx.timerRef w) as [tid|] eqn:Er.
    + pose proof (Hpos tid eq_refl) as Htid.
      destruct (Z.eqb_spec tid 0); [lia|].
      split; [|reflexivity].
      repeat split; try discriminate; simpl.
      unfold Tsx.eventsNamed, logUIEvent in *. rewrite !List.filter_app, !length_app.
      simpl. lia.
    + destruct Hiff as [Hiff _]. specialize (Hiff eq_refl). discriminate.
  - assert (Hr : Tsx.timerRef w = None) by now apply Hiff.
    split; [|exact Hr]. repeat split; auto.
Qed.

Lemma balance_effect (w : Tsx.World) :
  Tsx.balanceInv w -> Tsx.timerRef w = None -> 0 < Tsx.nextTimerId w ->
  Tsx.mounted w = true -> Tsx.balanceInv (Tsx.autoplayEffect w).
Proof.
  intros (Hiff & Hpos & Hmnt & Hcount) Hr Hn Hm. unfold Tsx.autoplayEffect.
  rewrite Hr in Hcount.
  destruct (negb (Tsx.cfg_enabled w) || Tsx.isPaused w).
  - repeat split; simpl; auto; try congruence. now rewrite Hr.
  - repeat split; simpl; try discriminate; try congruence.
    unfold Tsx.eventsNamed, logUIEvent in *. rewrite !List.filter_app, !length_app.
    simpl. lia.
Qed.

Lemma balance_commit (old new : Tsx.World) :
  Tsx.balanceInv new -> 0 < Tsx.nextTimerId new -> Tsx.mounted new = true ->
  Tsx.balanceInv (Tsx.commit old new).
Proof.
  intros Hb Hn Hm. unfold Tsx.commit.
  match goal with
  | |- Tsx.balanceInv (Tsx.set_swipe _ ?inner) =>
      apply (balance_ext inner); [reflexivity | reflexivity | reflexivity | now split |]
  end.
  destruct (Tsx.autoplayDepsChanged old new).
  - destruct (balance_cleanup new Hb) as [Hbc Hrc].
    pose proof (cleanup_nextTimerId new) as Hnc.
    destruct (cleanup_state new) as (Hmc & _).
    destruct (Tsx.initDepsChanged old new).
    + apply balance_effect.
      * now apply balance_init.
      * unfold Tsx.initEffect. now destruct (Tsx.cfg_enabled _).
      * destruct (initEffect_state (Tsx.autoplayCleanup new)) as (_ & -> & _). lia.
      * destruct (initEffect_state (Tsx.autoplayCleanup new)) as (_ & _ & ->). congruence.
    + apply balance_effect; [assumption | assumption | lia | congruence].
  - destruct (Tsx.initDepsChanged old new); [now apply balance_init | exact Hb].
Qed.

Lemma balance_settle (old new : Tsx.World) :
  Tsx.balanceInv new -> 0 < Tsx.nextTimerId new -> Tsx.mounted new = true ->
  Tsx.balanceInv (Tsx.settle old new).
Proof.
  intros Hb Hn Hm. unfold Tsx.settle.
  destruct (Tsx.stateChanged old new); [now apply balance_commit | exact Hb].
Qed.

Lemma balance_unmount (w : Tsx.World) : Tsx.balanceInv w -> Tsx.balanceInv (Tsx.unmount w).
Proof.
  intros Hb. destruct (balance_cleanup w Hb) as [(Hiff & Hpos & _ & Hcount) Hr].
  unfold Tsx.unmount. repeat split; simpl; auto; apply Hiff.
Qed.

Lemma reachable_balance (w : Tsx.World) : Tsx.reachable w -> Tsx.balanceInv w.
Proof.
  apply (reachable_preserves Tsx.balanceInv).
  - intros w0 w' Hb [Hn _] Hm Hok.
    destruct Hok as [Hsame Hrest]. pose proof Hsame as (_ & _ & _ & _ & Hnn & Hmm).
    apply balance_settle; [|lia | congruence].
    apply (balance_handler w0); [now split | exact Hb].
  - intros w0 w' Hb [Hn _] Hm Hok.
    destruct Hok as [Hsame Hrest]. pose proof Hsame as (_ & _ & _ & _ & Hnn & Hmm).
    apply balance_commit; [|lia | congruence].
    apply (balance_handler w0); [now split | exact Hb].
  - intros w0 Hb _. now apply balance_unmount.
  - intros w0 a Hb [Hn _] Hm _.
    apply balance_commit; [|exact Hn | exact Hm].
    apply (balance_ext w0); try reflexivity; [now split | exact Hb].
  - intros w0 tid c Hb Hinv Hl.
    destruct (fire_shape tid c w0 Hinv Hl) as (_ & Hm & ->).
    set (w1 := Tsx.set_timers (delete tid (Tsx.timers w0)) w0).
    assert (Hb1 : Tsx.balanceInv w1).
    { apply (balance_ext w0); try reflexivity; [now split | exact Hb]. }
    pose proof (goTo_ok (Tsx.activeIndex w0 + 1) Tsx.Auto w1) as Hok.
    pose proof Hok as ((_ & _ & _ & _ & Hnn & Hmm) & _).
    apply balance_settle.
    + now apply (balance_handler w1).
    + rewrite Hnn. apply Hinv.
    + rewrite Hmm. exact Hm.
  - intros w0 w' Hb _ (Hok & _). now apply (balance_handler w0).
  - intros slides autoplayProp matches w0.
    unfold Tsx.mount. set (autoplay := default Tsx.default_autoplay autoplayProp).
    destruct (Tsx.validate slides autoplay); [discriminate|].
    intros [= <-].
    set (wi := Tsx.initEffect (Tsx.initial slides autoplay)).
    assert (Hbi : Tsx.balanceInv wi).
    { apply balance_init. repeat split; simpl; auto; discriminate. }
    assert (Hbe : Tsx.balanceInv (Tsx.autoplayEffect wi)).
    { apply balance_effect; [exact Hbi | | |];
        unfold wi, Tsx.initEffect; destruct (Tsx.cfg_enabled _); simpl; auto; lia. }
    apply balance_settle.
    + apply (balance_handler (Tsx.autoplayEffect wi)); [apply set_reduced_ok | exact Hbe].
    + unfold Tsx.autoplayEffect, wi, Tsx.initEffect. repeat case_match; simpl; lia.
    + unfold Tsx.autoplayEffect, wi, Tsx.initEffect. now repeat case_match.
Qed.

(** X7.  Autoplay start and stop events pair up in the audit trail of
    every reachable world: there are as many starts as stops, or one
    start more, and one more exactly while [timerRef] names a timer;
    once the carousel is unmounted, every start has its stop. *)
Theorem X7_autoplay_starts_and_stops_pair_up :
  forall w : Tsx.World,
    Tsx.reachable w ->
    let starts := length (Tsx.eventsNamed "carousel_autoplay_start" (Tsx.console w)) in
    let stops := length (Tsx.eventsNamed "carousel_autoplay_stop" (Tsx.console w)) in
    (stops <= starts <= stops + 1)%nat /\
    (starts = (stops + 1)%nat <-> is_Some (Tsx.timerRef w)) /\
    (Tsx.mounted w = false -> starts = stops).
Proof.
  intros w Hreach starts stops.
  destruct (reachable_balance w Hreach) as (_ & _ & Hmnt & Hcount).
  fold starts stops in Hcount.
  destruct (Tsx.timerRef w) as [tid|] eqn:Er.
  - split; [lia|]. split.
    + split; [eauto | lia].
    + intros Hm. specialize (Hmnt Hm). discriminate.
  - split; [lia|]. split.
    + split; [lia | intros [x Hx]; discriminate].
    + intros _. lia.
Qed.

Lemma X7_autoplay_starts_and_stops_witness :
  let w := Tsx.run [Tsx.TimerFire 1; Tsx.Hover true; Tsx.Hover false; Tsx.Unmount]
             demoMounted in
  Tsx.reachable w /\
  length (Tsx.eventsNamed "carousel_autoplay_start" (Tsx.console w)) = 3%nat /\
  length (Tsx.eventsNamed "carousel_autoplay_stop" (Tsx.console w)) = 3%nat.
Proof.
  intros w.
  assert (Hreach : Tsx.reachable w).
  { exists demoSlides, None, false, demoMounted,
      [Tsx.TimerFire 1; Tsx.Hover true; Tsx.Hover false; Tsx.Unmount].
    split; vm_compute; reflexivity. }
  destruct (X7_autoplay_starts_and_stops_pair_up w Hreach) as (_ & _ & Hun).
  split; [exact Hreach|]. split; [vm_compute; reflexivity|].
  rewrite <- (Hun eq_refl). vm_compute; reflexivity.
Defined.

(** *** Touch gestures and the render *)

Lemma settle_keeps (old new : Tsx.World) :
  Tsx.slides (Tsx.settle old new) = Tsx.slides new /\
  Tsx.autoplay (Tsx.settle old new) = Tsx.autoplay new /\
  Tsx.activeIndex (Tsx.settle old new) = Tsx.activeIndex new /\
  Tsx.isPaused (Tsx.settle old new) = Tsx.isPaused new /\
  Tsx.reduced (Tsx.settle old new) = Tsx.reduced new /\
  Tsx.mounted (Tsx.settle old new) = Tsx.mounted new.
Proof.
  unfold Tsx.settle. destruct (Tsx.stateChanged old new); [apply commit_keeps|].
  now repeat split.
Qed.

Lemma settle_console_changes (old new : Tsx.World) :
  Tsx.eventsNamed "carousel_slide_change" (Tsx.console (Tsx.settle old new))
  = Tsx.eventsNamed "carousel_slide_change" (Tsx.console new).
Proof.
  unfold Tsx.settle. destruct (Tsx.stateChanged old new); [|reflexivity].
  unfold Tsx.commit, Tsx.initEffect, Tsx.autoplayEffect, Tsx.autoplayCleanup,
    Tsx.eventsNamed, Tsx.logUI, logUIEvent.
  repeat case_match; simpl; rewrite ?List.filter_app; simpl; rewrite ?app_nil_r;
    reflexivity.
Qed.

(** X8.  While autoplay runs, a touch never navigates: on a mounted
    carousel whose autoplay is enabled and not paused, [touchstart]
    pauses autoplay, the render this causes replaces the swipe listeners
    and their closure, so the recogniser is not tracking any more; the
    release, wherever it happens, then changes no index, writes no
    transition event, and does not resume autoplay. *)
Theorem X8_touch_is_lost_while_autoplay_runs :
  forall (w : Tsx.World) (x y x' y' : Z),
    Tsx.mounted w = true -> Tsx.cfg_enabled w = true -> Tsx.isPaused w = false ->
    let touched := Tsx.step (Tsx.TouchStart x y) w in
    let released := Tsx.step (Tsx.TouchEnd x' y') touched in
    Tsx.tracking (Tsx.swipe touched) = false /\
    Tsx.isPaused touched = true /\
    Tsx.activeIndex released = Tsx.activeIndex w /\
    Tsx.isPaused released = true /\
    Tsx.console released = Tsx.console touched.
Proof.
  intros w x y x' y' Hm He Hp touched released.
  assert (Hnew : Tsx.isPaused (Tsx.onTouchStart x y w) = true
                 /\ Tsx.activeIndex (Tsx.onTouchStart x y w) = Tsx.activeIndex w
                 /\ Tsx.mounted (Tsx.onTouchStart x y w) = true).
  { unfold Tsx.onTouchStart, Tsx.touchPause. rewrite He. simpl. auto. }
  destruct Hnew as (Hp1 & Hi1 & Hm1).
  assert (Hchg : Tsx.stateChanged w (Tsx.onTouchStart x y w) = true).
  { unfold Tsx.stateChanged. rewrite Hp, Hp1.
    now destruct (Tsx.activeIndex w =? _). }
  assert (Ht : touched = Tsx.commit w (Tsx.onTouchStart x y w)).
  { unfold touched. simpl. rewrite Hm. unfold Tsx.settle. now rewrite Hchg. }
  destruct (commit_keeps w (Tsx.onTouchStart x y w)) as (_ & _ & Hi2 & Hp2 & _ & Hm2).
  assert (Htr : Tsx.tracking (Tsx.swipe touched) = false) by (rewrite Ht; reflexivity).
  assert (Hrel : released = Tsx.set_swipe (Tsx.stop_tracking (Tsx.swipe touched)) touched).
  { assert (Hmt : Tsx.mounted touched = true) by (rewrite Ht; congruence).
    unfold released. simpl. rewrite Hmt.
    unfold Tsx.onTouchEnd. rewrite Htr.
    unfold Tsx.settle, Tsx.stateChanged. simpl.
    now rewrite Z.eqb_refl, !Bool.eqb_reflx. }
  split; [exact Htr|]. rewrite Hrel. simpl. rewrite Ht.
  repeat split; congruence.
Qed.

Lemma X8_touch_is_lost_witness :
  (Tsx.mounted demoMounted = true /\ Tsx.cfg_enabled demoMounted = true /\
   Tsx.isPaused demoMounted = false) /\
  Tsx.activeIndex
    (Tsx.step (Tsx.TouchEnd 20 100) (Tsx.step (Tsx.TouchStart 200 100) demoMounted))
  = Tsx.activeIndex demoMounted.
Proof.
  assert (Hm : Tsx.mounted demoMounted = true) by (vm_compute; reflexivity).
  assert (He : Tsx.cfg_enabled demoMounted = true) by (vm_compute; reflexivity).
  assert (Hp : Tsx.isPaused demoMounted = false) by (vm_compute; reflexivity).
  split; [auto|].
  exact (proj1 (proj2 (proj2
           (X8_touch_is_lost_while_autoplay_runs demoMounted 200 100 20 100 Hm He Hp)))).
Defined.

(** X9.  With autoplay off (disabled, or a reduced-motion preference) or
    already paused, a touch works: on a mounted carousel a [touchstart]
    at [(x, y)] followed by a [touchend] at [(x', y')] moves to the next
    slide on a swipe to the left, to the previous one on a swipe to the
    right, both with wraparound, and stays otherwise. *)
Theorem X9_touch_swipe_navigates_when_autoplay_is_off :
  forall (w : Tsx.World) (x y x' y' : Z),
    Tsx.mounted w = true ->
    Tsx.cfg_enabled w = false \/ Tsx.isPaused w = true ->
    Tsx.activeIndex (Tsx.run [Tsx.TouchStart x y; Tsx.TouchEnd x' y'] w)
    = match Tsx.swipeAction Tsx.swipe_threshold (x' - x) (y' - y) with
      | Tsx.SwipeLeft => Tsx.clampIndex (Tsx.total w) (Tsx.activeIndex w + 1)
      | Tsx.SwipeRight => Tsx.clampIndex (Tsx.total w) (Tsx.activeIndex w - 1)
      | Tsx.NoSwipe => Tsx.activeIndex w
      end.
Proof.
  intros w x y x' y' Hm Hoff.
  assert (Hsame : Tsx.stateChanged w (Tsx.onTouchStart x y w) = false).
  { unfold Tsx.onTouchStart, Tsx.touchPause, Tsx.stateChanged.
    destruct Hoff as [He | Hp].
    - rewrite He. simpl. now rewrite Z.eqb_refl, !Bool.eqb_reflx.
    - destruct (Tsx.cfg_enabled w); simpl;
        now rewrite ?Hp, Z.eqb_refl, !Bool.eqb_reflx. }
  assert (Hfacts : Tsx.mounted (Tsx.onTouchStart x y w) = true
                   /\ Tsx.swipe (Tsx.onTouchStart x y w)
                      = {| Tsx.startX := x; Tsx.startY := y; Tsx.tracking := true |}
                   /\ Tsx.activeIndex (Tsx.onTouchStart x y w) = Tsx.activeIndex w
                   /\ Tsx.total (Tsx.onTouchStart x y w) = Tsx.total w).
  { unfold Tsx.onTouchStart, Tsx.touchPause.
    destruct (Tsx.cfg_enabled w); simpl; auto. }
  assert (Hst : Tsx.step (Tsx.TouchStart x y) w = Tsx.onTouchStart x y w).
  { simpl. rewrite Hm. unfold Tsx.settle. now rewrite Hsame. }
  remember (Tsx.onTouchStart x y w) as started eqn:Es.
  destruct Hfacts as (Hm' & Hsw & Hi & Htot).
  change (Tsx.run [Tsx.TouchStart x y; Tsx.TouchEnd x' y'] w)
    with (Tsx.step (Tsx.TouchEnd x' y') (Tsx.step (Tsx.TouchStart x y) w)).
  rewrite Hst.
  assert (Hend : Tsx.step (Tsx.TouchEnd x' y') started
                 = Tsx.settle started (Tsx.onTouchEnd x' y' started)).
  { simpl. now rewrite Hm'. }
  rewrite Hend, (proj1 (proj2 (proj2 (settle_keeps _ _)))).
  unfold Tsx.onTouchEnd. rewrite Hsw. cbn [Tsx.tracking Tsx.startX Tsx.startY].
  cbn [Tsx.activeIndex Tsx.set_swipe]. rewrite touchResume_activeIndex.
  destruct (Tsx.swipeAction _ _ _); unfold Tsx.next, Tsx.prev;
    rewrite ?tsx_goTo_activeIndex; congruence.
Qed.

Lemma X9_touch_swipe_witness :
  let w := Tsx.run [Tsx.Hover true] demoMounted in
  (Tsx.mounted w = true /\ (Tsx.cfg_enabled w = false \/ Tsx.isPaused w = true)) /\
  Tsx.activeIndex (Tsx.run [Tsx.TouchStart 200 100; Tsx.TouchEnd 100 90] w) = 1.
Proof.
  intros w.
  assert (Hm : Tsx.mounted w = true) by (vm_compute; reflexivity).
  assert (Hp : Tsx.cfg_enabled w = false \/ Tsx.isPaused w = true)
    by (right; vm_compute; reflexivity).
  split; [auto|].
  rewrite (X9_touch_swipe_navigates_when_autoplay_is_off w 200 100 100 90 Hm Hp).
  vm_compute. reflexivity.
Defined.


Lemma clampIndex_inverse (n a : Z) : 0 <= a < n ->
  Tsx.clampIndex n (Tsx.clampIndex n (a + 1) - 1) = a /\
  Tsx.clampIndex n (Tsx.clampIndex n (a - 1) + 1) = a.
Proof.
  intros H. unfold Tsx.clampIndex. repeat case_match; lia.
Qed.

(** What an arrow button or an arrow key does to a mounted carousel. *)
Lemma arrow_step (ev : Tsx.Event) (d : Z) (w : Tsx.World) :
  (ev = Tsx.ClickNext \/ ev = Tsx.KeyDown "ArrowRight") /\ d = 1 \/
  (ev = Tsx.ClickPrev \/ ev = Tsx.KeyDown "ArrowLeft") /\ d = -1 ->
  Tsx.mounted w = true ->
  Tsx.mounted (Tsx.step ev w) = true /\
  Tsx.total (Tsx.step ev w) = Tsx.total w /\
  Tsx.activeIndex (Tsx.step ev w) = Tsx.clampIndex (Tsx.total w) (Tsx.activeIndex w + d).
Proof.
  intros Hev Hm.
  assert (Hs : exists new, Tsx.step ev w = Tsx.settle w new /\ Tsx.mounted new = true /\
             Tsx.total new = Tsx.total w /\
             Tsx.activeIndex new = Tsx.clampIndex (Tsx.total w) (Tsx.activeIndex w + d)).
  { destruct Hev as [[[-> | ->] ->] | [[-> | ->] ->]]; simpl; rewrite Hm;
      eexists; (split; [reflexivity|]);
      unfold Tsx.onNextClick, Tsx.onPrevClick, Tsx.onKeyDown, Tsx.next, Tsx.prev,
        Tsx.goTo, Tsx.total; simpl; repeat case_match; simpl; auto. }
  destruct Hs as (new & -> & Hm' & Ht & Hi).
  destruct (settle_keeps w new) as (Hs & _ & Hi' & _ & _ & Hm'').
  unfold Tsx.total in *. rewrite Hs, Hi', Hm''. auto.
Qed.

(** X10.  The two arrows undo each other, at the ends of the collection
    too: in whatever state the carousel is, the next arrow followed by
    the previous arrow, the previous arrow followed by the next one, and
    the same two pairs on the keyboard, lead back to the slide one was
    on. *)
Theorem X10_previous_undoes_next :
  forall w : Tsx.World,
    Tsx.reachable w ->
    Tsx.activeIndex (Tsx.run [Tsx.ClickNext; Tsx.ClickPrev] w) = Tsx.activeIndex w /\
    Tsx.activeIndex (Tsx.run [Tsx.ClickPrev; Tsx.ClickNext] w) = Tsx.activeIndex w /\
    Tsx.activeIndex (Tsx.run [Tsx.KeyDown "ArrowRight"; Tsx.KeyDown "ArrowLeft"] w)
    = Tsx.activeIndex w /\
    Tsx.activeIndex (Tsx.run [Tsx.KeyDown "ArrowLeft"; Tsx.KeyDown "ArrowRight"] w)
    = Tsx.activeIndex w.
Proof.
  intros w Hr. destruct (reachable_valid w Hr) as [_ Hrange].
  destruct (clampIndex_inverse _ _ Hrange) as [Hnp Hpn].
  destruct (Tsx.mounted w) eqn:Hm.
  - assert (Hpair : forall e1 e2 d,
      (e1 = Tsx.ClickNext \/ e1 = Tsx.KeyDown "ArrowRight") /\ d = 1 \/
      (e1 = Tsx.ClickPrev \/ e1 = Tsx.KeyDown "ArrowLeft") /\ d = -1 ->
      (e2 = Tsx.ClickNext \/ e2 = Tsx.KeyDown "ArrowRight") /\ - d = 1 \/
      (e2 = Tsx.ClickPrev \/ e2 = Tsx.KeyDown "ArrowLeft") /\ - d = -1 ->
      Tsx.activeIndex (Tsx.run [e1; e2] w) = Tsx.activeIndex w).
    { intros e1 e2 d H1 H2.
      change (Tsx.run [e1; e2] w) with (Tsx.step e2 (Tsx.step e1 w)).
      destruct (arrow_step e1 d w H1 Hm) as (Hm1 & Ht1 & Hi1).
      destruct (arrow_step e2 (- d) _ H2 Hm1) as (_ & _ & Hi2).
      rewrite Hi2, Ht1, Hi1.
      assert (d = 1 \/ d = -1) as [-> | ->] by (destruct H1 as [[_ ?]|[_ ?]]; auto).
      - exact Hnp.
      - exact Hpn. }
    repeat split.
    + apply (Hpair _ _ 1); [left|right]; auto.
    + apply (Hpair _ _ (-1)); [right|left]; auto.
    + apply (Hpair _ _ 1); [left|right]; auto.
    + apply (Hpair _ _ (-1)); [right|left]; auto.
  - repeat split; unfold Tsx.run; cbn [foldl];
      repeat (cbn [Tsx.step]; rewrite Hm); reflexivity.
Qed.

Lemma X10_previous_undoes_next_witness :
  let w := Tsx.run [Tsx.ClickNext; Tsx.ClickNext] demoMounted in
  Tsx.reachable w /\
  Tsx.activeIndex (Tsx.run [Tsx.ClickNext; Tsx.ClickPrev] w) = Tsx.activeIndex w.
Proof.
  intros w.
  assert (Hreach : Tsx.reachable w).
  { exists demoSlides, None, false, demoMounted, [Tsx.ClickNext; Tsx.ClickNext].
    split; vm_compute; reflexivity. }
  split; [exact Hreach|].
  exact (proj1 (X10_previous_undoes_next w Hreach)).
Defined.




(** *** The pixel-drag carousel as a machine *)

(** The index, the slides and the user id under one step. *)
Lemma jsx_step_index (ev : Jsx.Event) (w : Jsx.World) :
  Jsx.slides (Jsx.step ev w) = Jsx.slides w /\
  (Jsx.activeIndex (Jsx.step ev w) = Jsx.activeIndex w \/
   exists i, Jsx.activeIndex (Jsx.step ev w) = Jsx.clampIndex (Jsx.total w) i).
Proof.
  assert (Hgo : forall i w0, Jsx.slides (Jsx.goTo i w0) = Jsx.slides w0 /\
                             Jsx.activeIndex (Jsx.goTo i w0) = Jsx.clampIndex (Jsx.total w0) i).
  { intros i w0. unfold Jsx.goTo. now destruct (negb _). }
  assert (Hset : forall old new, Jsx.slides (Jsx.settle old new) = Jsx.slides new /\
                                 Jsx.activeIndex (Jsx.settle old new) = Jsx.activeIndex new).
  { intros old new. unfold Jsx.settle. now destruct (negb _). }
  assert (Hnav : forall i, Jsx.slides (Jsx.settle w (Jsx.goTo i w)) = Jsx.slides w /\
            (Jsx.activeIndex (Jsx.settle w (Jsx.goTo i w)) = Jsx.activeIndex w \/
             exists i', Jsx.activeIndex (Jsx.settle w (Jsx.goTo i w))
                        = Jsx.clampIndex (Jsx.total w) i')).
  { intros i. destruct (Hset w (Jsx.goTo i w)) as [-> ->].
    destruct (Hgo i w) as [-> ->]. split; [reflexivity|]. right. now exists i. }
  destruct ev.
  - simpl. unfold Jsx.onKeyDown, Jsx.next, Jsx.prev.
    destruct (String.eqb key "ArrowRight"); [apply Hnav|].
    destruct (String.eqb key "ArrowLeft"); [apply Hnav|].
    destruct (Hset w w) as [-> ->]. auto.
  - simpl. destruct (_ =? _); [auto|]. apply Hnav.
  - simpl. destruct (_ =? _); [auto|]. apply Hnav.
  - simpl. destruct (_ <? _)%nat; [apply Hnav | auto].
  - simpl. auto.
  - simpl. unfold Jsx.onPointerMove. destruct (Jsx.isDragging _); auto.
  - change (Jsx.step Jsx.PointerUp w) with (Jsx.settle w (Jsx.onPointerUp w)).
    destruct (Hset w (Jsx.onPointerUp w)) as [-> ->].
    unfold Jsx.onPointerUp. destruct (Jsx.isDragging _); [|auto].
    set (w1 := Jsx.set_pos _ w).
    destruct (Jsx.release _); unfold Jsx.next, Jsx.prev.
    + destruct (Hgo (Jsx.activeIndex w1 + 1) w1) as [-> ->].
      split; [reflexivity|]. right. eexists. reflexivity.
    + destruct (Hgo (Jsx.activeIndex w1 - 1) w1) as [-> ->].
      split; [reflexivity|]. right. eexists. reflexivity.
    + auto.
  - simpl. unfold Jsx.onAnimationFrame. destruct (Jsx.frame w); auto.
  - simpl. destruct (Jsx.slideError w !! pos) as [[|]|]; auto.
Qed.

(** X12.  The index of the pixel-drag carousel stays an index of the
    collection through everything that can happen to it (keys, buttons,
    dots, presses, moves, releases, animation frames, image errors),
    from every start index: after every run the slides are those it was
    mounted with and [activeIndex] is in [0, N-1]; with no slide at all
    it stays 0. *)
Theorem X12_jsx_index_stays_in_range :
  forall (slides : list Slides.CarouselSlide) (startIndex : option Jsx.JsNumber)
         (userId : option string) (slideWidth : Z) (evs : list Jsx.Event),
    let w := Jsx.run evs (Jsx.mount slides startIndex userId slideWidth) in
    Jsx.slides w = slides /\
    (slides <> [] -> 0 <= Jsx.activeIndex w < Z.of_nat (length slides)) /\
    (slides = [] -> Jsx.activeIndex w = 0).
Proof.
  intros slides startIndex userId slideWidth evs.
  set (w0 := Jsx.mount slides startIndex userId slideWidth).
  assert (H0 : Jsx.slides w0 = slides /\
               (slides <> [] -> 0 <= Jsx.activeIndex w0 < Z.of_nat (length slides)) /\
               (slides = [] -> Jsx.activeIndex w0 = 0)).
  { split; [reflexivity|].
    change (Jsx.activeIndex w0)
      with (Jsx.initialIndex (length slides) (default (Jsx.Finite 0) startIndex)).
    unfold Jsx.initialIndex.
    destruct (default (Jsx.Finite 0) startIndex) as [z|].
    - destruct (Z.geb_spec z 0), (Z.ltb_spec z (Z.of_nat (length slides)));
        cbn [andb]; (split; [intros Hne; destruct slides; [congruence|cbn [length] in *; lia]
                            |intros ->; cbn [length] in *; lia]).
    - split; [intros Hne; destruct slides; [congruence|cbn [length]; lia]|reflexivity]. }
  clearbody w0. revert w0 H0.
  induction evs as [|ev evs IH]; intros w0 H0; [exact H0|].
  apply IH. destruct H0 as (Hs & Hin & Hz).
  destruct (jsx_step_index ev w0) as [Hs' Hi]. rewrite Hs', Hs.
  split; [reflexivity|]. unfold Jsx.total in Hi. rewrite Hs in Hi.
  destruct Hi as [-> | [i ->]]; [now split|]. unfold Jsx.clampIndex. split.
  - intros Hne. destruct slides; [congruence|]. cbn [length]. lia.
  - intros ->. cbn [length]. lia.
Qed.

(** X13.  The release does not cancel the animation frame the last move
    requested.  After a press, a move and a release that come within one
    frame, the release has applied the rest position when it snapped
    back, but the frame is still pending, and when the browser runs it
    the track jumps to where the drag had put it, whatever the release
    decided. *)
Theorem X13_release_leaves_the_frame_pending :
  forall (j : Jsx.World) (x0 y0 x1 y1 : Z),
    let up := Jsx.run [Jsx.PointerDown x0 y0; Jsx.PointerMove x1 y1; Jsx.PointerUp] j in
    Jsx.frame up = Some (Jsx.trackX j + (x1 - x0)) /\
    Jsx.trackX (Jsx.step Jsx.AnimationFrame up) = Jsx.trackX j + (x1 - x0) /\
    Jsx.activeIndex (Jsx.step Jsx.AnimationFrame up) = Jsx.activeIndex up /\
    (-40 <= x1 - x0 <= 40 ->
     Jsx.activeIndex up = Jsx.activeIndex j /\ Jsx.trackX up = Jsx.restPosition j).
Proof.
  intros j x0 y0 x1 y1 up.
  assert (Hframe : Jsx.frame up = Some (Jsx.trackX j + (x1 - x0))).
  { unfold up. cbn [Jsx.run foldl].
    change (Jsx.step Jsx.PointerUp ?w) with (Jsx.settle w (Jsx.onPointerUp w)).
    unfold Jsx.settle, Jsx.onPointerUp. simpl.
    destruct (Jsx.release _); unfold Jsx.next, Jsx.prev, Jsx.goTo; simpl;
      repeat (destruct (negb _); simpl); reflexivity. }
  split; [exact Hframe|]. split; [|split].
  - simpl. unfold Jsx.onAnimationFrame. now rewrite Hframe.
  - simpl. unfold Jsx.onAnimationFrame. now rewrite Hframe.
  - intros Hd.
    destruct (jsx_gesture j x0 y0 [Jsx.PointerMove x1 y1] eq_refl) as (_ & _ & Hsnap).
    destruct (Hsnap Hd) as (Hi & _ & Ht). split; [exact Hi | exact Ht].
Qed.

(** X14.  At the two ends the drag has no way back: on the last slide a
    drag to the left beyond the threshold (on the first slide, to the
    right) changes no index and writes nothing, and the release does not
    apply the rest position either: the track stays where the drag put
    it. *)
Theorem X14_drag_past_the_end_leaves_the_track_displaced :
  forall (j : Jsx.World) (x0 y0 x1 y1 : Z),
    0 < Jsx.total j ->
    let up := Jsx.run [Jsx.PointerDown x0 y0; Jsx.PointerMove x1 y1;
                       Jsx.AnimationFrame; Jsx.PointerUp] j in
    (Jsx.activeIndex j = Jsx.total j - 1 /\ x1 - x0 < -40 \/
     Jsx.activeIndex j = 0 /\ 40 < x1 - x0) ->
    Jsx.activeIndex up = Jsx.activeIndex j /\
    Jsx.console up = Jsx.console j /\
    Jsx.trackX up = Jsx.trackX j + (x1 - x0).
Proof.
  intros j x0 y0 x1 y1 Hn up Hend.
  unfold up. cbn [Jsx.run foldl].
  change (Jsx.step Jsx.PointerUp ?w) with (Jsx.settle w (Jsx.onPointerUp w)).
  unfold Jsx.onPointerUp. simpl.
  destruct Hend as [[Hlast Hd] | [Hfirst Hd]].
  - apply release_next in Hd. rewrite Hd. unfold Jsx.next.
    match goal with |- context [Jsx.goTo ?i ?w0] =>
      assert (Hsame : Jsx.goTo i w0 = w0) end.
    { apply jsx_goTo_same. simpl. unfold Jsx.total in *. simpl.
      unfold Jsx.clampIndex. lia. }
    rewrite Hsame. unfold Jsx.settle. simpl. rewrite Z.eqb_refl. simpl. auto.
  - apply release_prev in Hd. rewrite Hd. unfold Jsx.prev.
    match goal with |- context [Jsx.goTo ?i ?w0] =>
      assert (Hsame : Jsx.goTo i w0 = w0) end.
    { apply jsx_goTo_same. simpl. unfold Jsx.total in *. simpl.
      unfold Jsx.clampIndex. lia. }
    rewrite Hsame. unfold Jsx.settle. simpl. rewrite Z.eqb_refl. simpl. auto.
Qed.

Lemma X14_drag_past_the_end_witness :
  let j := Jsx.run [Jsx.ClickNext; Jsx.ClickNext] demoJsx in
  (0 < Jsx.total j /\ Jsx.activeIndex j = Jsx.total j - 1 /\ 100 - 200 < -40) /\
  Jsx.activeIndex
    (Jsx.run [Jsx.PointerDown 200 50; Jsx.PointerMove 100 50;
              Jsx.AnimationFrame; Jsx.PointerUp] j) = 2 /\
  Jsx.trackX
    (Jsx.run [Jsx.PointerDown 200 50; Jsx.PointerMove 100 50;
              Jsx.AnimationFrame; Jsx.PointerUp] j) = Jsx.restPosition j - 100.
Proof.
  intros j.
  assert (Hn : 0 < Jsx.total j) by (vm_compute; reflexivity).
  assert (Hlast : Jsx.activeIndex j = Jsx.total j - 1) by (vm_compute; reflexivity).
  assert (Hd : 100 - 200 < -40) by (vm_compute; reflexivity).
  split; [auto|].
  destruct (X14_drag_past_the_end_leaves_the_track_displaced j 200 50 100 50 Hn
              (or_introl (conj Hlast Hd))) as (Hi & _ & Ht).
  split; [rewrite Hi; vm_compute; reflexivity|].
  rewrite Ht. vm_compute. reflexivity.
Defined.

(** *** The guarded logger *)

(** X18.  [logAuditEvent] keeps a failure of the console to itself as
    long as [console.error] works: it returns, with the event written
    exactly when both the serialisation and [console.info] went through.
    So the updater of [goTo] of the pixel-drag carousel always returns,
    with the clamped index, whether or not the slide change could be
    written.  Its catch block is not guarded itself: when [console.error]
    raises on the message of a failed serialisation, that exception
    leaves [logAuditEvent]. *)
Theorem X18_logAuditEvent_swallows_console_failures :
  forall (c : Console) (event : JsAuditEvent) (out : list JsAuditEvent)
         (nextIdx : Z) (j : Jsx.World),
    ((forall e, console_error c e = Returned tt) ->
     logAuditEvent_on c event out
     = Returned match stringify c event with
                | Returned s =>
                    match console_info c s with
                    | Returned _ => out ++ [s]
                    | Raised _ => out
                    end
                | Raised _ => out
                end /\
     exists j', Jsx.goToUpdater_on c nextIdx j = Returned j' /\
                Jsx.activeIndex j' = Jsx.clampIndex (Jsx.total j) nextIdx /\
                (Jsx.console j' = Jsx.console j \/
                 exists e, Jsx.console j' = Jsx.console j ++ [e])) /\
    (forall msg msg', stringify c event = Raised msg ->
                      console_error c msg = Raised msg' ->
                      logAuditEvent_on c event out = Raised msg').
Proof.
  intros c event out nextIdx j. split.
  - intros Herr.
    assert (Hlog : forall ev o,
              logAuditEvent_on c ev o
              = Returned match stringify c ev with
                         | Returned s =>
                             match console_info c s with
                             | Returned _ => o ++ [s]
                             | Raised _ => o
                             end
                         | Raised _ => o
                         end).
    { intros ev o. unfold logAuditEvent_on.
      destruct (stringify c ev) as [s|m]; simpl.
      - destruct (console_info c s) as [[]|m]; simpl; [reflexivity|]. now rewrite Herr.
      - now rewrite Herr. }
    split; [apply Hlog|].
    unfold Jsx.goToUpdater_on, logSlideChange_on.
    destruct (negb _); simpl; [|eexists; repeat split; now left].
    rewrite Hlog. simpl. eexists. split; [reflexivity|]. split; [reflexivity|].
    simpl. destruct (stringify c _) as [s|m]; [|now left].
    destruct (console_info c s); [right; now exists s | now left].
  - intros msg msg' Hs He. unfold logAuditEvent_on. rewrite Hs. simpl. now rewrite He.
Qed.

Lemma X18_logAuditEvent_witness :
  (forall e, console_error broken_info_console e = Returned tt) /\
  logAuditEvent_on broken_info_console (slideChangeEvent 0 1 3 "anonymous") []
  = Returned [].
Proof.
  assert (Herr : forall e, console_error broken_info_console e = Returned tt)
    by reflexivity.
  split; [exact Herr|].
  destruct (X18_logAuditEvent_swallows_console_failures broken_info_console
              (slideChangeEvent 0 1 3 "anonymous") [] 1 demoJsx) as [Hok _].
  rewrite (proj1 (Hok Herr)). reflexivity.
Defined.

End Further.

(* ===================================================================== *)
(** ** The sanitizer returns slides in normal form                        *)
(* ===================================================================== *)

Section NormalForm.
Import Slides.


Lemma tight_of_trim (m : string) : trim m = m -> m <> "" -> tight m.
Proof.
  intros E Hne. destruct (trim_spec m) as [_ [H | H]]; [congruence|]. now rewrite E in H.
Qed.

Lemma tight_no_prefix (m : string) : tight m -> ws_prefix m = 0%nat.
Proof.
  intros (_ & Hp & _). destruct (ws_prefix m) eqn:E; [reflexivity|].
  destruct (ws_prefix_sound m) as (c & rest & Hc & ->); [now rewrite E|].
  now destruct (Hp c rest Hc).
Qed.

Lemma blank_last (s : string) :
  blank s -> s <> "" -> exists rest c, In c white_space /\ s = rest +:+ c.
Proof.
  induction 1 as [|c s Hc Hs IH]; [congruence|]. intros _.
  destruct (string_dec s "") as [-> | Hne].
  - exists "", c. now rewrite append_nil_r.
  - destruct (IH Hne) as (rest & c' & Hc' & ->).
    exists (c +:+ rest), c'. now rewrite append_assoc.
Qed.

Lemma trim_end_fixed (m : string) :
  (forall u1 u2, m = u1 +:+ u2 -> u2 <> "" -> all_ws u2 = false) -> trim_end m = m.
Proof.
  induction m as [|a m IH]; intros H; [reflexivity|].
  cbn [trim_end]. rewrite (H "" (String a m)) by (reflexivity || discriminate).
  f_equal. apply IH. intros u1 u2 -> Hne.
  apply (H (String a u1) u2); [reflexivity | exact Hne].
Qed.

Lemma trim_tight (m : string) : tight m -> trim m = m.
Proof.
  intros Ht. unfold trim. rewrite trim_start_fixed by now apply tight_no_prefix.
  apply trim_end_fixed. intros u1 u2 -> Hne.
  destruct (all_ws u2) eqn:E; [exfalso|reflexivity].
  apply blank_all_ws in E. destruct (blank_last u2 E Hne) as (rest & c & Hc & ->).
  destruct Ht as (_ & _ & Hend). apply (Hend c (u1 +:+ rest) Hc).
  now rewrite append_assoc.
Qed.

Lemma last_byte_append (a b : string) :
  b <> "" -> last_byte (a +:+ b) = last_byte b.
Proof.
  intros Hb. induction a as [|x a IH]; [reflexivity|].
  rewrite append_cons. cbn [last_byte]. rewrite IH.
  destruct b; [congruence|]. cbn [last_byte]. now destruct (last_byte b).
Qed.

(** No white space character ends with the letter e. *)
Lemma white_space_last (c : string) :
  In c white_space -> c <> "" /\ last_byte c <> Some "e"%char.
Proof.
  intros H. unfold white_space in H. simpl in H.
  repeat (destruct H as [<- | H]; [split; discriminate|]). destruct H.
Qed.

Lemma ws_prefix_head (a : ascii) (s : string) :
  ws_prefix (String a s) = 0%nat -> s <> "" ->
  forall t, ws_prefix (String a (s +:+ String " " (String "i" t))) = 0%nat.
Proof.
  intros H Hs t. destruct s as [|b [|d s]]; [congruence| |exact H].
  - revert H. rewrite !append_cons.
    change ("" +:+ String " " (String "i" t)) with (String " " (String "i" t)).
    unfold ws_prefix. change (code " ") with 32%N.
    destruct ((9 <=? code a) && (code a <=? 13) || (code a =? 32))%N; [discriminate|].
    destruct ((code a =? 194) && (code b =? 160))%N; [discriminate|].
    intros _. simpl. now rewrite !andb_false_r.
Qed.

Lemma tight_image_suffix (m : string) : tight m -> tight (m +:+ " image").
Proof.
  intros Ht. pose proof (tight_no_prefix m Ht) as Hp.
  apply tight_of_trim; [|destruct m; [now destruct Ht|discriminate]].
  unfold trim.
  assert (Hstart : ws_prefix (m +:+ " image") = 0%nat).
  { destruct m as [|a m]; [now destruct Ht|]. rewrite append_cons.
    destruct m as [|b m].
    - revert Hp. change ("" +:+ " image") with " image".
      unfold ws_prefix. change (code " ") with 32%N.
      destruct ((9 <=? code a) && (code a <=? 13) || (code a =? 32))%N; [discriminate|].
      intros _. simpl. now rewrite !andb_false_r.
    - apply (ws_prefix_head a (String b m) Hp); discriminate. }
  rewrite trim_start_fixed by exact Hstart.
  apply trim_end_fixed. intros u1 u2 E Hne.
  destruct (all_ws u2) eqn:Ea; [exfalso|reflexivity].
  apply blank_all_ws in Ea. destruct (blank_last u2 Ea Hne) as (rest & c & Hc & ->).
  destruct (white_space_last c Hc) as [Hcne Hlast].
  assert (Hl : last_byte (m +:+ " image") = Some "e"%char)
    by (rewrite last_byte_append by discriminate; reflexivity).
  rewrite E, <- append_assoc, last_byte_append in Hl by exact Hcne.
  congruence.
Qed.

Lemma not_blank_headed (a : ascii) (s : string) :
  ws_prefix (String a s) = 0%nat -> ~ blank (String a s).
Proof.
  intros Hp Hb. inversion Hb as [|c s' Hc Hs' E].
  destruct (white_space_head c s' Hc) as (Hne & Hw & _).
  rewrite E, Hp in Hw. destruct c; [congruence|discriminate].
Qed.

Lemma tight_not_blank (m : string) : tight m -> ~ blank m.
Proof.
  intros Ht Hb. pose proof (tight_no_prefix m Ht) as Hp.
  destruct m; [now destruct Ht|]. now apply (not_blank_headed a m).
Qed.

Lemma fieldSpec_tight (v : JsValue) (dflt out : string) :
  tight dflt -> fieldSpec v dflt out -> tight out.
Proof.
  intros Hd. destruct v; simpl; try (now intros ->).
  intros [[_ ->] | (_ & _ & Ht)]; assumption.
Qed.

(** What the sanitizer returns is in normal form. *)
Lemma sanitize_clean (idx : nat) (v : JsValue) : clean (sanitize idx v).
Proof.
  destruct (sanitize_spec idx v) as (Hid & Ht & Hd & Hi & Ha).
  assert (Hlit : forall m, trim m = m -> m <> "" -> tight m) by apply tight_of_trim.
  assert (Htitle : tight (title (sanitize idx v))).
  { apply (fieldSpec_tight _ _ _ (Hlit "Untitled" eq_refl ltac:(discriminate)) Ht). }
  split; [|split; [exact Htitle|split; [|split]]].
  - assert (Hgen : ~ blank ("slide-" +:+ pretty idx))
      by (apply (not_blank_headed "s"); reflexivity).
    revert Hid. destruct (get v "id"); simpl; try (now intros ->).
    intros [[_ ->] | [Hnb ->]]; assumption.
  - apply (fieldSpec_tight _ _ _
             (Hlit "No description provided." eq_refl ltac:(discriminate)) Hd).
  - apply (fieldSpec_tight _ _ _
             (Hlit "/images/placeholder.jpg" eq_refl ltac:(discriminate)) Hi).
  - apply (fieldSpec_tight _ _ _ (tight_image_suffix _ Htitle) Ha).
Qed.

Lemma nonblank_JStr (x : string) : ~ blank x -> nonblank (JStr x) = Some x.
Proof.
  intros H. simpl. destruct (String.eqb_spec (trim x) "") as [E|_]; [|reflexivity].
  now apply trim_blank in E.
Qed.

(** A slide in normal form goes through the sanitizer unchanged. *)
Lemma sanitize_toJs (idx : nat) (s : CarouselSlide) :
  clean s -> sanitize idx (toJs s) = s.
Proof.
  intros (Hid & Ht & Hd & Hi & Ha).
  unfold sanitize, toJs, slide_literal.
  change (get (JObj _) "id") with (JStr (id s)).
  change (get (JObj _) "title") with (JStr (title s)).
  change (get (JObj _) "description") with (JStr (description s)).
  change (get (JObj _) "image") with (JStr (image s)).
  change (get (JObj _) "alt") with (JStr (alt s)).
  rewrite !nonblank_JStr by (assumption || now apply tight_not_blank).
  rewrite !trim_tight by assumption. now destruct s.
Qed.

Lemma filter_keep_toJs (l : list CarouselSlide) :
  List.filter keep (toJs <$> l) = toJs <$> l.
Proof.
  induction l as [|s l IH]; [reflexivity|]. rewrite fmap_cons.
  change (List.filter keep (toJs s :: (toJs <$> l)))
    with (toJs s :: List.filter keep (toJs <$> l)).
  now rewrite IH.
Qed.

Lemma validateSlides_fixed (l : list CarouselSlide) :
  Forall clean l -> validateSlides (JArr (toJs <$> l)) = l.
Proof.
  intros Hl. unfold validateSlides. rewrite filter_keep_toJs, imap_fmap.
  rewrite <- (list_fmap_id l) at 2. rewrite <- imap_const.
  apply imap_ext. intros i s Hs. simpl.
  apply sanitize_toJs. rewrite Forall_lookup in Hl. exact (Hl i s Hs).
Qed.

Lemma validateSlides_clean (v : JsValue) : Forall clean (validateSlides v).
Proof.
  assert (Hfb : clean fallback).
  { change fallback with (sanitize 0 (toJs fallback)) at 1. apply sanitize_clean. }
  destruct v; simpl; try (constructor; [exact Hfb|constructor]).
  apply Forall_lookup. intros i s Hs. rewrite list_lookup_imap in Hs.
  destruct (List.filter keep items !! i); simpl in Hs; [|discriminate].
  injection Hs as <-. apply sanitize_clean.
Qed.

(** X15.  Slides in normal form go through the sanitizer unchanged: for
    slides whose id is not blank and whose other fields are not empty
    and have no white space at either end, [validateSlides] of the
    array of those slides returns them as they are, in order. *)
Theorem X15_clean_slides_pass_unchanged :
  forall l : list CarouselSlide,
    Forall clean l -> validateSlides (JArr (toJs <$> l)) = l.
Proof. exact validateSlides_fixed. Qed.

Lemma X15_clean_slides_witness :
  Forall clean [fallback] /\ validateSlides (JArr (toJs <$> [fallback])) = [fallback].
Proof.
  assert (H : Forall clean [fallback]) by exact (validateSlides_clean JNull).
  split; [exact H|]. exact (X15_clean_slides_pass_unchanged [fallback] H).
Defined.

(** X16.  [validateSlides] is idempotent: whatever it is given, the
    slides it returns are in normal form (the id not blank, the other
    fields not empty and without white space at either end, defaults
    included), and sanitizing them again returns them unchanged. *)
Theorem X16_validateSlides_is_idempotent :
  forall v : JsValue,
    Forall clean (validateSlides v) /\
    validateSlides (JArr (toJs <$> validateSlides v)) = validateSlides v.
Proof.
  intros v. split; [apply validateSlides_clean|].
  apply validateSlides_fixed, validateSlides_clean.
Qed.

(** X17.  The ids the sanitizer makes up do not collide with each
    other: when no element of the array has an id that is a string and
    not blank, the slides of the result have pairwise different ids. *)
Theorem X17_generated_ids_are_distinct :
  forall items : list JsValue,
    Forall (fun v => forall x, get v "id" = JStr x -> blank x) items ->
    NoDup (id <$> validateSlides (JArr items)).
Proof.
  intros items Hno. unfold validateSlides.
  rewrite fmap_imap.
  assert (Hgen : imap (fun n => id ∘ sanitize n) (List.filter keep items)
                 = imap (fun n _ => "slide-" +:+ pretty n) (List.filter keep items)).
  { apply imap_ext. intros i v Hv. simpl.
    assert (Hin : In v items).
    { apply (List.filter_In keep v items).
      apply list_elem_of_In. eapply list_elem_of_lookup_2, Hv. }
    rewrite Forall_forall in Hno. unfold sanitize. cbn [id].
    assert (Hnone : nonblank (get v "id") = None).
    { pose proof (Hno v (proj2 (list_elem_of_In _ _) Hin)) as Hb.
      destruct (get v "id"); try reflexivity. simpl.
      destruct (String.eqb_spec (trim s) "") as [_|E]; [reflexivity|].
      destruct E. apply trim_blank. now apply Hb. }
    now rewrite Hnone. }
  rewrite Hgen, imap_seq_0.
  apply NoDup_fmap_2; [|apply NoDup_seq].
  intros a b Hab. apply String.app_inj in Hab. now apply pretty_nat_inj in Hab.
Qed.

Lemma X17_generated_ids_witness :
  Forall (fun v => forall x, get v "id" = JStr x -> blank x)
    [JObj []; JArr []; JObj [("id", JStr " ")]] /\
  NoDup (id <$> validateSlides (JArr [JObj []; JArr []; JObj [("id", JStr " ")]])).
Proof.
  assert (H : Forall (fun v => forall x, get v "id" = JStr x -> blank x)
                [JObj []; JArr []; JObj [("id", JStr " ")]]).
  { repeat constructor; intros x Hx; try discriminate Hx.
    injection Hx as <-. apply (blank_more " " ""); [|constructor].
    unfold white_space. simpl. tauto. }
  split; [exact H|]. exact (X17_generated_ids_are_distinct _ H).
Defined.

End NormalForm.
